(** * redditsearch: settings provider and logger factory

    A shallow embedding of [src/config/settings.py] and
    [src/utils/logger.py].  Both modules are thin wrappers around
    libraries (pydantic-settings, the [json] and [logging] modules of the
    Python standard library, and rich's [RichHandler]); the parts of
    those libraries that the two modules exercise are embedded next to
    them, each definition naming the library routine it follows. *)

From Stdlib Require Import ZArith NArith List String Ascii Lia Bool DecimalString.
From stdpp Require Import base option list gmap.

Set Warnings "-register-all".

Open Scope N_scope.

(** ** Python strings *)

(** A Python [str] is a sequence of Unicode code points. *)
Abbreviation str := (list N).

(** The code points of an ASCII literal. *)
Definition py (s : string) : str := map N_of_ascii (list_ascii_of_string s).

Definition ch (a : ascii) : N := N_of_ascii a.
Arguments ch a%_char.

(** The double quote and the backslash. *)
Definition DQUOTE : N := 34.
Definition BSLASH : N := 92.

Definition str_eqb (a b : str) : bool := bool_decide (a = b).

(** [s.startswith(p)], returning what follows the prefix. *)
Fixpoint strip_prefix (p s : str) : option str :=
  match p with
  | [] => Some s
  | c :: p' =>
      match s with
      | [] => None
      | d :: s' => if c =? d then strip_prefix p' s' else None
      end
  end.

(** [s.ljust(width)]: pad with spaces on the right. *)
Definition ljust (width : nat) (s : str) : str :=
  s ++ repeat (ch " ") (width - length s)%nat.

(** [str(n)] for an integer. *)
Definition str_of_Z (n : Z) : str := py (NilZero.string_of_int (Z.to_int n)).

(** ** The [json] decoder of the standard library

    The decoder follows [json.decoder] and [json.scanner] with their
    default options ([strict=True], no hooks).  The limits of the
    interpreter (recursion depth, length of an integer literal) are not
    part of it. *)

Module Json.

(** A decoded document, that is the Python object [json.loads] returns:
    [None], a [bool], a number, a [str], a [list] or a [dict].  Numbers
    keep their literal text: no recognised setting has a numeric type, so
    only their presence matters.  A [dict] is the list of its items in
    insertion order, with distinct keys. *)
Inductive json : Type :=
| JNull
| JBool (b : bool)
| JNum (lit : str)
| JStr (s : str)
| JArr (items : list json)
| JObj (pairs : list (str * json)).

Definition dict_get (k : str) (d : list (str * json)) : option json :=
  match List.find (fun kv => str_eqb (fst kv) k) d with
  | Some kv => Some (snd kv)
  | None => None
  end.

(** [d[k] = v]: in place when the key exists, appended otherwise. *)
Fixpoint dict_set (k : str) (v : json) (d : list (str * json))
  : list (str * json) :=
  match d with
  | [] => [(k, v)]
  | kv :: d' => if str_eqb (fst kv) k then (k, v) :: d' else kv :: dict_set k v d'
  end.

(** [dict(pairs)]: a later pair replaces an earlier one with its key. *)
Definition dict (pairs : list (str * json)) : list (str * json) :=
  fold_left (fun d kv => dict_set (fst kv) (snd kv) d) pairs [].

(** [WHITESPACE]: space, tab, line feed, carriage return. *)
Definition is_ws (c : N) : bool :=
  (c =? ch " ") || (c =? 9) || (c =? 10) || (c =? 13).

Fixpoint skip_ws (s : str) : str :=
  match s with
  | c :: s' => if is_ws c then skip_ws s' else s
  | [] => []
  end.

Definition is_digit (c : N) : bool := (48 <=? c) && (c <=? 57).

Definition hexdigit (c : N) : option N :=
  if is_digit c then Some (c - 48)
  else if (97 <=? c) && (c <=? 102) then Some (c - 87)
  else if (65 <=? c) && (c <=? 70) then Some (c - 55)
  else None.

(** [_decode_uXXXX]: exactly four hexadecimal digits. *)
Definition decode_uXXXX (a b c d : N) : option N :=
  match hexdigit a, hexdigit b, hexdigit c, hexdigit d with
  | Some x, Some y, Some z, Some w => Some (((x * 16 + y) * 16 + z) * 16 + w)
  | _, _, _, _ => None
  end.

(** The [BACKSLASH] table of the decoder. *)
Definition BACKSLASH (e : N) : option N :=
  if e =? DQUOTE then Some DQUOTE
  else if e =? BSLASH then Some BSLASH
  else if e =? ch "/" then Some (ch "/")
  else if e =? ch "b" then Some 8
  else if e =? ch "f" then Some 12
  else if e =? ch "n" then Some 10
  else if e =? ch "r" then Some 13
  else if e =? ch "t" then Some 9
  else None.

Definition is_high_surrogate (u : N) : bool := (55296 <=? u) && (u <=? 56319).
Definition is_low_surrogate (u : N) : bool := (56320 <=? u) && (u <=? 57343).
Definition join_surrogates (hi lo : N) : N :=
  65536 + N.lor (N.shiftl (hi - 55296) 10) (lo - 56320).

(** [scanstring(s, end, strict=True)], entered just after the opening
    quote: the decoded text and what follows the closing quote.  A raw
    control character, an unknown escape and a missing closing quote are
    errors. *)
Fixpoint scanstring (s : str) : option (str * str) :=
  match s with
  | [] => None
  | c :: s1 =>
      if c =? DQUOTE then Some ([], s1)
      else if c =? BSLASH then
        match s1 with
        | [] => None
        | e :: s2 =>
            if e =? ch "u" then
              match s2 with
              | x1 :: x2 :: x3 :: x4 :: s6 =>
                  match decode_uXXXX x1 x2 x3 x4 with
                  | None => None
                  | Some uni =>
                      let single :=
                        match scanstring s6 with
                        | Some (r, rest) => Some (uni :: r, rest)
                        | None => None
                        end in
                      if is_high_surrogate uni then
                        match s6 with
                        | b :: u :: y1 :: y2 :: y3 :: y4 :: s12 =>
                            if (b =? BSLASH) && (u =? ch "u") then
                              match decode_uXXXX y1 y2 y3 y4 with
                              | None => None
                              | Some uni2 =>
                                  if is_low_surrogate uni2 then
                                    match scanstring s12 with
                                    | Some (r, rest) =>
                                        Some (join_surrogates uni uni2 :: r, rest)
                                    | None => None
                                    end
                                  else single
                              end
                            else single
                        | _ => single
                        end
                      else single
                  end
              | _ => None
              end
            else
              match BACKSLASH e with
              | None => None
              | Some c' =>
                  match scanstring s2 with
                  | Some (r, rest) => Some (c' :: r, rest)
                  | None => None
                  end
              end
        end
      else if c <? 32 then None
      else
        match scanstring s1 with
        | Some (r, rest) => Some (c :: r, rest)
        | None => None
        end
  end.

(** The longest run of decimal digits at the head of [s]. *)
Fixpoint digits (s : str) : str * str :=
  match s with
  | c :: s' =>
      if is_digit c then let '(ds, r) := digits s' in (c :: ds, r) else ([], s)
  | [] => ([], [])
  end.

(** [NUMBER_RE]: an optional minus sign and an integer part ([0], or a
    nonzero digit and more digits), then optionally a point and digits,
    then optionally [e] or [E], a sign and digits; matched at the head
    of [s]: the matched text and the rest. *)
Definition match_integer (s : str) : option (str * str) :=
  let '(sign, s0) :=
    match s with
    | c :: r => if c =? ch "-" then ([c], r) else ([], s)
    | [] => ([], s)
    end in
  match s0 with
  | c :: r =>
      if c =? ch "0" then Some (sign ++ [c], r)
      else if is_digit c then let '(ds, r') := digits r in Some (sign ++ c :: ds, r')
      else None
  | [] => None
  end.

Definition match_frac (s : str) : str * str :=
  match s with
  | p :: d :: r =>
      if (p =? ch ".") && is_digit d
      then let '(ds, r') := digits r in (p :: d :: ds, r')
      else ([], s)
  | _ => ([], s)
  end.

Definition match_exp (s : str) : str * str :=
  match s with
  | e :: r =>
      if (e =? ch "e") || (e =? ch "E") then
        let '(sg, r1) :=
          match r with
          | c :: x => if (c =? ch "-") || (c =? ch "+") then ([c], x) else ([], r)
          | [] => ([], r)
          end in
        match r1 with
        | d :: y =>
            if is_digit d
            then let '(ds, z) := digits y in (e :: sg ++ d :: ds, z)
            else ([], s)
        | [] => ([], s)
        end
      else ([], s)
  | [] => ([], s)
  end.

Definition match_number (s : str) : option (str * str) :=
  match match_integer s with
  | None => None
  | Some (int, r) =>
      let '(frac, r1) := match_frac r in
      let '(exp, r2) := match_exp r1 in
      Some (int ++ frac ++ exp, r2)
  end.

(** The [while True] loop of [JSONArray]: [s] stands at the first
    character of an element.  [n] bounds the number of elements by the
    length of the text. *)
Fixpoint array_loop (scan : str -> option (json * str)) (n : nat) (s : str)
  : option (list json * str) :=
  match n with
  | O => None
  | S n' =>
      match scan s with
      | None => None
      | Some (v, s1) =>
          match skip_ws s1 with
          | c :: s2 =>
              if c =? ch "]" then Some ([v], s2)
              else if c =? ch "," then
                match array_loop scan n' (skip_ws s2) with
                | Some (vs, s3) => Some (v :: vs, s3)
                | None => None
                end
              else None
          | [] => None
          end
      end
  end.

(** [JSONArray], entered just after the opening bracket. *)
Definition JSONArray (scan : str -> option (json * str)) (s : str)
  : option (list json * str) :=
  match skip_ws s with
  | c :: s1 =>
      if c =? ch "]" then Some ([], s1)
      else array_loop scan (length s) (skip_ws s)
  | [] => None
  end.

(** The [while True] loop of [JSONObject]: [s] stands just after the
    opening quote of a key. *)
Fixpoint object_loop (scan : str -> option (json * str)) (n : nat) (s : str)
  : option (list (str * json) * str) :=
  match n with
  | O => None
  | S n' =>
      match scanstring s with
      | None => None
      | Some (key, s1) =>
          match skip_ws s1 with
          | c :: s2 =>
              if c =? ch ":" then
                match scan (skip_ws s2) with
                | None => None
                | Some (v, s3) =>
                    match skip_ws s3 with
                    | d :: s4 =>
                        if d =? ch "}" then Some ([(key, v)], s4)
                        else if d =? ch "," then
                          match skip_ws s4 with
                          | q :: s5 =>
                              if q =? DQUOTE then
                                match object_loop scan n' s5 with
                                | Some (ps, s6) => Some ((key, v) :: ps, s6)
                                | None => None
                                end
                              else None
                          | [] => None
                          end
                        else None
                    | [] => None
                    end
                end
              else None
          | [] => None
          end
      end
  end.

(** [JSONObject], entered just after the opening brace. *)
Definition JSONObject (scan : str -> option (json * str)) (s : str)
  : option (list (str * json) * str) :=
  match skip_ws s with
  | c :: s1 =>
      if c =? ch "}" then Some ([], s1)
      else if c =? DQUOTE then object_loop scan (length s) s1
      else None
  | [] => None
  end.

(** [scan_once]: one value at the head of [s].  [fuel] bounds the nesting
    depth. *)
Fixpoint scan_once (fuel : nat) (s : str) : option (json * str) :=
  match fuel with
  | O => None
  | S fuel' =>
      match s with
      | [] => None
      | c :: s1 =>
          if c =? DQUOTE then
            match scanstring s1 with
            | Some (x, r) => Some (JStr x, r)
            | None => None
            end
          else if c =? ch "{" then
            match JSONObject (scan_once fuel') s1 with
            | Some (ps, r) => Some (JObj (dict ps), r)
            | None => None
            end
          else if c =? ch "[" then
            match JSONArray (scan_once fuel') s1 with
            | Some (vs, r) => Some (JArr vs, r)
            | None => None
            end
          else
            match strip_prefix (py "null") s with
            | Some r => Some (JNull, r)
            | None =>
            match strip_prefix (py "true") s with
            | Some r => Some (JBool true, r)
            | None =>
            match strip_prefix (py "false") s with
            | Some r => Some (JBool false, r)
            | None =>
            match match_number s with
            | Some (lit, r) => Some (JNum lit, r)
            | None =>
            match strip_prefix (py "NaN") s with
            | Some r => Some (JNum (py "NaN"), r)
            | None =>
            match strip_prefix (py "Infinity") s with
            | Some r => Some (JNum (py "Infinity"), r)
            | None =>
            match strip_prefix (py "-Infinity") s with
            | Some r => Some (JNum (py "-Infinity"), r)
            | None => None
            end end end end end end end
      end
  end.

(** [json.loads(s)]: leading whitespace, one value, trailing whitespace,
    nothing else.  [None] stands for [JSONDecodeError] (a [ValueError]). *)
Definition loads (s : str) : option json :=
  match scan_once (S (length s)) (skip_ws s) with
  | Some (v, r) =>
      match skip_ws r with
      | [] => Some v
      | _ :: _ => None
      end
  | None => None
  end.

(** A scanner that always consumes something. *)
Definition consuming (scan : str -> option (json * str)) : Prop :=
  forall s v r, scan s = Some (v, r) -> (length r < length s)%nat.

End Json.


(** ** [src/config/settings.py]

    [class Settings(BaseSettings)] and [get_settings()], with the part of
    pydantic-settings that [Settings()] runs: the environment source and
    the dotenv source, the merge of their results and the validation of
    the merged values against the annotations. *)

Module Config.
Import Json.

(** The seven annotated attributes of [class Settings], in the order of
    the class body (the order of [model_fields]). *)
Inductive Field : Type :=
| F_REDDIT_CLIENT_ID
| F_REDDIT_CLIENT_SECRET
| F_REDDIT_USER_AGENT
| F_DEFAULT_SUBREDDITS
| F_DEFAULT_KEYWORDS
| F_DATABASE_PATH
| F_OUTPUT_DIR.

Definition model_fields : list Field :=
  [F_REDDIT_CLIENT_ID; F_REDDIT_CLIENT_SECRET; F_REDDIT_USER_AGENT;
   F_DEFAULT_SUBREDDITS; F_DEFAULT_KEYWORDS; F_DATABASE_PATH; F_OUTPUT_DIR].

#[global] Instance Field_eq_dec : EqDecision Field.
Proof. solve_decision. Defined.

(** The name of the attribute, which with an empty [env_prefix] is also
    the name looked up in the environment and in the override file. *)
Definition field_name (f : Field) : str :=
  match f with
  | F_REDDIT_CLIENT_ID => py "REDDIT_CLIENT_ID"
  | F_REDDIT_CLIENT_SECRET => py "REDDIT_CLIENT_SECRET"
  | F_REDDIT_USER_AGENT => py "REDDIT_USER_AGENT"
  | F_DEFAULT_SUBREDDITS => py "DEFAULT_SUBREDDITS"
  | F_DEFAULT_KEYWORDS => py "DEFAULT_KEYWORDS"
  | F_DATABASE_PATH => py "DATABASE_PATH"
  | F_OUTPUT_DIR => py "OUTPUT_DIR"
  end.

(** The two annotations in use: [str] and [List[str]]. *)
Inductive annotation : Type := Str | ListStr.

Definition field_annotation (f : Field) : annotation :=
  match f with
  | F_DEFAULT_SUBREDDITS | F_DEFAULT_KEYWORDS => ListStr
  | _ => Str
  end.

(** A settings object: one attribute per annotated name. *)
Record Settings : Type := {
  REDDIT_CLIENT_ID : str;
  REDDIT_CLIENT_SECRET : str;
  REDDIT_USER_AGENT : str;
  DEFAULT_SUBREDDITS : list str;
  DEFAULT_KEYWORDS : list str;
  DATABASE_PATH : str;
  OUTPUT_DIR : str
}.

(** The right-hand sides of the class body. *)
Definition defaults : Settings := {|
  REDDIT_CLIENT_ID := py "";
  REDDIT_CLIENT_SECRET := py "";
  REDDIT_USER_AGENT := py "redditsearch/0.1.0";
  DEFAULT_SUBREDDITS := [py "SaaS"; py "Entrepreneur"; py "startups"];
  DEFAULT_KEYWORDS := [py "pay for"; py "need a tool"; py "wish there was"];
  DATABASE_PATH := py "data/redditsearch.db";
  OUTPUT_DIR := py "output"
|}.

(** [model_config = SettingsConfigDict(...)] *)
Inductive extra_policy : Type := ignore | forbid | allow.

Record SettingsConfigDict : Type := {
  env_file : str;
  env_file_encoding : str;
  case_sensitive : bool;
  extra : extra_policy
}.

Definition model_config : SettingsConfigDict := {|
  env_file := py ".env";
  env_file_encoding := py "utf-8";
  case_sensitive := true;
  extra := ignore
|}.

(** The value of an attribute, tagged with its type. *)
Inductive value : Type := VStr (s : str) | VList (l : list str).

Definition get_field (f : Field) (s : Settings) : value :=
  match f with
  | F_REDDIT_CLIENT_ID => VStr (REDDIT_CLIENT_ID s)
  | F_REDDIT_CLIENT_SECRET => VStr (REDDIT_CLIENT_SECRET s)
  | F_REDDIT_USER_AGENT => VStr (REDDIT_USER_AGENT s)
  | F_DEFAULT_SUBREDDITS => VList (DEFAULT_SUBREDDITS s)
  | F_DEFAULT_KEYWORDS => VList (DEFAULT_KEYWORDS s)
  | F_DATABASE_PATH => VStr (DATABASE_PATH s)
  | F_OUTPUT_DIR => VStr (OUTPUT_DIR s)
  end.

(** The two settings sources that can supply values here (no keyword
    arguments are passed to [Settings()] and no secrets directory is
    configured). *)
Inductive source : Type := EnvSettingsSource | DotEnvSettingsSource.

(** What construction can raise: pydantic-settings' [SettingsError],
    which names the field and the source whose value could not be
    decoded, and pydantic's [ValidationError], which lists every field
    whose value has the wrong type. *)
Inductive error : Type :=
| SettingsError (field : Field) (src : source)
| ValidationError (fields : list Field).

Inductive result (A : Type) : Type :=
| Ok (a : A)
| Raise (e : error).
Arguments Ok {A} a.
Arguments Raise {A} e.

(** [field_is_complex]: a [List] is decoded from JSON, a [str] is taken
    as it is. *)
Definition field_is_complex (f : Field) : bool :=
  match field_annotation f with
  | ListStr => true
  | Str => false
  end.

(** [prepare_field_value]: the value a source contributes for [f] given
    the text [value] found under the field's name.  The outer [None] is
    the [ValueError] of [decode_complex_value]; the inner [None] is the
    Python [None] that makes [__call__] leave the field out of its
    result, which is what happens when nothing was found and when the
    text decodes to JSON [null]. *)
Definition prepare_field_value (f : Field) (value : option str)
  : option (option json) :=
  match value with
  | None => Some None
  | Some v =>
      if field_is_complex f then
        match Json.loads v with
        | None => None
        | Some JNull => Some None
        | Some j => Some (Some j)
        end
      else Some (Some (JStr v))
  end.

(** [PydanticBaseEnvSettingsSource.__call__]: the loop over
    [model_fields].  [case_sensitive=True]: the name is looked up as it
    is written. *)
Fixpoint source_call (src : source) (env_vars : gmap str str)
    (fields : list Field) (data : gmap str json) : result (gmap str json) :=
  match fields with
  | [] => Ok data
  | f :: fields' =>
      match prepare_field_value f (env_vars !! field_name f) with
      | None => Raise (SettingsError f src)
      | Some None => source_call src env_vars fields' data
      | Some (Some field_value) =>
          source_call src env_vars fields' (<[field_name f := field_value]> data)
      end
  end.

(** Whether an entry of the override file belongs to a field: its key is
    the field's name or, for a complex field, starts with it. *)
Definition env_used (env_name : str) : bool :=
  existsb (fun f =>
      str_eqb env_name (field_name f)
      || (field_is_complex f && bool_decide (is_Some (strip_prefix (field_name f) env_name))))
    model_fields.

(** [DotEnvSettingsSource.__call__]: after the fields, every other
    non-empty entry of the file is carried along (the policy is not
    [forbid]), to be dealt with by validation. *)
Definition dotenv_extras (env_vars : gmap str str) (data : gmap str json)
  : gmap str json :=
  map_fold (fun env_name env_value acc =>
      if bool_decide (env_value = []) || bool_decide (is_Some (data !! env_name))
      then acc
      else if env_used env_name then acc
      else <[env_name := JStr env_value]> acc)
    data env_vars.

(** [deep_update(mapping, updating)] on two values: two [dict]s are
    merged key by key, otherwise the updating value replaces the other. *)
Fixpoint deep_update_value (mapping updating : json) {struct updating} : json :=
  match mapping, updating with
  | JObj m, JObj u =>
      JObj ((fix items (u : list (str * json)) (updated : list (str * json))
               {struct u} : list (str * json) :=
               match u with
               | [] => updated
               | (k, v) :: u' =>
                   items u'
                     (dict_set k
                        (match dict_get k updated with
                         | Some old => deep_update_value old v
                         | None => v
                         end) updated)
               end) u m)
  | _, _ => updating
  end.

(** [deep_update(mapping, updating)] on two source results. *)
Definition deep_update (mapping updating : gmap str json) : gmap str json :=
  union_with (fun new old => Some (deep_update_value old new)) updating mapping.

(** The process as the provider sees it: [os.environ], and the file named
    by [env_file], if there is one, given by what python-dotenv's
    [dotenv_values] reads from it.  python-dotenv expands every
    [${NAME}] in a value of the file, from [os.environ] and from the
    earlier entries of the file, and it does so anew at every read; so
    what is read is a function of the environment at that moment, and a
    file without such references is a constant function.  The file is
    one python-dotenv can decode ([env_file_encoding] is UTF-8).  An
    entry without a value is read as [None] and then counts as absent,
    so it has no place in the map. *)
Record process : Type := {
  environ : gmap str str;
  dotenv_values : option (gmap str str -> gmap str str)
}.

(** The entries of the override file as they are read now, [None] when
    there is no such file. *)
Definition dotenv_file (p : process) : option (gmap str str) :=
  (fun values => values (environ p)) <$> dotenv_values p.

(** A file none of whose values holds a reference. *)
Definition literal (entries : gmap str str) : gmap str str -> gmap str str :=
  fun _ => entries.

(** [_settings_build_values]: the sources are called in the order of
    their priority and each result is placed under what the earlier
    sources gave.  The source of keyword arguments comes first and the
    secrets source last; both are empty here. *)
Definition _settings_build_values (p : process) : result (gmap str json) :=
  match source_call EnvSettingsSource (environ p) model_fields ∅ with
  | Raise e => Raise e
  | Ok env_state =>
      let env_vars := default ∅ (dotenv_file p) in
      match source_call DotEnvSettingsSource env_vars model_fields ∅ with
      | Raise e => Raise e
      | Ok data => Ok (deep_update (dotenv_extras env_vars data) env_state)
      end
  end.

(** Validation of one attribute against its annotation. *)
Definition validate_str (v : json) : option str :=
  match v with
  | JStr s => Some s
  | _ => None
  end.

Fixpoint validate_items (items : list json) : option (list str) :=
  match items with
  | [] => Some []
  | item :: items' =>
      match validate_str item, validate_items items' with
      | Some s, Some l => Some (s :: l)
      | _, _ => None
      end
  end.

Definition validate_list (v : json) : option (list str) :=
  match v with
  | JArr items => validate_items items
  | _ => None
  end.

Definition validate_field (f : Field) (v : json) : option value :=
  match field_annotation f with
  | Str => VStr <$> validate_str v
  | ListStr => VList <$> validate_list v
  end.

Definition str_attr (f : Field) (state : gmap str json) : option str :=
  match state !! field_name f with
  | None => match get_field f defaults with VStr s => Some s | VList _ => None end
  | Some v => validate_str v
  end.

Definition list_attr (f : Field) (state : gmap str json) : option (list str) :=
  match state !! field_name f with
  | None => match get_field f defaults with VList l => Some l | VStr _ => None end
  | Some v => validate_list v
  end.

Definition field_ok (state : gmap str json) (f : Field) : bool :=
  match state !! field_name f with
  | None => true
  | Some v => bool_decide (is_Some (validate_field f v))
  end.

(** Validation of the collected values: a field without a value takes
    its default, a field with a value must have the annotated type, and
    with [extra="ignore"] a key that names no field is dropped.  All
    failing fields are reported together. *)
Definition model_validate (state : gmap str json) : result Settings :=
  match str_attr F_REDDIT_CLIENT_ID state,
        str_attr F_REDDIT_CLIENT_SECRET state,
        str_attr F_REDDIT_USER_AGENT state,
        list_attr F_DEFAULT_SUBREDDITS state,
        list_attr F_DEFAULT_KEYWORDS state,
        str_attr F_DATABASE_PATH state,
        str_attr F_OUTPUT_DIR state with
  | Some a, Some b, Some c, Some d, Some e, Some f, Some g =>
      Ok {| REDDIT_CLIENT_ID := a; REDDIT_CLIENT_SECRET := b;
            REDDIT_USER_AGENT := c; DEFAULT_SUBREDDITS := d;
            DEFAULT_KEYWORDS := e; DATABASE_PATH := f; OUTPUT_DIR := g |}
  | _, _, _, _, _, _, _ =>
      Raise (ValidationError (List.filter (fun f => negb (field_ok state f)) model_fields))
  end.

(** [Settings()] *)
Definition Settings_init (p : process) : result Settings :=
  match _settings_build_values p with
  | Raise e => Raise e
  | Ok state => model_validate state
  end.

(** [get_settings()]: a call in process [p] gives its result and leaves
    the process as it found it. *)
Definition get_settings (p : process) : result Settings * process :=
  (Settings_init p, p).

(** [os.environ[k] = v] (what [monkeypatch.setenv] does in the tests).
    The override file stays as it is on disk; what the next read finds
    in it is taken in the changed environment. *)
Definition setenv (k v : str) (p : process) : process :=
  {| environ := <[k := v]> (environ p); dotenv_values := dotenv_values p |}.

End Config.

(** ** [src/utils/logger.py]

    [setup_logger(name, level)] and the module-level default logger,
    with the part of [logging] and of rich's [RichHandler] that the
    factory and a later log call run. *)

Module Logging.

#[local] Open Scope Z_scope.

(** The levels of the [logging] module. *)
Definition CRITICAL : Z := 50.
Definition ERROR : Z := 40.
Definition WARNING : Z := 30.
Definition INFO : Z := 20.
Definition DEBUG : Z := 10.
Definition NOTSET : Z := 0.

(** [logging.getLevelName(level)] for an integer level. *)
Definition getLevelName (level : Z) : str :=
  if level =? CRITICAL then py "CRITICAL"
  else if level =? ERROR then py "ERROR"
  else if level =? WARNING then py "WARNING"
  else if level =? INFO then py "INFO"
  else if level =? DEBUG then py "DEBUG"
  else if level =? NOTSET then py "NOTSET"
  else py "Level " ++ str_of_Z level.

(** The local time of a record, [datetime.fromtimestamp(record.created)]. *)
Record datetime : Type := {
  year : N; month : N; day : N;
  hour : N; minute : N; second : N
}.

Definition two_digits (n : N) : str := [(48 + (n / 10) mod 10)%N; (48 + n mod 10)%N].

Definition four_digits (n : N) : str := two_digits (n / 100) ++ two_digits n.

(** [t.strftime(format)] in the C locale, for the directives of the
    time formats in use: [%X] is [%H:%M:%S] and [%x] is [%m/%d/%y]. *)
Fixpoint strftime (format : str) (t : datetime) : str :=
  match format with
  | [] => []
  | c :: rest =>
      if (c =? ch "%")%N then
        match rest with
        | [] => [c]
        | d :: rest' =>
            (if (d =? ch "X")%N then
               two_digits (hour t) ++ py ":" ++ two_digits (minute t) ++ py ":"
               ++ two_digits (second t)
             else if (d =? ch "x")%N then
               two_digits (month t) ++ py "/" ++ two_digits (day t) ++ py "/"
               ++ two_digits (year t)
             else if (d =? ch "H")%N then two_digits (hour t)
             else if (d =? ch "M")%N then two_digits (minute t)
             else if (d =? ch "S")%N then two_digits (second t)
             else if (d =? ch "m")%N then two_digits (month t)
             else if (d =? ch "d")%N then two_digits (day t)
             else if (d =? ch "y")%N then two_digits (year t)
             else if (d =? ch "Y")%N then four_digits (year t)
             else if (d =? ch "%")%N then [d]
             else [c; d])
            ++ strftime rest' t
        end
      else c :: strftime rest t
  end.

(** A log record made by a log call without [exc_info], [stack_info]
    and [extra]: its level, the text [record.getMessage()] gives (the
    message with its arguments already merged in), the time it was
    created, and the file name and line of the call.  A call whose
    arguments do not fit its message has no such text ([getMessage]
    raises) and no record here. *)
Record LogRecord : Type := {
  levelno : Z;
  message : str;
  created : datetime;
  filename : str;
  lineno : Z
}.

(** [logging.Formatter(fmt, datefmt)] *)
Record Formatter : Type := {
  fmt : str;
  datefmt : option str
}.

(** [Formatter.formatMessage]: [fmt % record.__dict__] for the keys
    [message] and [levelname]. *)
Fixpoint formatMessage (n : nat) (fmt : str) (record : LogRecord) : str :=
  match n with
  | O => []
  | S n' =>
      match strip_prefix (py "%(message)s") fmt with
      | Some rest => message record ++ formatMessage n' rest record
      | None =>
      match strip_prefix (py "%(levelname)s") fmt with
      | Some rest => getLevelName (levelno record) ++ formatMessage n' rest record
      | None =>
      match strip_prefix (py "%%") fmt with
      | Some rest => ch "%" :: formatMessage n' rest record
      | None =>
      match fmt with
      | [] => []
      | c :: rest => c :: formatMessage n' rest record
      end end end end
  end.

(** What the console is asked to print for the message column:
    [from_markup s] is the text [Text.from_markup(s)] returns, [plain s]
    the text [Text(s)]. *)
Inductive Text : Type :=
| from_markup (s : str)
| plain (s : str).

(** The end of code that may come to parse console markup.
    [Returns a]: it ran to its end, with result [a].  [ParsesTags]: it
    came to read a message with an opening bracket as console markup.
    rich then parses the message for tags and either returns a styled
    text, and the code goes on, or raises [MarkupError] at a closing tag
    that matches no open tag; the exception leaves [emit] and the log
    call before anything is printed.  Which of the two happens is
    decided by rich's grammar of tags and styles, which is not embedded:
    the embedding stops at [ParsesTags]. *)
Inductive outcome (A : Type) : Type :=
| Returns (a : A)
| ParsesTags.
Arguments Returns {A} a.
Arguments ParsesTags {A}.

(** One printed log entry: the cells of the single row of the grid that
    [LogRender] builds, a column that is not shown being [None]. *)
Record row : Type := {
  time_cell : option str;
  level_cell : option str;
  message_cell : Text;
  path_cell : option str
}.

(** A [RichHandler]: the arguments of its constructor, its formatter,
    the time text of the last entry it printed ([LogRender._last_time])
    and the entries it has given its console to print so far. *)
Record RichHandler : Type := {
  handler_level : Z;
  show_time : bool;
  omit_repeated_times : bool;
  show_level : bool;
  show_path : bool;
  markup : bool;
  rich_tracebacks : bool;
  log_time_format : str;
  formatter : option Formatter;
  _last_time : option str;
  console : list row
}.

(** [RichHandler(rich_tracebacks=.., markup=.., show_time=..,
    show_path=..)]: the other parameters keep the defaults of the
    constructor's signature. *)
Definition RichHandler_init (rich_tracebacks markup show_time show_path : bool)
  : RichHandler := {|
  handler_level := NOTSET;
  show_time := show_time;
  omit_repeated_times := true;
  show_level := true;
  show_path := show_path;
  markup := markup;
  rich_tracebacks := rich_tracebacks;
  log_time_format := py "[%x %X]";
  formatter := None;
  _last_time := None;
  console := []
|}.

Definition setFormatter (h : RichHandler) (f : Formatter) : RichHandler := {|
  handler_level := handler_level h;
  show_time := show_time h;
  omit_repeated_times := omit_repeated_times h;
  show_level := show_level h;
  show_path := show_path h;
  markup := markup h;
  rich_tracebacks := rich_tracebacks h;
  log_time_format := log_time_format h;
  formatter := Some f;
  _last_time := _last_time h;
  console := console h
|}.

(** [Handler.format]: with no formatter the default one, whose format is
    [%(message)s]. *)
Definition format (h : RichHandler) (record : LogRecord) : str :=
  let f := match formatter h with Some f => fmt f | None => py "%(message)s" end in
  formatMessage (S (length f)) f record.

(** [RichHandler.get_level_text] *)
Definition get_level_text (record : LogRecord) : str :=
  ljust 8 (getLevelName (levelno record)).

(** [Text.from_markup(markup)], that is [rich.markup.render]: markup
    without an opening bracket is returned as text at once (its emoji
    codes replaced); any other markup is parsed for tags. *)
Definition Text_from_markup (markup : str) : outcome Text :=
  if existsb (N.eqb (ch "[")) markup then ParsesTags
  else Returns (from_markup markup).

(** [RichHandler.render_message] *)
Definition render_message (h : RichHandler) (message : str) : outcome Text :=
  if markup h then Text_from_markup message else Returns (plain message).

(** The text of the time column for [record]. *)
Definition log_time_display (h : RichHandler) (record : LogRecord) : str :=
  let time_format :=
    match formatter h with
    | Some f => match datefmt f with Some d => d | None => log_time_format h end
    | None => log_time_format h
    end in
  strftime time_format (created record).

(** [RichHandler.render], which calls [LogRender]: the row for the
    record, and the time text [LogRender] remembers afterwards.  A time
    text equal to that of the entry before is replaced by as many
    spaces. *)
Definition render (h : RichHandler) (record : LogRecord) (message_renderable : Text)
  : row * option str :=
  let display := log_time_display h record in
  let repeated :=
    bool_decide (_last_time h = Some display) && omit_repeated_times h in
  ({| time_cell :=
        if show_time h
        then Some (if repeated then repeat (ch " ") (length display) else display)
        else None;
      level_cell := if show_level h then Some (get_level_text record) else None;
      message_cell := message_renderable;
      path_cell :=
        if show_path h && negb (bool_decide (filename record = []))
        then Some (filename record ++
                   if lineno record =? 0 then []
                   else py ":" ++ str_of_Z (lineno record))
        else None |},
   if show_time h then (if repeated then _last_time h else Some display)
   else _last_time h).

(** The end of [emit], once the message is rendered: the row is built
    and [console.print] prints it. *)
Definition console_print (h : RichHandler) (record : LogRecord)
    (message_renderable : Text) : RichHandler :=
  let log_renderable := render h record message_renderable in
  {|
    handler_level := handler_level h;
    show_time := show_time h;
    omit_repeated_times := omit_repeated_times h;
    show_level := show_level h;
    show_path := show_path h;
    markup := markup h;
    rich_tracebacks := rich_tracebacks h;
    log_time_format := log_time_format h;
    formatter := formatter h;
    _last_time := snd log_renderable;
    console := console h ++ [fst log_renderable]
  |}.

(** [RichHandler.emit]: format the record, render the message, print
    one entry.  The message is rendered before anything is printed and
    outside the [try] around [console.print]. *)
Definition emit (h : RichHandler) (record : LogRecord) : outcome RichHandler :=
  match render_message h (format h record) with
  | ParsesTags => ParsesTags
  | Returns message_renderable => Returns (console_print h record message_renderable)
  end.

(** A [logging.Logger]: the attributes the factory and a log call touch.
    The [parent] of a logger is kept beside it in the registry. *)
Record Logger : Type := {
  level : Z;
  handlers : list RichHandler;
  disabled : bool;
  propagate : bool
}.

(** [Logger(name)]: what [Logger.__init__] sets. *)
Definition Logger_init : Logger :=
  {| level := NOTSET; handlers := []; disabled := false; propagate := true |}.

(** A logger object, identified by where the registry keeps it. *)
Inductive handle : Type :=
| RootLogger
| Named (name : str).

#[global] Instance handle_eq_dec : EqDecision handle.
Proof. solve_decision. Defined.

(** [logger.name] *)
Definition logger_name (h : handle) : str :=
  match h with
  | RootLogger => py "root"
  | Named name => name
  end.

(** What [loggerDict] holds under a name: a logger, given with its
    [parent], or a [PlaceHolder] with the loggers below it (the keys of
    its [loggerMap], by name). *)
Inductive entry : Type :=
| Registered (lg : Logger) (parent : handle)
| PlaceHolder (loggerMap : list str).

(** The state of the [logging] module: the root logger, the registry
    [Logger.manager.loggerDict], the level set by [logging.disable], and
    the lines the handler of last resort has written to [sys.stderr]. *)
Record logging : Type := {
  root : Logger;
  loggerDict : gmap str entry;
  disable : Z;
  stderr : list str
}.

(** The state of a fresh interpreter. *)
Definition fresh : logging := {|
  root := {| level := WARNING; handlers := []; disabled := false; propagate := true |};
  loggerDict := ∅;
  disable := 0;
  stderr := []
|}.

Definition logger_at (h : handle) (st : logging) : option Logger :=
  match h with
  | RootLogger => Some (root st)
  | Named name =>
      match loggerDict st !! name with
      | Some (Registered lg _) => Some lg
      | _ => None
      end
  end.

(** [logger.parent]: [None] for the root logger. *)
Definition parent_of (h : handle) (st : logging) : option handle :=
  match h with
  | RootLogger => None
  | Named name =>
      match loggerDict st !! name with
      | Some (Registered _ parent) => Some parent
      | _ => None
      end
  end.

(** Assignment to attributes of a logger object; its parent stays. *)
Definition set_logger (h : handle) (lg : Logger) (st : logging) : logging :=
  match h with
  | RootLogger =>
      {| root := lg; loggerDict := loggerDict st; disable := disable st;
         stderr := stderr st |}
  | Named name =>
      match loggerDict st !! name with
      | Some (Registered _ parent) =>
          {| root := root st;
             loggerDict := <[name := Registered lg parent]> (loggerDict st);
             disable := disable st; stderr := stderr st |}
      | _ => st
      end
  end.

(** Code that acts on the state of the [logging] module. *)
Definition M (A : Type) : Type := logging -> A * logging.

#[global] Instance M_ret : MRet M := fun A a st => (a, st).
#[global] Instance M_bind : MBind M :=
  fun A B f m st => let '(a, st') := m st in f a st'.

(** [s.rfind(c)]: the highest index at which [c] occurs in [s]. *)
Fixpoint rfind (c : N) (s : str) : option nat :=
  match s with
  | [] => None
  | x :: s' =>
      match rfind c s' with
      | Some i => Some (S i)
      | None => if (x =? c)%N then Some 0%nat else None
      end
  end.

(** The loop of [Manager._fixupParents] for the logger of the given
    name: from the last dot of the name backwards, each prefix that ends
    before a dot gets a [PlaceHolder] or, if it has one, the logger
    added to it, until a prefix is found that is a logger ([rv]).  [i]
    is the index of the dot at hand; the loop runs while [i > 0]. *)
Fixpoint _fixupParents_loop (n : nat) (name : str) (i : option nat)
    (loggerDict : gmap str entry) : gmap str entry * option str :=
  match n, i with
  | S n', Some (S i') =>
      let substr := take (S i') name in
      match loggerDict !! substr with
      | None =>
          _fixupParents_loop n' name (rfind (ch ".") (take i' name))
            (<[substr := PlaceHolder [name]]> loggerDict)
      | Some (Registered _ _) => (loggerDict, Some substr)
      | Some (PlaceHolder loggerMap) =>
          _fixupParents_loop n' name (rfind (ch ".") (take i' name))
            (<[substr := PlaceHolder (if bool_decide (name ∈ loggerMap) then loggerMap
                                      else loggerMap ++ [name])]> loggerDict)
      end
  | _, _ => (loggerDict, None)
  end.

(** [loggerDict[name] = alogger] and [Manager._fixupParents(alogger)]:
    the parent is the logger the loop found, else the root logger. *)
Definition _fixupParents (name : str) (alogger : Logger) (loggerDict : gmap str entry)
  : gmap str entry :=
  let found := _fixupParents_loop (length name) name (rfind (ch ".") name) loggerDict in
  <[name := Registered alogger
              match snd found with
              | Some substr => Named substr
              | None => RootLogger
              end]> (fst found).

(** [Manager._fixupChildren(ph, alogger)]: each logger below the
    placeholder whose parent's name does not begin with the new name
    gets the new logger as its parent.  (The new logger's own parent,
    which the loop also assigns, is set again by [_fixupParents].) *)
Definition _fixupChildren (name : str) (loggerMap : list str)
    (loggerDict : gmap str entry) : gmap str entry :=
  fold_left
    (fun d c =>
       match d !! c with
       | Some (Registered lg parent) =>
           if bool_decide (take (length name) (logger_name parent) = name) then d
           else <[c := Registered lg (Named name)]> d
       | _ => d
       end)
    loggerMap loggerDict.

(** [logging.getLogger(name)]: the root logger for an empty name and for
    the root's own name, otherwise [Manager.getLogger(name)]: the
    registered logger of that name, created on first use with level
    [NOTSET] and no handlers and put in its place in the hierarchy. *)
Definition getLogger (name : str) : M handle :=
  fun st =>
    if bool_decide (name = []) || bool_decide (name = py "root") then (RootLogger, st)
    else
      match loggerDict st !! name with
      | Some (Registered _ _) => (Named name, st)
      | Some (PlaceHolder loggerMap) =>
          (Named name,
           {| root := root st;
              loggerDict :=
                _fixupParents name Logger_init
                  (_fixupChildren name loggerMap (loggerDict st));
              disable := disable st; stderr := stderr st |})
      | None =>
          (Named name,
           {| root := root st;
              loggerDict := _fixupParents name Logger_init (loggerDict st);
              disable := disable st; stderr := stderr st |})
      end.

(** [logger.setLevel(level)].  It also empties the cache in which every
    logger keeps the answers of [isEnabledFor]; as a new logger has
    level [NOTSET] and so changes no effective level, a cached answer
    is always the answer [isEnabledFor] would compute, and the cache is
    left out. *)
Definition setLevel (logger : handle) (lvl : Z) : M unit :=
  fun st =>
    match logger_at logger st with
    | Some lg =>
        (tt, set_logger logger
               {| level := lvl; handlers := handlers lg; disabled := disabled lg;
                  propagate := propagate lg |} st)
    | None => (tt, st)
    end.

(** [logger.handlers] *)
Definition get_handlers (logger : handle) : M (list RichHandler) :=
  fun st =>
    match logger_at logger st with
    | Some lg => (handlers lg, st)
    | None => ([], st)
    end.

(** [logger.addHandler(hdlr)] for a handler object that was just made,
    and so is not in the list yet: it is appended. *)
Definition addHandler (logger : handle) (hdlr : RichHandler) : M unit :=
  fun st =>
    match logger_at logger st with
    | Some lg =>
        (tt, set_logger logger
               {| level := level lg; handlers := handlers lg ++ [hdlr];
                  disabled := disabled lg; propagate := propagate lg |} st)
    | None => (tt, st)
    end.

(** [setup_logger(name, level)] *)
Definition setup_logger (name : str) (level : Z) : M handle :=
  logger ← getLogger name;
  _ ← setLevel logger level;
  hs ← get_handlers logger;
  match hs with
  | _ :: _ => mret logger
  | [] =>
      let handler :=
        RichHandler_init (* rich_tracebacks *) true (* markup *) true
                         (* show_time *) true (* show_path *) false in
      let formatter := {| fmt := py "%(message)s"; datefmt := Some (py "[%X]") |} in
      let handler := setFormatter handler formatter in
      _ ← addHandler logger handler;
      mret logger
  end.

(** The defaults of the two parameters. *)
Definition default_name : str := py "redditsearch".
Definition default_level : Z := INFO.

(** The module-level [logger = setup_logger()], run when the module is
    first imported. *)
Definition module_logger : handle * logging :=
  setup_logger default_name default_level fresh.

(** A bound on the number of loggers from a logger up to the root: the
    name of a parent is shorter than the name of its child. *)
Definition height (h : handle) : nat :=
  match h with
  | RootLogger => 1
  | Named name => S (length name)
  end.

(** [Logger.getEffectiveLevel]: the first level other than [NOTSET] on
    the way from the logger up to the root, [NOTSET] if there is none. *)
Fixpoint getEffectiveLevel_loop (n : nat) (logger : option handle) (st : logging) : Z :=
  match n, logger with
  | S n', Some c =>
      match logger_at c st with
      | Some lg =>
          if level lg =? NOTSET then getEffectiveLevel_loop n' (parent_of c st) st
          else level lg
      | None => NOTSET
      end
  | _, _ => NOTSET
  end.

Definition getEffectiveLevel (logger : handle) (st : logging) : Z :=
  getEffectiveLevel_loop (height logger) (Some logger) st.

(** [Logger.isEnabledFor(level)] *)
Definition isEnabledFor (logger : handle) (lvl : Z) (st : logging) : bool :=
  match logger_at logger st with
  | Some lg =>
      if disabled lg then false
      else if disable st >=? lvl then false
      else lvl >=? getEffectiveLevel logger st
  | None => false
  end.

(** The loop over [c.handlers] in [callHandlers]: each handler whose
    level the record reaches handles it ([Handler.handle], which with
    no filter is [emit]). *)
Fixpoint handlers_handle (hs : list RichHandler) (record : LogRecord)
  : outcome (list RichHandler) :=
  match hs with
  | [] => Returns []
  | hdlr :: hs' =>
      match (if levelno record >=? handler_level hdlr then emit hdlr record
             else Returns hdlr) with
      | ParsesTags => ParsesTags
      | Returns hdlr' =>
          match handlers_handle hs' record with
          | ParsesTags => ParsesTags
          | Returns hs'' => Returns (hdlr' :: hs'')
          end
      end
  end.

(** The loop of [Logger.callHandlers]: the handlers of the logger, then
    those of its parent, and so on while [propagate] is set; [found]
    counts the handlers met. *)
Fixpoint callHandlers_loop (n : nat) (c : option handle) (found : nat)
    (record : LogRecord) (st : logging) : outcome (nat * logging) :=
  match n, c with
  | S n', Some c =>
      match logger_at c st with
      | None => Returns (found, st)
      | Some lg =>
          match handlers_handle (handlers lg) record with
          | ParsesTags => ParsesTags
          | Returns hs =>
              callHandlers_loop n'
                (if propagate lg then parent_of c st else None)
                (found + length (handlers lg)) record
                (set_logger c
                   {| level := level lg; handlers := hs; disabled := disabled lg;
                      propagate := propagate lg |} st)
          end
      end
  | _, _ => Returns (found, st)
  end.

(** [Logger.callHandlers]: when no handler was met, the handler of last
    resort writes the message of a record at [WARNING] or above to
    [sys.stderr]. *)
Definition callHandlers (logger : handle) (record : LogRecord) (st : logging)
  : outcome logging :=
  match callHandlers_loop (height logger) (Some logger) 0 record st with
  | ParsesTags => ParsesTags
  | Returns (found, st') =>
      if bool_decide (found = 0%nat) && (levelno record >=? WARNING)
      then Returns {| root := root st'; loggerDict := loggerDict st';
                      disable := disable st';
                      stderr := stderr st' ++ [message record] |}
      else Returns st'
  end.

(** [Logger.handle(record)] *)
Definition Logger_handle (logger : handle) (record : LogRecord) (st : logging)
  : outcome logging :=
  match logger_at logger st with
  | Some lg => if disabled lg then Returns st else callHandlers logger record st
  | None => Returns st
  end.

(** [logger.log(level, msg, *args)], and so [logger.info(msg, *args)]
    and the like: the record is made and handled if the logger is
    enabled for its level. *)
Definition log (logger : handle) (record : LogRecord) (st : logging)
  : outcome logging :=
  if isEnabledFor logger (levelno record) st then Logger_handle logger record st
  else Returns st.

End Logging.

(** ** Vocabulary of the statements about the settings provider *)

Module ConfigSpec.
Import Json Config.

(** The variables a source reads. *)
Definition vars_of (src : source) (p : process) : gmap str str :=
  match src with
  | EnvSettingsSource => environ p
  | DotEnvSettingsSource => default ∅ (dotenv_file p)
  end.

(** The text under the name of [f] cannot be decoded. *)
Definition undecodable (vars : gmap str str) (f : Field) : Prop :=
  prepare_field_value f (vars !! field_name f) = None.

(** The value a source holds for [f], if it holds one. *)
Definition found (vars : gmap str str) (f : Field) : option json :=
  match prepare_field_value f (vars !! field_name f) with
  | Some (Some j) => Some j
  | _ => None
  end.

(** The value that goes to validation for [f]: the environment's if it
    holds one, else the override file's. *)
Definition selected (p : process) (f : Field) : option json :=
  match found (environ p) f with
  | Some j => Some j
  | None => found (default ∅ (dotenv_file p)) f
  end.

(** The selected value of [f] does not have the annotated type. *)
Definition ill_typed (p : process) (f : Field) : Prop :=
  exists j, selected p f = Some j /\ validate_field f j = None.

(** Resolution by precedence: environment, then override file, then the
    default of the class body. *)
Definition resolve (p : process) (f : Field) : option value :=
  match selected p f with
  | Some j => validate_field f j
  | None => Some (get_field f defaults)
  end.

(** The value validation sees for a field. *)
Definition attr (f : Field) (state : gmap str json) : option value :=
  match state !! field_name f with
  | None => Some (get_field f defaults)
  | Some v => validate_field f v
  end.

(** The typed value that the text [v] stands for as a value of [f]: the
    text itself for a [str], the decoded array of strings for a
    [List[str]]. *)
Definition coerce (f : Field) (v : str) : option value :=
  match prepare_field_value f (Some v) with
  | Some (Some j) => validate_field f j
  | _ => None
  end.

(** A field that an error names as the one at fault really is. *)
Definition names_offending (p : process) (e : error) : Prop :=
  match e with
  | SettingsError f src => undecodable (vars_of src p) f
  | ValidationError fields =>
      fields <> [] /\ forall f, f ∈ fields <-> ill_typed p f
  end.

(** A JSON array literal holding the given strings, as [json.dumps]
    writes it when no character needs an escape. *)
Definition quoted (s : str) : str := DQUOTE :: s ++ [DQUOTE].

Fixpoint join_quoted (l : list str) : str :=
  match l with
  | [] => []
  | [s] => quoted s
  | s :: l' => quoted s ++ py ", " ++ join_quoted l'
  end.

Definition encode_list (l : list str) : str :=
  ch "[" :: join_quoted l ++ [ch "]"].

(** A string that needs no escape: no quote, no backslash, no control
    character. *)
Definition simple_char (c : N) : Prop := 32 <= c /\ c <> DQUOTE /\ c <> BSLASH.
Definition simple (s : str) : Prop := Forall simple_char s.

End ConfigSpec.

(** ** Vocabulary of the statements about the logger factory *)

Module LoggingSpec.
Import Logging.

#[local] Open Scope Z_scope.

(** The logger object that [getLogger(name)] returns. *)
Definition handle_of (name : str) : handle :=
  if bool_decide (name = []) || bool_decide (name = py "root")
  then RootLogger else Named name.

(** A handler with the settings the factory gives it; what it has
    printed so far is left open. *)
Definition configured (h : RichHandler) : Prop :=
  handler_level h = NOTSET /\ show_time h = true /\ omit_repeated_times h = true
  /\ show_level h = true /\ show_path h = false /\ markup h = true
  /\ formatter h = Some {| fmt := py "%(message)s"; datefmt := Some (py "[%X]") |}.

(** The states the program can bring about: the import of the module,
    which runs the factory once with its defaults, then calls of the
    factory and log calls in any order.  A log call that comes to parse
    tags has two ends: rich raises, and the state is as it was, or rich
    returns a text and handlers print an entry with it, one handler at
    a time ([reach_tags]). *)
Inductive reachable : logging -> Prop :=
| reach_import : reachable (snd module_logger)
| reach_setup (st : logging) (name : str) (lvl : Z) :
    reachable st -> reachable (snd (setup_logger name lvl st))
| reach_log (st st' : logging) (logger : handle) (record : LogRecord) :
    reachable st -> log logger record st = Returns st' -> reachable st'
| reach_tags (st : logging) (logger : handle) (lg : Logger) (hd : RichHandler)
    (record : LogRecord) (styled : Text) :
    reachable st -> logger_at logger st = Some lg -> handlers lg = [hd] ->
    reachable (set_logger logger
                 {| level := level lg; handlers := [console_print hd record styled];
                    disabled := disabled lg; propagate := propagate lg |} st).

(** What holds in every such state: logging is not disabled, every
    logger passes its records on, and has no handler or the one the
    factory gave it. *)
Definition invariant (st : logging) : Prop :=
  disable st = 0 /\ forall h lg, logger_at h st = Some lg ->
    disabled lg = false /\ propagate lg = true
    /\ (handlers lg = [] \/ exists hd, handlers lg = [hd] /\ configured hd).

(** The shape of the registry: the parent of a logger has a shorter
    name (the root counting as the shortest), and a placeholder stands
    above the loggers it lists. *)
Definition hierarchy (d : gmap str entry) : Prop :=
  (forall name lg parent, d !! name = Some (Registered lg parent) ->
                          (height parent <= length name)%nat) /\
  (forall name loggerMap c, d !! name = Some (PlaceHolder loggerMap) ->
                            c ∈ loggerMap -> (length name < length c)%nat).

(** The logger and the loggers above it, in the order in which
    [callHandlers] visits them. *)
Fixpoint lineage_loop (n : nat) (c : option handle) (st : logging) : list handle :=
  match n, c with
  | S n', Some c =>
      match logger_at c st with
      | None => []
      | Some lg => c :: lineage_loop n' (if propagate lg then parent_of c st else None) st
      end
  | _, _ => []
  end.

Definition lineage (logger : handle) (st : logging) : list handle :=
  lineage_loop (height logger) (Some logger) st.

(** Two handlers with the same settings: they differ at most in what
    they have printed.  Two loggers that differ at most in what their
    handlers have printed. *)
Definition same_settings (h h' : RichHandler) : Prop :=
  handler_level h' = handler_level h /\ show_time h' = show_time h
  /\ omit_repeated_times h' = omit_repeated_times h /\ show_level h' = show_level h
  /\ show_path h' = show_path h /\ markup h' = markup h
  /\ formatter h' = formatter h.

Definition same_logger (lg lg' : Logger) : Prop :=
  level lg' = level lg /\ disabled lg' = disabled lg /\ propagate lg' = propagate lg
  /\ Forall2 same_settings (handlers lg) (handlers lg').

(** Two states that differ at most in what has been printed, by the
    handlers and on [sys.stderr]. *)
Definition output_only (st st' : logging) : Prop :=
  disable st' = disable st /\
  same_logger (root st) (root st') /\
  forall name,
    match loggerDict st !! name, loggerDict st' !! name with
    | Some (Registered lg p), Some (Registered lg' p') => p' = p /\ same_logger lg lg'
    | Some (PlaceHolder cs), Some (PlaceHolder cs') => cs' = cs
    | None, None => True
    | _, _ => False
    end.

(** A logger after each of its handlers has printed the entry of a
    record whose message has no markup to parse. *)
Definition printed_on (record : LogRecord) (lg : Logger) : Logger := {|
  level := level lg;
  handlers := map (fun hd => console_print hd record (from_markup (message record)))
                  (handlers lg);
  disabled := disabled lg;
  propagate := propagate lg
|}.

(** A message without an opening bracket: no console markup to parse. *)
Definition tag_free (record : LogRecord) : bool :=
  negb (existsb (N.eqb (ch "[")) (message record)).

(** The handlers attached to a logger, and its level. *)
Definition sinks (st : logging) (logger : handle) : list RichHandler :=
  match logger_at logger st with
  | Some lg => handlers lg
  | None => []
  end.


(** Everything the handlers of a logger have printed. *)
Definition printed (st : logging) (logger : handle) : list row :=
  concat (map console (sinks st logger)).

(** The logger accepts the record: [isEnabledFor] holds for its level. *)
Definition accepts (st : logging) (logger : handle) (record : LogRecord) : bool :=
  isEnabledFor logger (levelno record) st.

(** The time of day between brackets. *)
Definition clock_text (t : datetime) : str :=
  py "[" ++ two_digits (hour t) ++ py ":" ++ two_digits (minute t) ++ py ":"
  ++ two_digits (second t) ++ py "]".

(** The entry the factory's handler [hd] prints for a record. *)
Definition printed_row (hd : RichHandler) (record : LogRecord) : row := {|
  time_cell :=
    Some (if bool_decide (_last_time hd = Some (clock_text (created record)))
          then repeat (ch " ") (length (clock_text (created record)))
          else clock_text (created record));
  level_cell := Some (ljust 8 (getLevelName (levelno record)));
  message_cell := from_markup (message record);
  path_cell := None
|}.



(** A record at level [INFO], made at 09:05:00. *)
Definition hello : LogRecord := {|
  levelno := INFO;
  message := py "hello";
  created := {| year := 2025; month := 1; day := 2;
                hour := 9; minute := 5; second := 0 |};
  filename := py "main.py";
  lineno := 12
|}.



End LoggingSpec.

(** ** Concrete processes used as instances *)

Module Examples.
Import Json Config ConfigSpec.

(** A process with unrelated variables only and no override file. *)
Definition p_plain : process := {|
  environ := {[ py "HOME" := py "/root"; py "reddit_client_id" := py "lower" ]};
  dotenv_values := None
|}.

(** [DEFAULT_SUBREDDITS=foo] in the environment. *)
Definition p_foo : process := {|
  environ := {[ py "DEFAULT_SUBREDDITS" := py "foo" ]};
  dotenv_values := None
|}.

(** [DEFAULT_SUBREDDITS=null] in the environment, no override file. *)
Definition p_null : process := {|
  environ := {[ py "DEFAULT_SUBREDDITS" := py "null" ]};
  dotenv_values := None
|}.

(** [DEFAULT_SUBREDDITS=null] in the environment and a list for the same
    key in the override file. *)
Definition p_null_file : process := {|
  environ := {[ py "DEFAULT_SUBREDDITS" := py "null" ]};
  dotenv_values := Some (literal {[ py "DEFAULT_SUBREDDITS" := encode_list [py "x"] ]})
|}.

(** The environment of the end-to-end test, with an override file that
    sets two of the same keys and one more. *)
Definition p_both : process := {|
  environ := {[ py "DATABASE_PATH" := py "custom/path/db.sqlite";
                py "REDDIT_CLIENT_ID" := py "abc";
                py "DEFAULT_KEYWORDS" := encode_list [py "pay"] ]};
  dotenv_values := Some (literal {[ py "DATABASE_PATH" := py "file.db";
                         py "DEFAULT_KEYWORDS" := encode_list [py "file"];
                         py "OUTPUT_DIR" := py "out" ]})
|}.

(** The environment that [test_settings_with_env_override] sets up. *)
Definition p_test_override : process := {|
  environ := {[ py "REDDIT_CLIENT_ID" := py "test_client_id";
                py "REDDIT_CLIENT_SECRET" := py "test_secret";
                py "DATABASE_PATH" := py "custom/path/db.sqlite" ]};
  dotenv_values := None
|}.

(** A number where a list of strings is expected. *)
Definition p_ill_typed : process := {|
  environ := {[ py "DEFAULT_KEYWORDS" := py "[1]" ]};
  dotenv_values := None
|}.

(** [p_both] with one more variable in the environment and two more
    entries in the override file, none under a recognised name. *)
Definition p_both_more : process := {|
  environ := environ p_both;
  dotenv_values :=
    Some (literal {[ py "DATABASE_PATH" := py "file.db";
                     py "DEFAULT_KEYWORDS" := encode_list [py "file"];
                     py "OUTPUT_DIR" := py "out";
                     py "EXTRA_KEY" := py "1";
                     py "database_path" := py "lower.db" ]})
|}.

(** An override file with the one line [DATABASE_PATH=${HOME}/db.sqlite]
    and [HOME=/root] in the environment: the reference is replaced by
    the value of [HOME], by nothing when [HOME] is not set. *)
Definition p_reference : process := {|
  environ := {[ py "HOME" := py "/root" ]};
  dotenv_values :=
    Some (fun environ =>
            {[ py "DATABASE_PATH" := default [] (environ !! py "HOME") ++ py "/db.sqlite" ]})
|}.

End Examples.

(** ** Vocabulary of the further statements *)

Module Coverage.
Import Json Config ConfigSpec Logging LoggingSpec.

(** The source cannot decode the text it holds for [f]. *)
Definition cannot_decode (vars : gmap str str) (f : Field) : bool :=
  match prepare_field_value f (vars !! field_name f) with
  | None => true
  | Some _ => false
  end.

(** The first such field in the order of the class body. *)
Definition first_undecodable (vars : gmap str str) : option Field :=
  List.find (cannot_decode vars) model_fields.

(** The text begins, after blanks, with an opening bracket. *)
Definition bracketed (v : str) : bool :=
  match skip_ws v with
  | c :: _ => c =? ch "["
  | [] => false
  end.

(** The process without its override file. *)
Definition without_file (p : process) : process :=
  {| environ := environ p; dotenv_values := None |}.

(** The override file, if there is one, reads the same in every
    environment: none of its values holds a reference. *)
Definition file_fixed (p : process) : Prop :=
  forall values, dotenv_values p = Some values ->
                 forall e e', values e = values e'.

(** [monkeypatch.setenv] for each pair in turn. *)
Definition setenv_all (updates : list (Field * str)) (p : process) : process :=
  fold_left (fun q u => setenv (field_name (fst u)) (snd u) q) updates p.

(** [json.dumps(l, ensure_ascii=False)] for a list of strings: a quote
    and a backslash take a backslash, the control characters their short
    escape or [\u00xx], every other character is written as it is. *)
Definition hexchar (d : N) : N := if d <? 10 then 48 + d else 87 + d.

Definition escape_char (c : N) : str :=
  if c =? DQUOTE then [BSLASH; DQUOTE]
  else if c =? BSLASH then [BSLASH; BSLASH]
  else if c =? 8 then [BSLASH; ch "b"]
  else if c =? 12 then [BSLASH; ch "f"]
  else if c =? 10 then [BSLASH; ch "n"]
  else if c =? 13 then [BSLASH; ch "r"]
  else if c =? 9 then [BSLASH; ch "t"]
  else if c <? 32 then
    [BSLASH; ch "u"; ch "0"; ch "0"; hexchar (c / 16); hexchar (c mod 16)]
  else [c].

Definition dumps_str (s : str) : str :=
  DQUOTE :: flat_map escape_char s ++ [DQUOTE].

Fixpoint join_dumps (l : list str) : str :=
  match l with
  | [] => []
  | [s] => dumps_str s
  | s :: l' => dumps_str s ++ py ", " ++ join_dumps l'
  end.

Definition dumps_list (l : list str) : str :=
  ch "[" :: join_dumps l ++ [ch "]"].

#[local] Open Scope Z_scope.


(** The handler the factory builds. *)
Definition factory_handler : RichHandler :=
  setFormatter (RichHandler_init true true true false)
    {| fmt := py "%(message)s"; datefmt := Some (py "[%X]") |}.

(** Log calls on one logger, one after the other. *)
Fixpoint log_all (logger : handle) (records : list LogRecord) (st : logging)
  : outcome logging :=
  match records with
  | [] => Returns st
  | r :: records' =>
      match log logger r st with
      | ParsesTags => ParsesTags
      | Returns st' => log_all logger records' st'
      end
  end.

(** A time of day, and two times that show the same on the clock. *)
Definition valid_time (t : datetime) : Prop :=
  (hour t < 24 /\ minute t < 60 /\ second t < 60)%N.

Definition same_clock (t1 t2 : datetime) : bool :=
  ((hour t1 =? hour t2) && (minute t1 =? minute t2) && (second t1 =? second t2))%N.

(** A list without brackets in the environment, and an override file
    that sets nothing the provider knows. *)
Definition p_bare : process := {|
  environ := {[ py "DEFAULT_KEYWORDS" := py "need a tool,pay for" ]};
  dotenv_values := None
|}.

Definition p_foreign_file : process := {|
  environ := {[ py "OUTPUT_DIR" := py "reports" ]};
  dotenv_values := Some (literal {[ py "PYTHONPATH" := py "src"; py "output_dir" := py "x" ]})
|}.

(** Two list settings with bare values in the environment, one of
    them also in the override file. *)
Definition p_two_bad : process := {|
  environ := {[ py "DEFAULT_KEYWORDS" := py "pay for";
                py "DEFAULT_SUBREDDITS" := py "SaaS" ]};
  dotenv_values := Some (literal {[ py "DEFAULT_SUBREDDITS" := py "startups" ]})
|}.

(** The variables of the end-to-end test with an override file without
    references. *)
Definition p_two_files : process := {|
  environ := {[ py "REDDIT_CLIENT_ID" := py "abc" ]};
  dotenv_values := Some (literal {[ py "OUTPUT_DIR" := py "out";
                                    py "DATABASE_PATH" := py "file.db" ]})
|}.

(** The three variables [test_settings_with_env_override] sets. *)
Definition test_updates : list (Field * str) :=
  [(F_REDDIT_CLIENT_ID, py "test_client_id");
   (F_REDDIT_CLIENT_SECRET, py "test_secret");
   (F_DATABASE_PATH, py "custom/path/db.sqlite")].

(** Strings with a quote, a backslash, a line feed and a control
    character in them. *)
Definition awkward : list str :=
  [py "say " ++ [DQUOTE] ++ py "hi" ++ [DQUOTE]; py "a" ++ [BSLASH; 10%N; 1%N] ++ py "b"; []].

(** Two records in the same second, one below [INFO] between them, and
    one a minute later. *)
Definition at_time (h m s : N) : datetime :=
  {| year := 2025; month := 1; day := 2; hour := h; minute := m; second := s |}.

Definition rec_of (lvl : Z) (msg : string) (t : datetime) : LogRecord :=
  {| levelno := lvl; message := py msg; created := t;
     filename := py "main.py"; lineno := 7 |}.

Definition records4 : list LogRecord :=
  [rec_of INFO "one" (at_time 9 5 0); rec_of DEBUG "hidden" (at_time 9 5 0);
   rec_of ERROR "two" (at_time 9 5 0); rec_of WARNING "three" (at_time 9 6 0)].

End Coverage.

(** ** Proofs: the JSON decoder *)

Section JsonFacts.
Import Json ConfigSpec.

Ltac break_match_hyp H :=
  repeat match type of H with
         | context [match ?x with _ => _ end] =>
             let E := fresh "E" in destruct x eqn:E
         | context [if ?x then _ else _] =>
             let E := fresh "E" in destruct x eqn:E
         end.

Lemma skip_ws_length (s : str) : (length (skip_ws s) <= length s)%nat.
Proof.
  induction s as [|c s IH]; simpl; [lia|]. destruct (is_ws c); simpl; lia.
Qed.

Lemma strip_prefix_length (p s r : str) :
  strip_prefix p s = Some r -> (length r + length p = length s)%nat.
Proof.
  revert s. induction p as [|c p IH]; intros s H; simpl in H.
  - injection H as <-. simpl. lia.
  - destruct s as [|d s]; [discriminate H|]. destruct (c =? d); [|discriminate H].
    apply IH in H. simpl. lia.
Qed.

Lemma digits_length (s ds r : str) :
  digits s = (ds, r) -> (length r <= length s)%nat.
Proof.
  revert ds r. induction s as [|c s IH]; intros ds r H; simpl in H.
  - injection H as <- <-. simpl. lia.
  - destruct (is_digit c).
    + destruct (digits s) as [ds' r'] eqn:E. injection H as <- <-.
      specialize (IH _ _ eq_refl). simpl. lia.
    + injection H as <- <-. simpl. lia.
Qed.

Lemma scanstring_length (s x r : str) :
  scanstring s = Some (x, r) -> (length r < length s)%nat.
Proof.
  remember (length s) as n eqn:Hn. revert s x r Hn.
  induction n as [n IH] using lt_wf_ind. intros s x r Hn H.
  assert (IH' : forall s' x' r', (length s' < n)%nat ->
                  scanstring s' = Some (x', r') -> (length r' < length s')%nat)
    by (intros s' x' r' Hlt; exact (IH _ Hlt s' x' r' eq_refl)).
  clear IH. subst n.
  destruct s as [|c s1]; [discriminate H|]. cbn [scanstring] in H.
  break_match_hyp H; try discriminate H; injection H as <- <-; subst;
    repeat match goal with
           | E : scanstring ?s' = Some (_, _) |- _ =>
               apply IH' in E; [|simpl; lia]
           end; simpl in *; lia.
Qed.


Lemma match_integer_length (s lit r : str) :
  match_integer s = Some (lit, r) -> (length r < length s)%nat.
Proof.
  unfold match_integer. intros H.
  assert (Hs0 : forall sign s0,
             (length s0 <= length s)%nat ->
             match s0 with
             | [] => None
             | c :: r0 =>
                 if c =? ch "0" then Some (sign ++ [c], r0)
                 else if is_digit c
                      then let '(ds, r') := digits r0 in Some (sign ++ c :: ds, r')
                      else None
             end = Some (lit, r) -> (length r < length s)%nat).
  { intros sign s0 Hle H0. destruct s0 as [|c r0]; [discriminate H0|].
    destruct (c =? ch "0"); [injection H0 as <- <-; simpl in Hle; lia|].
    destruct (is_digit c); [|discriminate H0].
    destruct (digits r0) as [ds r'] eqn:E. injection H0 as <- <-.
    apply digits_length in E. simpl in Hle. lia. }
  destruct s as [|c r0]; [discriminate H|].
  destruct (c =? ch "-").
  - apply (Hs0 [c] r0); [simpl; lia|exact H].
  - apply (Hs0 [] (c :: r0)); [simpl; lia|exact H].
Qed.

Lemma match_frac_length (s : str) : (length (snd (match_frac s)) <= length s)%nat.
Proof.
  unfold match_frac. destruct s as [|p [|d r]]; [simpl; lia|simpl; lia|].
  destruct ((p =? ch ".") && is_digit d); [|simpl; lia].
  destruct (digits r) as [ds r'] eqn:E. apply digits_length in E. simpl. lia.
Qed.

Lemma match_exp_length (s : str) : (length (snd (match_exp s)) <= length s)%nat.
Proof.
  unfold match_exp. destruct s as [|e r]; [simpl; lia|].
  destruct ((e =? ch "e") || (e =? ch "E")); [|simpl; lia].
  assert (H : forall sg r1, (length r1 <= length r)%nat ->
             (length (snd (match r1 with
                           | [] => ([], e :: r)
                           | d :: y =>
                               if is_digit d
                               then let '(ds, z) := digits y in (e :: sg ++ d :: ds, z)
                               else ([], e :: r)
                           end)) <= length (e :: r))%nat).
  { intros sg r1 Hle. destruct r1 as [|d y]; [simpl; lia|].
    destruct (is_digit d); [|simpl; lia].
    destruct (digits y) as [ds z] eqn:E. apply digits_length in E. simpl in *. lia. }
  destruct r as [|c x]; [simpl; lia|].
  destruct ((c =? ch "-") || (c =? ch "+")).
  - apply (H [c] x). simpl. lia.
  - apply (H [] (c :: x)). simpl. lia.
Qed.

Lemma match_number_length (s lit r : str) :
  match_number s = Some (lit, r) -> (length r < length s)%nat.
Proof.
  unfold match_number. intros H.
  destruct (match_integer s) as [[int r0]|] eqn:Ei; [|discriminate H].
  apply match_integer_length in Ei.
  pose proof (match_frac_length r0) as Hf. destruct (match_frac r0) as [frac r1].
  pose proof (match_exp_length r1) as He. destruct (match_exp r1) as [exp r2].
  injection H as <- <-. simpl in *. lia.
Qed.

Lemma array_loop_length (scan : str -> option (json * str)) :
  consuming scan ->
  forall n s vs r, array_loop scan n s = Some (vs, r) -> (length r < length s)%nat.
Proof.
  intros Hc. induction n as [|n IH]; intros s vs r H; cbn [array_loop] in H; [discriminate H|].
  destruct (scan s) as [[v s1]|] eqn:Hs; [|discriminate H]. apply Hc in Hs.
  pose proof (skip_ws_length s1) as Hw.
  destruct (skip_ws s1) as [|c s2] eqn:Hk; [discriminate H|].
  destruct (c =? ch "]").
  - injection H as <- <-. simpl in Hw. lia.
  - destruct (c =? ch ","); [|discriminate H].
    destruct (array_loop scan n (skip_ws s2)) as [[vs' s3]|] eqn:Hl; [|discriminate H].
    injection H as <- <-. apply IH in Hl.
    pose proof (skip_ws_length s2). simpl in Hw. lia.
Qed.

Lemma object_loop_length (scan : str -> option (json * str)) :
  consuming scan ->
  forall n s ps r, object_loop scan n s = Some (ps, r) -> (length r < length s)%nat.
Proof.
  intros Hc. induction n as [|n IH]; intros s ps r H; cbn [object_loop] in H; [discriminate H|].
  destruct (scanstring s) as [[key s1]|] eqn:Hs; [|discriminate H].
  apply scanstring_length in Hs.
  pose proof (skip_ws_length s1) as Hw1.
  destruct (skip_ws s1) as [|c s2]; [discriminate H|].
  destruct (c =? ch ":"); [|discriminate H].
  pose proof (skip_ws_length s2) as Hw2.
  destruct (scan (skip_ws s2)) as [[v s3]|] eqn:Hv; [|discriminate H]. apply Hc in Hv.
  pose proof (skip_ws_length s3) as Hw3.
  destruct (skip_ws s3) as [|d s4]; [discriminate H|].
  destruct (d =? ch "}").
  - injection H as <- <-. simpl in *. lia.
  - destruct (d =? ch ","); [|discriminate H].
    pose proof (skip_ws_length s4) as Hw4.
    destruct (skip_ws s4) as [|q s5]; [discriminate H|].
    destruct (q =? DQUOTE); [|discriminate H].
    destruct (object_loop scan n s5) as [[ps' s6]|] eqn:Hl; [|discriminate H].
    injection H as <- <-. apply IH in Hl. simpl in *. lia.
Qed.

Lemma scan_once_consuming (fuel : nat) : consuming (scan_once fuel).
Proof.
  induction fuel as [|fuel IH]; intros s v r H; [discriminate H|].
  destruct s as [|c s1]; [discriminate H|]. cbn [scan_once] in H.
  destruct (c =? DQUOTE).
  { destruct (scanstring s1) as [[x r']|] eqn:E; [|discriminate H].
    injection H as <- <-. apply scanstring_length in E. simpl. lia. }
  destruct (c =? ch "{").
  { unfold JSONObject in H. pose proof (skip_ws_length s1) as Hw.
    destruct (skip_ws s1) as [|d s2]; [discriminate H|].
    destruct (d =? ch "}"); [injection H as <- <-; simpl in *; lia|].
    destruct (d =? DQUOTE); [|discriminate H].
    destruct (object_loop _ _ s2) as [[ps r']|] eqn:E; [|discriminate H].
    injection H as <- <-. apply (object_loop_length _ IH) in E. simpl in *. lia. }
  destruct (c =? ch "[").
  { unfold JSONArray in H. pose proof (skip_ws_length s1) as Hw.
    destruct (skip_ws s1) as [|d s2] eqn:Hk; [discriminate H|].
    destruct (d =? ch "]"); [injection H as <- <-; simpl in *; lia|].
    destruct (array_loop _ _ _) as [[vs r']|] eqn:E; [|discriminate H].
    injection H as <- <-. apply (array_loop_length _ IH) in E. simpl in *. lia. }
  repeat match type of H with
         | context [strip_prefix ?p ?t] =>
             let E := fresh "E" in
             destruct (strip_prefix p t) eqn:E;
             [injection H as <- <-; apply strip_prefix_length in E;
              simpl in E; simpl; lia|]
         | context [match_number ?t] =>
             let E := fresh "E" in
             destruct (match_number t) as [[lit r']|] eqn:E;
             [injection H as <- <-; apply match_number_length in E; exact E|]
         end.
  discriminate H.
Qed.

(** More rounds than the text has characters change nothing, and the
    loops see the scanner only on shorter texts. *)
Lemma array_loop_fuel (scan1 scan2 : str -> option (json * str)) :
  consuming scan1 ->
  forall n1 n2 s,
    (forall s', (length s' <= length s)%nat -> scan1 s' = scan2 s') ->
    (length s <= n1)%nat -> (length s <= n2)%nat ->
    array_loop scan1 n1 s = array_loop scan2 n2 s.
Proof.
  intros Hc. induction n1 as [|n1 IH]; intros n2 s Hext H1 H2.
  - destruct s; [|simpl in H1; lia]. destruct n2 as [|n2]; [reflexivity|].
    cbn [array_loop]. rewrite <- Hext by lia.
    destruct (scan1 []) as [[v r]|] eqn:E; [|reflexivity].
    apply Hc in E. simpl in E. lia.
  - destruct n2 as [|n2].
    + destruct s; [|simpl in H2; lia]. cbn [array_loop].
      destruct (scan1 []) as [[v r]|] eqn:E; [|reflexivity].
      apply Hc in E. simpl in E. lia.
    + cbn [array_loop]. rewrite <- Hext by lia.
      destruct (scan1 s) as [[v s1]|] eqn:E; [|reflexivity]. apply Hc in E.
      pose proof (skip_ws_length s1) as Hw.
      destruct (skip_ws s1) as [|c s2]; [reflexivity|].
      destruct (c =? ch "]"); [reflexivity|].
      destruct (c =? ch ","); [|reflexivity].
      pose proof (skip_ws_length s2) as Hw2. simpl in Hw.
      rewrite (IH n2 (skip_ws s2)); [reflexivity| |lia|lia].
      intros s' Hs'. apply Hext. lia.
Qed.

Lemma object_loop_fuel (scan1 scan2 : str -> option (json * str)) :
  consuming scan1 ->
  forall n1 n2 s,
    (forall s', (length s' <= length s)%nat -> scan1 s' = scan2 s') ->
    (length s <= n1)%nat -> (length s <= n2)%nat ->
    object_loop scan1 n1 s = object_loop scan2 n2 s.
Proof.
  intros Hc. induction n1 as [|n1 IH]; intros n2 s Hext H1 H2.
  - destruct s; [|simpl in H1; lia]. destruct n2; reflexivity.
  - destruct n2 as [|n2].
    + destruct s; [|simpl in H2; lia]. reflexivity.
    + cbn [object_loop]. destruct (scanstring s) as [[key s1]|] eqn:E; [|reflexivity].
      apply scanstring_length in E.
      pose proof (skip_ws_length s1) as Hw1.
      destruct (skip_ws s1) as [|c s2]; [reflexivity|].
      destruct (c =? ch ":"); [|reflexivity].
      pose proof (skip_ws_length s2) as Hw2. simpl in Hw1.
      rewrite <- Hext by lia.
      destruct (scan1 (skip_ws s2)) as [[v s3]|] eqn:Ev; [|reflexivity]. apply Hc in Ev.
      pose proof (skip_ws_length s3) as Hw3.
      destruct (skip_ws s3) as [|d s4]; [reflexivity|].
      destruct (d =? ch "}"); [reflexivity|].
      destruct (d =? ch ","); [|reflexivity].
      pose proof (skip_ws_length s4) as Hw4. simpl in Hw3.
      destruct (skip_ws s4) as [|q s5]; [reflexivity|].
      destruct (q =? DQUOTE); [|reflexivity]. simpl in Hw4.
      rewrite (IH n2 s5); [reflexivity| |lia|lia].
      intros s' Hs'. apply Hext. lia.
Qed.

(** The decoder never runs out of fuel: any two amounts above the length
    of the text give the same result. *)
Lemma scan_once_fuel (f1 f2 : nat) (s : str) :
  (length s < f1)%nat -> (length s < f2)%nat -> scan_once f1 s = scan_once f2 s.
Proof.
  revert f2 s. induction f1 as [|f1 IH]; intros f2 s H1 H2; [lia|].
  destruct f2 as [|f2]; [lia|].
  destruct s as [|c s1]; [reflexivity|]. cbn [scan_once]. simpl in H1, H2.
  assert (Hext : forall s', (length s' <= length s1)%nat ->
                            scan_once f1 s' = scan_once f2 s')
    by (intros s' Hs'; apply IH; lia).
  destruct (c =? DQUOTE); [reflexivity|].
  destruct (c =? ch "{").
  { unfold JSONObject. pose proof (skip_ws_length s1) as Hw.
    destruct (skip_ws s1) as [|d s2]; [reflexivity|].
    destruct (d =? ch "}"); [reflexivity|].
    destruct (d =? DQUOTE); [|reflexivity]. simpl in Hw.
    rewrite (object_loop_fuel _ (scan_once f2) (scan_once_consuming f1)
               (length s1) (length s1) s2); [reflexivity| |lia|lia].
    intros s' Hs'. apply Hext. lia. }
  destruct (c =? ch "[").
  { unfold JSONArray. pose proof (skip_ws_length s1) as Hw.
    destruct (skip_ws s1) as [|d s2] eqn:Hk; [reflexivity|].
    destruct (d =? ch "]"); [reflexivity|].
    rewrite (array_loop_fuel _ (scan_once f2) (scan_once_consuming f1)
               (length s1) (length s1) (d :: s2)); [reflexivity| |exact Hw|exact Hw].
    intros s' Hs'. apply Hext. lia. }
  reflexivity.
Qed.

Lemma loads_fuel (fuel : nat) (s : str) :
  (length s < fuel)%nat ->
  scan_once fuel (skip_ws s) = scan_once (S (length s)) (skip_ws s).
Proof.
  intros H. pose proof (skip_ws_length s). apply scan_once_fuel; lia.
Qed.

Lemma scanstring_simple (s rest : str) :
  simple s -> scanstring (s ++ DQUOTE :: rest) = Some (s, rest).
Proof.
  induction 1 as [|c s [Hc [Hq Hb]] Hs IH]; simpl.
  - reflexivity.
  - destruct (N.eqb_spec c DQUOTE) as [|_]; [contradiction|].
    destruct (N.eqb_spec c BSLASH) as [|_]; [contradiction|].
    destruct (N.ltb_spec c 32) as [Hlt|_]; [lia|].
    rewrite IH. reflexivity.
Qed.

Lemma scan_once_quoted (fuel : nat) (s rest : str) :
  simple s -> scan_once (S fuel) (quoted s ++ rest) = Some (JStr s, rest).
Proof.
  intros Hs. unfold quoted. cbn [app scan_once].
  change (DQUOTE =? DQUOTE) with true. cbn iota.
  rewrite <- app_assoc. cbn [app]. rewrite scanstring_simple by assumption.
  reflexivity.
Qed.

Lemma array_loop_join (fuel : nat) (l : list str) (rest : str) :
  l <> [] -> Forall simple l ->
  forall n, (length l <= n)%nat ->
  array_loop (scan_once (S fuel)) n (join_quoted l ++ ch "]" :: rest)
  = Some (map JStr l, rest).
Proof.
  intros Hne Hl. induction Hl as [|s l Hs Hl IH]; [contradiction|].
  intros n Hn. destruct n as [|n]; [simpl in Hn; lia|].
  destruct l as [|s' l].
  - cbn [join_quoted array_loop]. rewrite scan_once_quoted by assumption.
    reflexivity.
  - change (join_quoted (s :: s' :: l))
      with (quoted s ++ py ", " ++ join_quoted (s' :: l)).
    cbn [array_loop]. rewrite <- !app_assoc.
    rewrite scan_once_quoted by assumption.
    change (skip_ws (py ", " ++ join_quoted (s' :: l) ++ ch "]" :: rest))
      with (ch "," :: ch " " :: join_quoted (s' :: l) ++ ch "]" :: rest).
    cbv iota beta.
    change (ch "," =? ch "]") with false. change (ch "," =? ch ",") with true.
    cbv iota.
    assert (Hsk : forall t, skip_ws (ch " " :: quoted s' ++ t) = quoted s' ++ t)
      by reflexivity.
    assert (Hj : exists t, join_quoted (s' :: l) ++ ch "]" :: rest = quoted s' ++ t).
    { destruct l; [exists (ch "]" :: rest); reflexivity|].
      eexists. change (join_quoted (s' :: l :: l0))
        with (quoted s' ++ py ", " ++ join_quoted (l :: l0)).
      rewrite <- app_assoc. reflexivity. }
    destruct Hj as [t Ht]. rewrite Ht, Hsk, <- Ht.
    rewrite IH; [reflexivity|discriminate|simpl in *; lia].
Qed.

Lemma length_join_quoted (l : list str) : (length l <= length (join_quoted l) + 1)%nat.
Proof.
  induction l as [|s [|s' l] IH]; simpl in *; try lia.
  rewrite !length_app in *. simpl in *. lia.
Qed.

(** Decoding the array literal of simple strings gives back the list. *)
Lemma loads_encode_list (l : list str) :
  Forall simple l -> loads (encode_list l) = Some (JArr (map JStr l)).
Proof.
  intros Hl. unfold loads, encode_list.
  change (skip_ws (ch "[" :: join_quoted l ++ [ch "]"]))
    with (ch "[" :: join_quoted l ++ [ch "]"]).
  cbn [scan_once]. change (ch "[" =? DQUOTE) with false.
  change (ch "[" =? ch "{") with false. change (ch "[" =? ch "[") with true.
  cbv iota. unfold JSONArray.
  destruct l as [|s l].
  - reflexivity.
  - assert (Hq : exists t, join_quoted (s :: l) ++ [ch "]"] = quoted s ++ t).
    { destruct l; [exists [ch "]"]; reflexivity|].
      eexists. change (join_quoted (s :: l :: l0))
        with (quoted s ++ py ", " ++ join_quoted (l :: l0)).
      rewrite <- app_assoc. reflexivity. }
    destruct Hq as [t Ht].
    assert (Hsk : skip_ws (quoted s ++ t) = quoted s ++ t) by reflexivity.
    rewrite Ht, Hsk. unfold quoted at 1. cbn [app].
    change (DQUOTE =? ch "]") with false. cbv iota.
    change (DQUOTE :: (s ++ [DQUOTE]) ++ t) with (quoted s ++ t).
    rewrite <- Ht.
    change (length (ch "[" :: join_quoted (s :: l) ++ [ch "]"]))
      with (S (length (join_quoted (s :: l) ++ [ch "]"]))).
    rewrite array_loop_join; [reflexivity|discriminate|assumption|].
    pose proof (length_join_quoted (s :: l)). rewrite length_app. simpl in *. lia.
Qed.

End JsonFacts.

(** ** Proofs: how the sources and validation treat the field names *)

Section ConfigFacts.
Import Json Config ConfigSpec.

Lemma field_name_inj (f g : Field) : field_name f = field_name g -> f = g.
Proof.
  destruct f, g; intros H; try reflexivity; vm_compute in H; discriminate H.
Qed.

Lemma elem_of_model_fields (f : Field) : f ∈ model_fields.
Proof. unfold model_fields. destruct f; set_solver. Qed.

Lemma env_used_field_name (f : Field) : env_used (field_name f) = true.
Proof. destruct f; vm_compute; reflexivity. Qed.

Lemma found_None_iff (vars : gmap str str) (f : Field) :
  ~ undecodable vars f ->
  found vars f = None -> prepare_field_value f (vars !! field_name f) = Some None.
Proof.
  unfold undecodable, found. intros Hu.
  destruct (prepare_field_value f (vars !! field_name f)) as [[j|]|]; congruence.
Qed.

(** What a source returns under each field name. *)
Lemma source_call_lookup (src : source) (vars : gmap str str) (fields : list Field) :
  forall data data', source_call src vars fields data = Ok data' ->
  forall g, data' !! field_name g =
            if decide (g ∈ fields)
            then match found vars g with
                 | Some j => Some j
                 | None => data !! field_name g
                 end
            else data !! field_name g.
Proof.
  induction fields as [|f fields IH]; intros data data' H g; simpl in H.
  - injection H as <-. destruct (decide (g ∈ [])) as [Hin|_]; [|reflexivity].
    apply elem_of_nil in Hin. contradiction.
  - destruct (prepare_field_value f (vars !! field_name f)) as [[j|]|] eqn:Hp;
      [| |discriminate H].
    + specialize (IH _ _ H g). rewrite IH.
      destruct (decide (g = f)) as [->|Hne].
      * unfold found. rewrite Hp, lookup_insert_eq.
        destruct (decide (f ∈ fields)), (decide (f ∈ f :: fields)) as [|Hn];
          try reflexivity; exfalso; apply Hn; left.
      * rewrite lookup_insert_ne
          by (intros Heq; apply Hne; symmetry; apply field_name_inj; exact Heq).
        destruct (decide (g ∈ fields)) as [Hin|Hnin],
                 (decide (g ∈ f :: fields)) as [Hin'|Hnin']; try reflexivity.
        -- exfalso; apply Hnin'; right; exact Hin.
        -- apply elem_of_cons in Hin' as [?|?]; contradiction.
    + specialize (IH _ _ H g). rewrite IH.
      destruct (decide (g = f)) as [->|Hne].
      * unfold found. rewrite Hp.
        destruct (decide (f ∈ fields)), (decide (f ∈ f :: fields)); reflexivity.
      * destruct (decide (g ∈ fields)) as [Hin|Hnin],
                 (decide (g ∈ f :: fields)) as [Hin'|Hnin']; try reflexivity.
        -- exfalso; apply Hnin'; right; exact Hin.
        -- apply elem_of_cons in Hin' as [?|?]; contradiction.
Qed.

(** A source raises exactly on the first field whose text it cannot
    decode, and names that field. *)
Lemma source_call_Raise (src : source) (vars : gmap str str) (fields : list Field) :
  forall data e, source_call src vars fields data = Raise e ->
  exists f, f ∈ fields /\ e = SettingsError f src /\ undecodable vars f.
Proof.
  induction fields as [|f fields IH]; intros data e H; simpl in H; [discriminate H|].
  destruct (prepare_field_value f (vars !! field_name f)) as [[j|]|] eqn:Hp.
  - destruct (IH _ _ H) as (g & Hin & He & Hu). exists g. split; [right; exact Hin|auto].
  - destruct (IH _ _ H) as (g & Hin & He & Hu). exists g. split; [right; exact Hin|auto].
  - injection H as <-. exists f. split; [left|split; [reflexivity|exact Hp]].
Qed.

Lemma source_call_Ok (src : source) (vars : gmap str str) (fields : list Field) :
  (forall f, f ∈ fields -> ~ undecodable vars f) ->
  forall data, exists data', source_call src vars fields data = Ok data'.
Proof.
  induction fields as [|f fields IH]; intros Hall data; simpl.
  - eexists; reflexivity.
  - assert (Hf : ~ undecodable vars f) by (apply Hall; left).
    unfold undecodable in Hf.
    destruct (prepare_field_value f (vars !! field_name f)) as [[j|]|];
      [apply IH|apply IH|contradiction];
      intros g Hg; apply Hall; right; exact Hg.
Qed.

Lemma source_call_Ok_inv (src : source) (vars : gmap str str) (fields : list Field) :
  forall data data', source_call src vars fields data = Ok data' ->
  forall f, f ∈ fields -> ~ undecodable vars f.
Proof.
  induction fields as [|f fields IH]; intros data data' H g Hg; simpl in H.
  - apply elem_of_nil in Hg. contradiction.
  - unfold undecodable.
    destruct (prepare_field_value f (vars !! field_name f)) as [[j|]|] eqn:Hp;
      [| |discriminate H];
      (apply elem_of_cons in Hg as [->|Hg];
       [rewrite Hp; discriminate|exact (IH _ _ H g Hg)]).
Qed.

(** A source reads nothing but the field names. *)
Lemma source_call_ext (src : source) (vars vars' : gmap str str) (fields : list Field) :
  (forall f, vars !! field_name f = vars' !! field_name f) ->
  forall data, source_call src vars fields data = source_call src vars' fields data.
Proof.
  intros Hext. induction fields as [|f fields IH]; intros data; simpl; [reflexivity|].
  rewrite <- Hext.
  destruct (prepare_field_value f (vars !! field_name f)) as [[j|]|]; auto.
Qed.

(** The entries carried along from the override file never sit under a
    field name. *)
Lemma dotenv_extras_lookup (vars : gmap str str) (data : gmap str json) (f : Field) :
  dotenv_extras vars data !! field_name f = data !! field_name f.
Proof.
  unfold dotenv_extras.
  apply (map_fold_weak_ind (fun acc _ => acc !! field_name f = data !! field_name f)).
  - reflexivity.
  - intros k v m acc _ IH.
    destruct (bool_decide (v = []) || bool_decide (is_Some (data !! k))); [exact IH|].
    destruct (env_used k) eqn:Hu; [exact IH|].
    rewrite lookup_insert_ne; [exact IH|].
    intros ->. rewrite env_used_field_name in Hu. discriminate Hu.
Qed.

Lemma deep_update_lookup (mapping updating : gmap str json) (k : str) :
  deep_update mapping updating !! k =
  match updating !! k, mapping !! k with
  | Some new, Some old => Some (deep_update_value old new)
  | Some new, None => Some new
  | None, old => old
  end.
Proof.
  unfold deep_update. rewrite lookup_union_with.
  destruct (updating !! k), (mapping !! k); reflexivity.
Qed.

(** Merging replaces, unless both values are [dict]s. *)
Lemma deep_update_value_replace (old new : json) :
  (forall u, new <> JObj u) -> deep_update_value old new = new.
Proof.
  intros H. destruct old, new; try reflexivity. exfalso. eapply H. reflexivity.
Qed.

Lemma validate_field_JObj (f : Field) (u : list (str * json)) :
  validate_field f (JObj u) = None.
Proof. destruct f; reflexivity. Qed.

(** For validation, merging is replacement. *)
Lemma validate_deep_update_value (f : Field) (old new : json) :
  validate_field f (deep_update_value old new) = validate_field f new.
Proof.
  destruct new; try (rewrite deep_update_value_replace by discriminate; reflexivity).
  destruct old; reflexivity.
Qed.

Lemma str_attr_attr (f : Field) (state : gmap str json) :
  field_annotation f = Str -> VStr <$> str_attr f state = attr f state.
Proof.
  intros Hf. unfold str_attr, attr, validate_field. rewrite Hf.
  destruct (state !! field_name f); [reflexivity|].
  destruct f; try discriminate Hf; reflexivity.
Qed.

Lemma list_attr_attr (f : Field) (state : gmap str json) :
  field_annotation f = ListStr -> VList <$> list_attr f state = attr f state.
Proof.
  intros Hf. unfold list_attr, attr, validate_field. rewrite Hf.
  destruct (state !! field_name f); [reflexivity|].
  destruct f; try discriminate Hf; reflexivity.
Qed.

Lemma field_ok_attr (f : Field) (state : gmap str json) :
  field_ok state f = true <-> is_Some (attr f state).
Proof.
  unfold field_ok, attr. destruct (state !! field_name f) as [v|].
  - rewrite bool_decide_eq_true. reflexivity.
  - split; [eauto|reflexivity].
Qed.

End ConfigFacts.

Section SettingsFacts.
Import Json Config ConfigSpec.

Lemma model_validate_Ok (state : gmap str json) (s : Settings) :
  model_validate state = Ok s <-> forall f, attr f state = Some (get_field f s).
Proof.
  unfold model_validate.
  pose proof (str_attr_attr F_REDDIT_CLIENT_ID state eq_refl) as H1.
  pose proof (str_attr_attr F_REDDIT_CLIENT_SECRET state eq_refl) as H2.
  pose proof (str_attr_attr F_REDDIT_USER_AGENT state eq_refl) as H3.
  pose proof (list_attr_attr F_DEFAULT_SUBREDDITS state eq_refl) as H4.
  pose proof (list_attr_attr F_DEFAULT_KEYWORDS state eq_refl) as H5.
  pose proof (str_attr_attr F_DATABASE_PATH state eq_refl) as H6.
  pose proof (str_attr_attr F_OUTPUT_DIR state eq_refl) as H7.
  split.
  - intros H f.
    destruct (str_attr F_REDDIT_CLIENT_ID state) as [a|]; [|discriminate H].
    destruct (str_attr F_REDDIT_CLIENT_SECRET state) as [b|]; [|discriminate H].
    destruct (str_attr F_REDDIT_USER_AGENT state) as [c|]; [|discriminate H].
    destruct (list_attr F_DEFAULT_SUBREDDITS state) as [d|]; [|discriminate H].
    destruct (list_attr F_DEFAULT_KEYWORDS state) as [e|]; [|discriminate H].
    destruct (str_attr F_DATABASE_PATH state) as [x|]; [|discriminate H].
    destruct (str_attr F_OUTPUT_DIR state) as [y|]; [|discriminate H].
    injection H as <-. destruct f; simpl; symmetry; assumption.
  - intros H.
    rewrite (H F_REDDIT_CLIENT_ID) in H1. rewrite (H F_REDDIT_CLIENT_SECRET) in H2.
    rewrite (H F_REDDIT_USER_AGENT) in H3. rewrite (H F_DEFAULT_SUBREDDITS) in H4.
    rewrite (H F_DEFAULT_KEYWORDS) in H5. rewrite (H F_DATABASE_PATH) in H6.
    rewrite (H F_OUTPUT_DIR) in H7.
    destruct (str_attr F_REDDIT_CLIENT_ID state) as [a|]; [|discriminate H1].
    destruct (str_attr F_REDDIT_CLIENT_SECRET state) as [b|]; [|discriminate H2].
    destruct (str_attr F_REDDIT_USER_AGENT state) as [c|]; [|discriminate H3].
    destruct (list_attr F_DEFAULT_SUBREDDITS state) as [d|]; [|discriminate H4].
    destruct (list_attr F_DEFAULT_KEYWORDS state) as [e|]; [|discriminate H5].
    destruct (str_attr F_DATABASE_PATH state) as [x|]; [|discriminate H6].
    destruct (str_attr F_OUTPUT_DIR state) as [y|]; [|discriminate H7].
    simpl in *. destruct s; simpl in *. congruence.
Qed.

Lemma model_validate_total (state : gmap str json) :
  (forall f, is_Some (attr f state)) -> exists s, model_validate state = Ok s.
Proof.
  intros H. unfold model_validate.
  pose proof (str_attr_attr F_REDDIT_CLIENT_ID state eq_refl) as H1.
  pose proof (str_attr_attr F_REDDIT_CLIENT_SECRET state eq_refl) as H2.
  pose proof (str_attr_attr F_REDDIT_USER_AGENT state eq_refl) as H3.
  pose proof (list_attr_attr F_DEFAULT_SUBREDDITS state eq_refl) as H4.
  pose proof (list_attr_attr F_DEFAULT_KEYWORDS state eq_refl) as H5.
  pose proof (str_attr_attr F_DATABASE_PATH state eq_refl) as H6.
  pose proof (str_attr_attr F_OUTPUT_DIR state eq_refl) as H7.
  destruct (H F_REDDIT_CLIENT_ID) as [? E1]. destruct (H F_REDDIT_CLIENT_SECRET) as [? E2].
  destruct (H F_REDDIT_USER_AGENT) as [? E3]. destruct (H F_DEFAULT_SUBREDDITS) as [? E4].
  destruct (H F_DEFAULT_KEYWORDS) as [? E5]. destruct (H F_DATABASE_PATH) as [? E6].
  destruct (H F_OUTPUT_DIR) as [? E7].
  rewrite E1 in H1. rewrite E2 in H2. rewrite E3 in H3. rewrite E4 in H4.
  rewrite E5 in H5. rewrite E6 in H6. rewrite E7 in H7.
  destruct (str_attr F_REDDIT_CLIENT_ID state) as [a|]; [|discriminate H1].
  destruct (str_attr F_REDDIT_CLIENT_SECRET state) as [b|]; [|discriminate H2].
  destruct (str_attr F_REDDIT_USER_AGENT state) as [c|]; [|discriminate H3].
  destruct (list_attr F_DEFAULT_SUBREDDITS state) as [d|]; [|discriminate H4].
  destruct (list_attr F_DEFAULT_KEYWORDS state) as [e|]; [|discriminate H5].
  destruct (str_attr F_DATABASE_PATH state) as [u|]; [|discriminate H6].
  destruct (str_attr F_OUTPUT_DIR state) as [w|]; [|discriminate H7].
  eexists. reflexivity.
Qed.

(** When validation fails it reports exactly the fields whose value has
    the wrong type. *)
Lemma model_validate_Raise (state : gmap str json) (e : error) :
  model_validate state = Raise e ->
  exists fields, e = ValidationError fields /\ fields <> [] /\
                 forall f, f ∈ fields <-> attr f state = None.
Proof.
  intros H.
  assert (He : e = ValidationError
                     (List.filter (fun f => negb (field_ok state f)) model_fields)).
  { unfold model_validate in H.
    repeat match type of H with
           | context [match ?x with Some _ => _ | None => _ end] => destruct x
           end; try discriminate H; injection H as <-; reflexivity. }
  assert (Hmem : forall f,
             f ∈ List.filter (fun f => negb (field_ok state f)) model_fields
             <-> attr f state = None).
  { intros f. rewrite list_elem_of_In, filter_In, <- list_elem_of_In.
    rewrite negb_true_iff, <- not_true_iff_false, field_ok_attr.
    rewrite <- eq_None_not_Some.
    pose proof (elem_of_model_fields f). tauto. }
  eexists. split; [exact He|]. split; [|exact Hmem].
  intros Hnil.
  destruct (model_validate_total state) as [s Hs]; [|congruence].
  intros f. destruct (attr f state) eqn:Ha; [eauto|].
  apply Hmem in Ha. rewrite Hnil in Ha. apply elem_of_nil in Ha. contradiction.
Qed.

Lemma model_validate_ext (st1 st2 : gmap str json) :
  (forall f, st1 !! field_name f = st2 !! field_name f) ->
  model_validate st1 = model_validate st2.
Proof.
  intros H. unfold model_validate, str_attr, list_attr, field_ok.
  rewrite !H.
  replace (List.filter (fun f => negb match st1 !! field_name f with
                                      | Some v => bool_decide (is_Some (validate_field f v))
                                      | None => true
                                      end) model_fields)
    with (List.filter (fun f => negb match st2 !! field_name f with
                                     | Some v => bool_decide (is_Some (validate_field f v))
                                     | None => true
                                     end) model_fields); [reflexivity|].
  apply filter_ext. intros f. rewrite H. reflexivity.
Qed.

(** The collected values under each field name. *)
Lemma build_values_lookup (p : process) (state : gmap str json) (f : Field) :
  _settings_build_values p = Ok state ->
  state !! field_name f =
  match found (environ p) f, found (default ∅ (dotenv_file p)) f with
  | Some new, Some old => Some (deep_update_value old new)
  | Some new, None => Some new
  | None, old => old
  end.
Proof.
  unfold _settings_build_values. intros H.
  destruct (source_call EnvSettingsSource _ _ _) as [env_state|] eqn:He; [|discriminate H].
  destruct (source_call DotEnvSettingsSource _ _ _) as [data|] eqn:Hd; [|discriminate H].
  injection H as <-.
  rewrite deep_update_lookup, dotenv_extras_lookup.
  rewrite (source_call_lookup _ _ _ _ _ He f), (source_call_lookup _ _ _ _ _ Hd f).
  destruct (decide (f ∈ model_fields)) as [_|Hn];
    [|exfalso; apply Hn, elem_of_model_fields].
  rewrite !lookup_empty.
  destruct (found (environ p) f), (found (default ∅ (dotenv_file p)) f); reflexivity.
Qed.

Lemma build_values_attr (p : process) (state : gmap str json) (f : Field) :
  _settings_build_values p = Ok state -> attr f state = resolve p f.
Proof.
  intros H. unfold attr, resolve, selected.
  rewrite (build_values_lookup p state f H).
  destruct (found (environ p) f) as [new|], (found (default ∅ (dotenv_file p)) f) as [old|];
    try reflexivity.
  apply validate_deep_update_value.
Qed.

Lemma build_values_Raise (p : process) (e : error) :
  _settings_build_values p = Raise e ->
  exists f src, e = SettingsError f src /\ undecodable (vars_of src p) f.
Proof.
  unfold _settings_build_values. intros H.
  destruct (source_call EnvSettingsSource _ _ _) as [env_state|e1] eqn:He.
  - destruct (source_call DotEnvSettingsSource _ _ _) as [data|e2] eqn:Hd; [discriminate H|].
    injection H as <-.
    destruct (source_call_Raise _ _ _ _ _ Hd) as (f & _ & -> & Hu).
    exists f, DotEnvSettingsSource. split; [reflexivity|exact Hu].
  - injection H as <-.
    destruct (source_call_Raise _ _ _ _ _ He) as (f & _ & -> & Hu).
    exists f, EnvSettingsSource. split; [reflexivity|exact Hu].
Qed.

Lemma build_values_Ok (p : process) :
  (forall src f, ~ undecodable (vars_of src p) f) <->
  exists state, _settings_build_values p = Ok state.
Proof.
  unfold _settings_build_values. split.
  - intros H.
    destruct (source_call_Ok EnvSettingsSource (environ p) model_fields
                (fun f _ => H EnvSettingsSource f) ∅) as [env_state ->].
    destruct (source_call_Ok DotEnvSettingsSource (default ∅ (dotenv_file p)) model_fields
                (fun f _ => H DotEnvSettingsSource f) ∅) as [data ->].
    eexists. reflexivity.
  - intros [state H] src f.
    destruct (source_call EnvSettingsSource _ _ _) as [env_state|] eqn:He; [|discriminate H].
    destruct (source_call DotEnvSettingsSource _ _ _) as [data|] eqn:Hd; [|discriminate H].
    destruct src; simpl.
    + exact (source_call_Ok_inv _ _ _ _ _ He f (elem_of_model_fields f)).
    + exact (source_call_Ok_inv _ _ _ _ _ Hd f (elem_of_model_fields f)).
Qed.

(** Construction succeeds exactly when every text decodes and every
    selected value has the annotated type; the snapshot then holds the
    resolved values. *)
Lemma Settings_init_Ok (p : process) (s : Settings) :
  Settings_init p = Ok s <->
  (forall src f, ~ undecodable (vars_of src p) f) /\
  (forall f, resolve p f = Some (get_field f s)).
Proof.
  unfold Settings_init. split.
  - intros H. destruct (_settings_build_values p) as [state|] eqn:Hb; [|discriminate H].
    split; [apply build_values_Ok; eauto|].
    intros f. rewrite <- (build_values_attr p state f Hb).
    revert f. apply model_validate_Ok. exact H.
  - intros [Hu Hr]. apply build_values_Ok in Hu as [state Hb]. rewrite Hb.
    apply model_validate_Ok. intros f. rewrite (build_values_attr p state f Hb). apply Hr.
Qed.

Lemma Settings_init_total (p : process) :
  (forall src f, ~ undecodable (vars_of src p) f) ->
  (forall f, is_Some (resolve p f)) ->
  exists s, Settings_init p = Ok s.
Proof.
  intros Hu Hr. unfold Settings_init.
  apply build_values_Ok in Hu as [state Hb]. rewrite Hb.
  apply model_validate_total. intros f. rewrite (build_values_attr p state f Hb). apply Hr.
Qed.

(** The provider reads nothing but the recognised names. *)
Lemma Settings_init_ext (p p' : process) :
  (forall f, environ p !! field_name f = environ p' !! field_name f) ->
  (forall f, default ∅ (dotenv_file p) !! field_name f
             = default ∅ (dotenv_file p') !! field_name f) ->
  Settings_init p = Settings_init p'.
Proof.
  intros He Hd. unfold Settings_init, _settings_build_values.
  rewrite (source_call_ext EnvSettingsSource _ _ model_fields He).
  rewrite (source_call_ext DotEnvSettingsSource _ _ model_fields Hd).
  destruct (source_call EnvSettingsSource _ _ _) as [env_state|]; [|reflexivity].
  destruct (source_call DotEnvSettingsSource (default ∅ (dotenv_file p')) _ _)
    as [data|]; [|reflexivity].
  apply model_validate_ext. intros f.
  rewrite !deep_update_lookup, !dotenv_extras_lookup. reflexivity.
Qed.

End SettingsFacts.

(** ** Proofs: resolution of a single field *)

Section ResolutionFacts.
Import Json Config ConfigSpec.

Lemma found_absent (vars : gmap str str) (f : Field) :
  vars !! field_name f = None -> found vars f = None /\ ~ undecodable vars f.
Proof.
  unfold found, undecodable. intros ->. simpl. split; [reflexivity|discriminate].
Qed.

Lemma found_coerce (vars : gmap str str) (f : Field) (v : str) (x : value) :
  vars !! field_name f = Some v -> coerce f v = Some x ->
  exists j, found vars f = Some j /\ validate_field f j = Some x
            /\ ~ undecodable vars f.
Proof.
  unfold found, undecodable, coerce. intros ->.
  destruct (prepare_field_value f (Some v)) as [[j|]|]; try discriminate.
  intros H. exists j. split; [reflexivity|]. split; [exact H|discriminate].
Qed.

(** What [coerce] accepts: any text for a [str], a JSON array of strings
    for a [List[str]]. *)
Lemma coerce_Str (f : Field) (v : str) :
  field_annotation f = Str -> coerce f v = Some (VStr v).
Proof.
  intros Hf. unfold coerce, prepare_field_value, field_is_complex, validate_field.
  rewrite Hf. reflexivity.
Qed.

Lemma coerce_ListStr (f : Field) (v : str) (x : value) :
  field_annotation f = ListStr ->
  coerce f v = Some x <->
  exists items l, loads v = Some (JArr items) /\ validate_items items = Some l
                  /\ x = VList l.
Proof.
  intros Hf. unfold coerce, prepare_field_value, field_is_complex, validate_field.
  rewrite Hf. split.
  - destruct (loads v) as [[| | | |items|]|]; try discriminate.
    simpl. destruct (validate_items items) as [l|] eqn:Hl; [|discriminate].
    simpl. intros [= <-]. eauto.
  - intros (items & l & -> & Hl & ->). simpl. rewrite Hl. reflexivity.
Qed.

Lemma validate_items_map_JStr (l : list str) : validate_items (map JStr l) = Some l.
Proof. induction l as [|s l IH]; simpl; [reflexivity|]. rewrite IH. reflexivity. Qed.

Lemma coerce_encode_list (f : Field) (l : list str) :
  field_annotation f = ListStr -> Forall simple l ->
  coerce f (encode_list l) = Some (VList l).
Proof.
  intros Hf Hl. apply coerce_ListStr; [exact Hf|].
  exists (map JStr l), l. split; [apply loads_encode_list; exact Hl|].
  split; [apply validate_items_map_JStr|reflexivity].
Qed.

Lemma resolve_None_iff (p : process) (f : Field) :
  resolve p f = None <-> ill_typed p f.
Proof.
  unfold resolve, ill_typed. destruct (selected p f) as [j|].
  - split; [eauto|]. intros (j' & [= <-] & H). exact H.
  - split; [discriminate|]. intros (j' & H & _). discriminate H.
Qed.

(** Setting one variable leaves what the sources hold for the other
    fields as it was. *)
Lemma setenv_other (p : process) (f g : Field) (v : str) :
  g <> f -> environ (setenv (field_name f) v p) !! field_name g
            = environ p !! field_name g.
Proof.
  intros Hne. simpl. apply lookup_insert_ne.
  intros Heq. apply Hne. symmetry. apply field_name_inj. exact Heq.
Qed.

Lemma setenv_resolve_other (p : process) (f g : Field) (v : str) :
  dotenv_file (setenv (field_name f) v p) = dotenv_file p ->
  g <> f -> resolve (setenv (field_name f) v p) g = resolve p g.
Proof.
  intros Hfile Hne. unfold resolve, selected, found.
  rewrite Hfile, (setenv_other p f g v Hne). reflexivity.
Qed.

Lemma setenv_undecodable (p : process) (f g : Field) (v : str) (src : source) :
  dotenv_file (setenv (field_name f) v p) = dotenv_file p ->
  undecodable (vars_of src (setenv (field_name f) v p)) g ->
  undecodable (vars_of src p) g \/ (src = EnvSettingsSource /\ g = f).
Proof.
  intros Hfile. destruct src.
  - destruct (decide (g = f)) as [->|Hne]; [right; split; reflexivity|].
    unfold undecodable, vars_of. rewrite (setenv_other p f g v Hne). left; assumption.
  - unfold vars_of. rewrite Hfile. left; assumption.
Qed.

Lemma setenv_resolve_same (p : process) (f : Field) (v : str) (x : value) :
  coerce f v = Some x -> resolve (setenv (field_name f) v p) f = Some x.
Proof.
  intros Hc.
  destruct (found_coerce (environ (setenv (field_name f) v p)) f v x)
    as (j & Hj & Hv & _); [simpl; apply lookup_insert_eq|exact Hc|].
  unfold resolve, selected. rewrite Hj. exact Hv.
Qed.

(** The effect of setting one variable to a well-formed value on a
    configuration that was accepted before, when the override file
    reads the same after the change. *)
Lemma setenv_frame (p : process) (f : Field) (v : str) (x : value) (s1 : Settings) :
  coerce f v = Some x -> Settings_init p = Ok s1 ->
  dotenv_file (setenv (field_name f) v p) = dotenv_file p ->
  exists s2, Settings_init (setenv (field_name f) v p) = Ok s2
             /\ get_field f s2 = x
             /\ forall g, g <> f -> get_field g s2 = get_field g s1.
Proof.
  intros Hc H1 Hfile. apply Settings_init_Ok in H1 as [Hu Hr].
  assert (Hres : forall g, resolve (setenv (field_name f) v p) g
                           = Some (if decide (g = f) then x else get_field g s1)).
  { intros g. destruct (decide (g = f)) as [->|Hne].
    - apply setenv_resolve_same. exact Hc.
    - rewrite setenv_resolve_other by assumption. apply Hr. }
  destruct (Settings_init_total (setenv (field_name f) v p)) as [s2 H2].
  - intros src g Hg. pose proof Hg as Hg'.
    apply (setenv_undecodable _ _ _ _ _ Hfile) in Hg' as [Hg'|[-> ->]].
    + exact (Hu _ _ Hg').
    + destruct (found_coerce (environ (setenv (field_name f) v p)) f v x)
        as (_ & _ & _ & Hn); [simpl; apply lookup_insert_eq|exact Hc|].
      exact (Hn Hg).
  - intros g. rewrite Hres. eauto.
  - exists s2. split; [exact H2|].
    apply Settings_init_Ok in H2 as [_ Hr2].
    split.
    + specialize (Hr2 f). rewrite Hres in Hr2.
      destruct (decide (f = f)); [congruence|contradiction].
    + intros g Hne. specialize (Hr2 g). rewrite Hres in Hr2.
      destruct (decide (g = f)); [contradiction|congruence].
Qed.

End ResolutionFacts.

(** ** The tests of the repository, run on the embedding *)

Section RepositoryTests.
Import Json Config ConfigSpec.

Example test_settings_defaults :
  Settings_init {| environ := ∅; dotenv_values := None |} = Ok defaults.
Proof. vm_compute. reflexivity. Qed.

Example test_settings_with_env_override :
  exists settings, Settings_init Examples.p_test_override = Ok settings
    /\ REDDIT_CLIENT_ID settings = py "test_client_id"
    /\ REDDIT_CLIENT_SECRET settings = py "test_secret"
    /\ DATABASE_PATH settings = py "custom/path/db.sqlite"
    /\ DEFAULT_SUBREDDITS settings = [py "SaaS"; py "Entrepreneur"; py "startups"].
Proof. eexists. split; [vm_compute; reflexivity|]. repeat split. Qed.

End RepositoryTests.

(** ** The settings provider: the claims *)

Section SettingsClaims.
Import Json Config ConfigSpec.

(** C1.  With no environment variable under any of the seven recognised
    names and no override file, a call of the provider returns the
    snapshot whose seven fields are the defaults of the class body, and
    leaves the process as it found it, so that every further call
    returns the same snapshot. *)
Theorem get_settings_defaults (p : process) :
  (forall f, environ p !! field_name f = None) ->
  dotenv_file p = None ->
  get_settings p =
  (Ok {| REDDIT_CLIENT_ID := py "";
         REDDIT_CLIENT_SECRET := py "";
         REDDIT_USER_AGENT := py "redditsearch/0.1.0";
         DEFAULT_SUBREDDITS := [py "SaaS"; py "Entrepreneur"; py "startups"];
         DEFAULT_KEYWORDS := [py "pay for"; py "need a tool"; py "wish there was"];
         DATABASE_PATH := py "data/redditsearch.db";
         OUTPUT_DIR := py "output" |}, p).
Proof.
  intros Henv Hfile. unfold get_settings. f_equal.
  rewrite (Settings_init_ext p {| environ := ∅; dotenv_values := None |}).
  - vm_compute. reflexivity.
  - intros f. rewrite Henv. symmetry. apply lookup_empty.
  - intros f. rewrite Hfile. reflexivity.
Qed.

Lemma get_settings_defaults_witness :
  (forall f, environ Examples.p_plain !! field_name f = None) /\
  dotenv_file Examples.p_plain = None /\
  fst (get_settings Examples.p_plain) = Ok defaults.
Proof.
  assert (H : forall f, environ Examples.p_plain !! field_name f = None)
    by (intros f; destruct f; vm_compute; reflexivity).
  split; [exact H|]. split; [reflexivity|].
  rewrite (get_settings_defaults Examples.p_plain H eq_refl). reflexivity.
Defined.

(** C3, as the code has it.  When the environment holds a value [v]
    under the name of one field [F] and nothing under the other
    recognised names, the override file holds none of them, and [v] is
    well formed for [F] (any text for a [str] field, a JSON array of
    strings for a [List[str]] field, see [coerce_Str] and
    [coerce_ListStr]), the provider returns a snapshot in which [F] is
    the value [v] stands for and every other field has its default. *)
Theorem single_variable_override (p : process) (F : Field) (v : str) (x : value) :
  environ p !! field_name F = Some v ->
  (forall G, G <> F -> environ p !! field_name G = None) ->
  (forall G, default ∅ (dotenv_file p) !! field_name G = None) ->
  coerce F v = Some x ->
  exists s, fst (get_settings p) = Ok s
            /\ get_field F s = x
            /\ forall G, G <> F -> get_field G s = get_field G defaults.
Proof.
  intros HF Hother Hfile Hc. simpl.
  pose (p0 := {| environ := ∅; dotenv_values := None |}).
  assert (H0 : Settings_init p0 = Ok defaults) by (vm_compute; reflexivity).
  destruct (setenv_frame p0 F v x defaults Hc H0 eq_refl) as (s & Hs & HsF & Hsother).
  exists s. split; [|split; assumption].
  rewrite <- Hs. apply Settings_init_ext.
  - intros G. simpl. destruct (decide (G = F)) as [->|Hne].
    + rewrite lookup_insert_eq. exact HF.
    + rewrite lookup_insert_ne
        by (intros Heq; apply Hne; symmetry; apply field_name_inj; exact Heq).
      rewrite lookup_empty. apply Hother. exact Hne.
  - intros G. rewrite Hfile. simpl. symmetry. apply lookup_empty.
Qed.

Lemma single_variable_override_witness :
  exists s, fst (get_settings (setenv (py "DATABASE_PATH") (py "custom/path/db.sqlite")
                                      Examples.p_plain)) = Ok s
            /\ get_field F_DATABASE_PATH s = VStr (py "custom/path/db.sqlite")
            /\ forall G, G <> F_DATABASE_PATH -> get_field G s = get_field G defaults.
Proof.
  apply (single_variable_override _ F_DATABASE_PATH (py "custom/path/db.sqlite")).
  - vm_compute. reflexivity.
  - intros G HG. destruct G; try (vm_compute; reflexivity). contradiction.
  - intros G. destruct G; vm_compute; reflexivity.
  - vm_compute. reflexivity.
Defined.

(** C3 as stated fails for a sequence-typed field: with
    [DEFAULT_SUBREDDITS=foo] as the only variable the provider returns
    no snapshot, it raises. *)
Lemma single_variable_override_counterexample :
  environ Examples.p_foo !! field_name F_DEFAULT_SUBREDDITS = Some (py "foo") /\
  (forall G, G <> F_DEFAULT_SUBREDDITS ->
             environ Examples.p_foo !! field_name G = None) /\
  dotenv_file Examples.p_foo = None /\
  fst (get_settings Examples.p_foo)
  = Raise (SettingsError F_DEFAULT_SUBREDDITS EnvSettingsSource) /\
  ~ exists s, fst (get_settings Examples.p_foo) = Ok s.
Proof.
  assert (H : fst (get_settings Examples.p_foo)
              = Raise (SettingsError F_DEFAULT_SUBREDDITS EnvSettingsSource))
    by (vm_compute; reflexivity).
  split; [vm_compute; reflexivity|].
  split; [intros G HG; destruct G; try (vm_compute; reflexivity); contradiction|].
  split; [reflexivity|]. split; [exact H|].
  intros [s Hs]. rewrite H in Hs. discriminate Hs.
Qed.

(** C4, as the code has it.  In a returned snapshot every field is
    resolved by precedence: the value of the environment variable of
    exactly that name if it is well formed; else, when the environment
    holds no value for the field, the value of the override file; else,
    when neither holds one, the default.  A source holds no value for a
    field when the name is absent from it, and also, for a
    [List[str]] field, when the text under it decodes to JSON [null]. *)
Theorem resolution_order (p : process) (s : Settings) (F : Field) :
  fst (get_settings p) = Ok s ->
  (forall v x, environ p !! field_name F = Some v -> coerce F v = Some x ->
               get_field F s = x) /\
  (forall v x, found (environ p) F = None ->
               default ∅ (dotenv_file p) !! field_name F = Some v ->
               coerce F v = Some x -> get_field F s = x) /\
  (found (environ p) F = None -> found (default ∅ (dotenv_file p)) F = None ->
   get_field F s = get_field F defaults).
Proof.
  simpl. intros H. apply Settings_init_Ok in H as [_ Hr]. specialize (Hr F).
  unfold resolve, selected in Hr. repeat split.
  - intros v x Hv Hc.
    destruct (found_coerce _ _ _ _ Hv Hc) as (j & Hj & Hx & _).
    rewrite Hj in Hr. congruence.
  - intros v x Hnone Hv Hc.
    destruct (found_coerce _ _ _ _ Hv Hc) as (j & Hj & Hx & _).
    rewrite Hnone, Hj in Hr. congruence.
  - intros Hnone Hnone'. rewrite Hnone, Hnone' in Hr. congruence.
Qed.

Lemma resolution_order_witness :
  exists s, fst (get_settings Examples.p_both) = Ok s
            /\ get_field F_DATABASE_PATH s = VStr (py "custom/path/db.sqlite")
            /\ get_field F_DEFAULT_KEYWORDS s = VList [py "pay"]
            /\ get_field F_OUTPUT_DIR s = VStr (py "out")
            /\ get_field F_DEFAULT_SUBREDDITS s = get_field F_DEFAULT_SUBREDDITS defaults.
Proof.
  destruct (fst (get_settings Examples.p_both)) as [s|e] eqn:Hs;
    [|vm_compute in Hs; discriminate Hs].
  exists s. split; [reflexivity|].
  split; [|split; [|split]].
  - apply (proj1 (resolution_order _ s F_DATABASE_PATH Hs)) with (v := py "custom/path/db.sqlite");
      vm_compute; reflexivity.
  - apply (proj1 (resolution_order _ s F_DEFAULT_KEYWORDS Hs)) with (v := encode_list [py "pay"]);
      vm_compute; reflexivity.
  - apply (proj1 (proj2 (resolution_order _ s F_OUTPUT_DIR Hs))) with (v := py "out");
      vm_compute; reflexivity.
  - apply (proj2 (proj2 (resolution_order _ s F_DEFAULT_SUBREDDITS Hs)));
      vm_compute; reflexivity.
Defined.

(** C4 as stated fails: with [DEFAULT_SUBREDDITS=null] in the
    environment and a list under the same key in the override file, both
    are present and the snapshot holds the value of the file. *)
Lemma resolution_order_counterexample :
  environ Examples.p_null_file !! field_name F_DEFAULT_SUBREDDITS = Some (py "null") /\
  default ∅ (dotenv_file Examples.p_null_file) !! field_name F_DEFAULT_SUBREDDITS
  = Some (encode_list [py "x"]) /\
  exists s, fst (get_settings Examples.p_null_file) = Ok s
            /\ DEFAULT_SUBREDDITS s = [py "x"].
Proof.
  split; [vm_compute; reflexivity|]. split; [vm_compute; reflexivity|].
  eexists. split; [vm_compute; reflexivity|reflexivity].
Qed.

End SettingsClaims.

Section SettingsClaimsErrors.
Import Json Config ConfigSpec.

(** C5, as the code has it.  When the text some source holds for a field
    cannot be decoded, or the value selected for a field by precedence
    does not have the annotated type, the provider returns no snapshot:
    it raises an error that names a field at fault.  A [SettingsError]
    names a field whose text the named source could not decode; a
    [ValidationError] lists exactly the fields whose selected value has
    the wrong type. *)
Theorem invalid_value_raises (p : process) (F : Field) :
  (exists src, undecodable (vars_of src p) F) \/ ill_typed p F ->
  exists e, fst (get_settings p) = Raise e /\ names_offending p e.
Proof.
  simpl. intros Hbad. unfold Settings_init.
  destruct (_settings_build_values p) as [state|e] eqn:Hb.
  - assert (Hu : forall src f, ~ undecodable (vars_of src p) f)
      by (apply build_values_Ok; eauto).
    destruct Hbad as [[src Hsrc]|Hill]; [exfalso; exact (Hu _ _ Hsrc)|].
    destruct (model_validate state) as [s|e] eqn:Hv.
    + exfalso. apply model_validate_Ok with (f := F) in Hv.
      rewrite (build_values_attr p state F Hb) in Hv.
      apply resolve_None_iff in Hill. congruence.
    + exists e. split; [reflexivity|].
      destruct (model_validate_Raise state e Hv) as (fields & -> & Hne & Hmem).
      split; [exact Hne|]. intros f.
      rewrite Hmem, (build_values_attr p state f Hb). apply resolve_None_iff.
  - exists e. split; [reflexivity|].
    destruct (build_values_Raise p e Hb) as (f & src & -> & Hu). exact Hu.
Qed.

Lemma invalid_value_raises_witness :
  ill_typed Examples.p_ill_typed F_DEFAULT_KEYWORDS /\
  exists e, fst (get_settings Examples.p_ill_typed) = Raise e
            /\ names_offending Examples.p_ill_typed e.
Proof.
  assert (H : ill_typed Examples.p_ill_typed F_DEFAULT_KEYWORDS).
  { exists (JArr [JNum (py "1")]). split; vm_compute; reflexivity. }
  split; [exact H|].
  exact (invalid_value_raises Examples.p_ill_typed F_DEFAULT_KEYWORDS (or_intror H)).
Defined.

(** C5 as stated fails: [DEFAULT_SUBREDDITS=null] supplies a value that
    is no list of strings, and the provider returns the snapshot of the
    defaults without raising. *)
Lemma invalid_value_raises_counterexample :
  environ Examples.p_null !! field_name F_DEFAULT_SUBREDDITS = Some (py "null") /\
  loads (py "null") = Some JNull /\
  validate_field F_DEFAULT_SUBREDDITS JNull = None /\
  fst (get_settings Examples.p_null) = Ok defaults.
Proof. repeat split; vm_compute; reflexivity. Qed.

(** C6.  A list of strings without quotes, backslashes and control
    characters, written as a JSON array and supplied as the environment
    value of a sequence-typed field of an otherwise accepted
    configuration, comes back as exactly that list, in order.  The
    override file, if there is one, is to read the same after the
    variable is set: none of its values refers to the variable. *)
Theorem list_round_trip (p : process) (F : Field) (l : list str) (s0 : Settings) :
  field_annotation F = ListStr ->
  Forall simple l ->
  fst (get_settings p) = Ok s0 ->
  dotenv_file (setenv (field_name F) (encode_list l) p) = dotenv_file p ->
  exists s, fst (get_settings (setenv (field_name F) (encode_list l) p)) = Ok s
            /\ get_field F s = VList l.
Proof.
  simpl. intros HF Hl H0 Hfile.
  destruct (setenv_frame p F (encode_list l) (VList l) s0
              (coerce_encode_list F l HF Hl) H0 Hfile) as (s & Hs & HsF & _).
  exists s. split; assumption.
Qed.

Lemma list_round_trip_witness :
  Forall simple [py "SaaS"; py "need a tool"] /\
  exists s, fst (get_settings (setenv (field_name F_DEFAULT_KEYWORDS)
                                 (encode_list [py "SaaS"; py "need a tool"])
                                 Examples.p_both)) = Ok s
            /\ get_field F_DEFAULT_KEYWORDS s = VList [py "SaaS"; py "need a tool"].
Proof.
  assert (Hl : Forall simple [py "SaaS"; py "need a tool"]).
  { repeat constructor; vm_compute; congruence. }
  split; [exact Hl|].
  destruct (fst (get_settings Examples.p_both)) as [s0|e] eqn:H0;
    [|vm_compute in H0; discriminate H0].
  apply (list_round_trip Examples.p_both F_DEFAULT_KEYWORDS _ s0 eq_refl Hl H0).
  reflexivity.
Defined.

(** C7.  The provider keeps nothing between calls.  After a first call,
    whatever it returned, the environment variable of a field [F] is
    set to a well-formed value [v].  When the configuration is then well
    formed (no source holds a text it cannot decode, no selected value
    has the wrong type), the second call returns a snapshot, and the
    snapshot holds the value of [v] in [F].  When moreover the first
    call returned a snapshot and the override file reads the same after
    the change, the second snapshot differs from the first in [F]
    only. *)
Theorem get_settings_no_cache (p : process) (F : Field) (v : str) (x : value) :
  coerce F v = Some x ->
  let p1 := snd (get_settings p) in
  let p2 := setenv (field_name F) v p1 in
  ((forall src G, ~ undecodable (vars_of src p2) G) ->
   (forall G, ~ ill_typed p2 G) ->
   exists s2, fst (get_settings p2) = Ok s2 /\ get_field F s2 = x) /\
  (forall s1, fst (get_settings p) = Ok s1 ->
              dotenv_file p2 = dotenv_file p ->
              exists s2, fst (get_settings p2) = Ok s2
                         /\ get_field F s2 = x
                         /\ forall G, G <> F -> get_field G s2 = get_field G s1).
Proof.
  intros Hc. simpl. split.
  - intros Hu Hill.
    destruct (Settings_init_total (setenv (field_name F) v p) Hu) as [s2 H2].
    + intros G. destruct (resolve (setenv (field_name F) v p) G) as [y|] eqn:Hr; [eauto|].
      apply resolve_None_iff in Hr. exfalso. exact (Hill G Hr).
    + exists s2. split; [exact H2|].
      apply Settings_init_Ok in H2 as [_ Hr]. specialize (Hr F).
      rewrite (setenv_resolve_same p F v x Hc) in Hr. congruence.
  - intros s1 H1 Hfile. exact (setenv_frame p F v x s1 Hc H1 Hfile).
Qed.

Lemma get_settings_no_cache_witness :
  coerce F_REDDIT_CLIENT_ID (py "xyz") = Some (VStr (py "xyz")) /\
  (exists s1, fst (get_settings Examples.p_both) = Ok s1
              /\ get_field F_REDDIT_CLIENT_ID s1 = VStr (py "abc")) /\
  exists s2, fst (get_settings (setenv (field_name F_REDDIT_CLIENT_ID) (py "xyz")
                                  (snd (get_settings Examples.p_both)))) = Ok s2
             /\ get_field F_REDDIT_CLIENT_ID s2 = VStr (py "xyz").
Proof.
  split; [reflexivity|].
  split; [eexists; split; [vm_compute; reflexivity|reflexivity]|].
  apply (proj1 (get_settings_no_cache Examples.p_both F_REDDIT_CLIENT_ID
                  (py "xyz") (VStr (py "xyz")) eq_refl)).
  - intros src G H. destruct src, G; vm_compute in H; discriminate H.
  - intros G (j & Hs & Hv).
    destruct G; vm_compute in Hs; try discriminate Hs;
      injection Hs as <-; vm_compute in Hv; discriminate Hv.
Defined.

(** C8, as the code has it.  A key that is none of the seven recognised
    names never appears in the snapshot and raises no error, and it
    changes a recognised field in one way only: through a reference to
    it in a value of the override file, which python-dotenv expands at
    every read.  Set in the environment, such a key leaves the outcome
    (the snapshot or the error) as it was whenever the override file
    reads the same after the change; and whatever else an override file
    holds, the outcome depends on what it reads under the seven names
    only. *)
Theorem unknown_key_ignored (p : process) :
  (forall k v, (forall f, k <> field_name f) ->
               dotenv_file (setenv k v p) = dotenv_file p ->
               fst (get_settings (setenv k v p)) = fst (get_settings p)) /\
  (forall p', environ p' = environ p ->
              (forall f, default ∅ (dotenv_file p') !! field_name f
                         = default ∅ (dotenv_file p) !! field_name f) ->
              fst (get_settings p') = fst (get_settings p)).
Proof.
  simpl. split.
  - intros k v Hk Hfile. apply Settings_init_ext; intros f.
    + simpl. apply lookup_insert_ne. apply Hk.
    + rewrite Hfile. reflexivity.
  - intros p' He Hd. apply Settings_init_ext; intros f; [rewrite He; reflexivity|apply Hd].
Qed.

Lemma unknown_key_ignored_witness :
  (forall f, py "EXTRA_KEY" <> field_name f) /\
  fst (get_settings (setenv (py "EXTRA_KEY") (py "1") Examples.p_both))
  = fst (get_settings Examples.p_both) /\
  fst (get_settings Examples.p_both_more) = fst (get_settings Examples.p_both).
Proof.
  assert (H : forall f, py "EXTRA_KEY" <> field_name f)
    by (intros f; destruct f; vm_compute; discriminate).
  split; [exact H|].
  destruct (unknown_key_ignored Examples.p_both) as [Henv Hfile].
  split.
  - apply (Henv (py "EXTRA_KEY") (py "1") H). reflexivity.
  - apply (Hfile Examples.p_both_more); [reflexivity|].
    intros f. destruct f; vm_compute; reflexivity.
Defined.

(** C8 as stated fails: with the line [DATABASE_PATH=${HOME}/db.sqlite]
    in the override file, [HOME], which is none of the seven names,
    decides the value of [DATABASE_PATH]; setting it in the environment
    changes the snapshot. *)
Lemma unknown_key_ignored_counterexample :
  (forall f, py "HOME" <> field_name f) /\
  (forall f, environ Examples.p_reference !! field_name f = None) /\
  exists s s',
    fst (get_settings Examples.p_reference) = Ok s /\
    fst (get_settings (setenv (py "HOME") (py "/srv") Examples.p_reference)) = Ok s' /\
    get_field F_DATABASE_PATH s = VStr (py "/root/db.sqlite") /\
    get_field F_DATABASE_PATH s' = VStr (py "/srv/db.sqlite") /\
    get_field F_DATABASE_PATH s' <> get_field F_DATABASE_PATH s.
Proof.
  split; [intros f; destruct f; vm_compute; discriminate|].
  split; [intros f; destruct f; vm_compute; reflexivity|].
  eexists. eexists. split; [vm_compute; reflexivity|].
  split; [vm_compute; reflexivity|].
  split; [reflexivity|]. split; [reflexivity|]. vm_compute. discriminate.
Qed.

End SettingsClaimsErrors.

(** ** Proofs: the registry of loggers *)

Section LoggingFacts.
Import Logging LoggingSpec.

#[local] Open Scope Z_scope.

Lemma logger_at_set_eq (h : handle) (lg : Logger) (st : logging) :
  is_Some (logger_at h st) -> logger_at h (set_logger h lg st) = Some lg.
Proof.
  destruct h as [|name]; simpl; [reflexivity|].
  destruct (loggerDict st !! name) as [[lg0 p|cs]|] eqn:Hl; intros [x Hx];
    try discriminate Hx.
  simpl. rewrite lookup_insert_eq. reflexivity.
Qed.

Lemma logger_at_set_ne (h h' : handle) (lg : Logger) (st : logging) :
  h' <> h -> logger_at h' (set_logger h lg st) = logger_at h' st.
Proof.
  intros Hne. destruct h as [|name], h' as [|name']; simpl; try reflexivity;
    try contradiction.
  - destruct (loggerDict st !! name) as [[lg0 p|cs]|]; reflexivity.
  - destruct (loggerDict st !! name) as [[lg0 p|cs]|] eqn:Hl; try reflexivity.
    simpl. rewrite lookup_insert_ne by congruence. reflexivity.
Qed.

Lemma parent_of_set_logger (h h' : handle) (lg : Logger) (st : logging) :
  parent_of h' (set_logger h lg st) = parent_of h' st.
Proof.
  destruct h as [|name]; [destruct h'; reflexivity|]. simpl.
  destruct (loggerDict st !! name) as [[lg0 p|cs]|] eqn:Hl; try reflexivity.
  destruct h' as [|name']; [reflexivity|]. simpl.
  destruct (decide (name' = name)) as [->|Hne].
  - rewrite lookup_insert_eq, Hl. reflexivity.
  - rewrite lookup_insert_ne by congruence. reflexivity.
Qed.

Lemma disable_set_logger (h : handle) (lg : Logger) (st : logging) :
  disable (set_logger h lg st) = disable st.
Proof.
  destruct h as [|name]; [reflexivity|]. simpl.
  destruct (loggerDict st !! name) as [[lg0 p|cs]|]; reflexivity.
Qed.

(** The handler the factory attaches to a logger without handlers. *)
Lemma factory_handler_configured :
  configured (setFormatter (RichHandler_init true true true false)
                {| fmt := py "%(message)s"; datefmt := Some (py "[%X]") |}).
Proof. repeat split. Qed.

(** [rfind] gives an index of the string. *)
Lemma rfind_lt (c : N) (s : str) (i : nat) : rfind c s = Some i -> (i < length s)%nat.
Proof.
  revert i. induction s as [|x s IH]; intros i; simpl; [discriminate|].
  destruct (rfind c s) as [j|].
  - intros [= <-]. specialize (IH j eq_refl). lia.
  - destruct (x =? c)%N; [|discriminate]. intros [= <-]. lia.
Qed.

(** The loop of [_fixupParents] touches no logger: it adds and extends
    placeholders only. *)
Lemma _fixupParents_loop_registered (n : nat) (name : str) :
  forall (i : option nat) (d : gmap str entry) (k : str) (lg : Logger) (p : handle),
    fst (_fixupParents_loop n name i d) !! k = Some (Registered lg p)
    <-> d !! k = Some (Registered lg p).
Proof.
  induction n as [|n IH]; intros i d k lg p; [reflexivity|].
  destruct i as [[|i']|]; try reflexivity. cbn [_fixupParents_loop].
  destruct (d !! take (S i') name) as [[lg0 p0|cs]|] eqn:Hd; [reflexivity| |].
  - rewrite IH. destruct (decide (k = take (S i') name)) as [->|Hne].
    + rewrite lookup_insert_eq, Hd. split; discriminate.
    + rewrite lookup_insert_ne by congruence. reflexivity.
  - rewrite IH. destruct (decide (k = take (S i') name)) as [->|Hne].
    + rewrite lookup_insert_eq, Hd. split; discriminate.
    + rewrite lookup_insert_ne by congruence. reflexivity.
Qed.

(** The logger the loop finds is a logger of the registry, with a
    shorter name. *)
Lemma _fixupParents_loop_found (n : nat) (name : str) :
  forall (i : option nat) (d : gmap str entry) (substr : str),
    (forall k, i = Some k -> (k < length name)%nat) ->
    snd (_fixupParents_loop n name i d) = Some substr ->
    (length substr < length name)%nat.
Proof.
  induction n as [|n IH]; intros i d substr Hi; [discriminate|].
  destruct i as [[|i']|]; try discriminate. cbn [_fixupParents_loop].
  specialize (Hi (S i') eq_refl).
  assert (Hnext : forall k, rfind (ch ".") (take i' name) = Some k
                            -> (k < length name)%nat).
  { intros k Hk. apply rfind_lt in Hk. rewrite length_take in Hk. lia. }
  destruct (d !! take (S i') name) as [[lg0 p0|cs]|] eqn:Hd.
  - simpl. intros [= <-]. rewrite length_take. lia.
  - apply IH. exact Hnext.
  - apply IH. exact Hnext.
Qed.

(** The placeholders after the loop list what they listed before, and
    the new logger under shorter names. *)
Lemma _fixupParents_loop_placeholder (n : nat) (name : str) :
  forall (i : option nat) (d : gmap str entry) (k : str) (cs : list str) (c : str),
    (forall j, i = Some j -> (j < length name)%nat) ->
    fst (_fixupParents_loop n name i d) !! k = Some (PlaceHolder cs) ->
    c ∈ cs ->
    (exists cs', d !! k = Some (PlaceHolder cs') /\ c ∈ cs')
    \/ (c = name /\ (length k < length name)%nat).
Proof.
  induction n as [|n IH]; intros i d k cs c Hi; [simpl; eauto|].
  destruct i as [[|i']|]; try (simpl; eauto; fail). cbn [_fixupParents_loop].
  specialize (Hi (S i') eq_refl).
  assert (Hnext : forall j, rfind (ch ".") (take i' name) = Some j
                            -> (j < length name)%nat).
  { intros j Hj. apply rfind_lt in Hj. rewrite length_take in Hj. lia. }
  assert (Hlen : (length (take (S i') name) < length name)%nat)
    by (rewrite length_take; lia).
  destruct (d !! take (S i') name) as [[lg0 p0|cs0]|] eqn:Hd.
  - simpl. eauto.
  - intros Hk Hc. destruct (IH _ _ _ _ _ Hnext Hk Hc) as [(cs' & Hcs' & Hc')|Hnew];
      [|right; exact Hnew].
    destruct (decide (k = take (S i') name)) as [->|Hne].
    + rewrite lookup_insert_eq in Hcs'. injection Hcs' as <-.
      destruct (bool_decide (name ∈ cs0)); [left; eauto|].
      apply elem_of_app in Hc' as [Hc'|Hc']; [left; eauto|].
      apply list_elem_of_singleton in Hc'. right. split; [exact Hc'|exact Hlen].
    + rewrite lookup_insert_ne in Hcs' by congruence. left; eauto.
  - intros Hk Hc. destruct (IH _ _ _ _ _ Hnext Hk Hc) as [(cs' & Hcs' & Hc')|Hnew];
      [|right; exact Hnew].
    destruct (decide (k = take (S i') name)) as [->|Hne].
    + rewrite lookup_insert_eq in Hcs'. injection Hcs' as <-.
      apply list_elem_of_singleton in Hc'. right. split; [exact Hc'|exact Hlen].
    + rewrite lookup_insert_ne in Hcs' by congruence. left; eauto.
Qed.

(** [_fixupChildren] changes parents only. *)
Lemma _fixupChildren_registered (name : str) (loggerMap : list str) :
  forall (d : gmap str entry) (k : str) (lg : Logger) (p : handle),
    _fixupChildren name loggerMap d !! k = Some (Registered lg p) ->
    exists p0, d !! k = Some (Registered lg p0)
               /\ (p = p0 \/ (p = Named name /\ k ∈ loggerMap)).
Proof.
  unfold _fixupChildren.
  induction loggerMap as [|c l IH]; intros d k lg p; simpl; [eauto|].
  intros H. apply IH in H as (p1 & H & Hp).
  assert (Hstep : exists p0, d !! k = Some (Registered lg p0)
                             /\ (p1 = p0 \/ (p1 = Named name /\ k = c))).
  { destruct (d !! c) as [[lg0 q|cs]|] eqn:Hc; eauto.
    destruct (bool_decide (take (length name) (logger_name q) = name)); eauto.
    destruct (decide (k = c)) as [->|Hne].
    - rewrite lookup_insert_eq in H. injection H as <- <-. eauto.
    - rewrite lookup_insert_ne in H by congruence. eauto. }
  destruct Hstep as (p0 & Hd & Hp0). exists p0. split; [exact Hd|].
  destruct Hp as [->|[-> Hin]].
  - destruct Hp0 as [->|[-> ->]]; [left; reflexivity|right; split; [reflexivity|left]].
  - right. split; [reflexivity|right; exact Hin].
Qed.

Lemma _fixupChildren_placeholder (name : str) (loggerMap : list str) :
  forall (d : gmap str entry) (k : str) (cs : list str),
    _fixupChildren name loggerMap d !! k = Some (PlaceHolder cs) ->
    d !! k = Some (PlaceHolder cs).
Proof.
  unfold _fixupChildren.
  induction loggerMap as [|c l IH]; intros d k cs; simpl; [auto|].
  intros H. apply IH in H.
  destruct (d !! c) as [[lg0 q|cs0]|] eqn:Hc; auto.
  destruct (bool_decide (take (length name) (logger_name q) = name)); auto.
  destruct (decide (k = c)) as [->|Hne].
  - rewrite lookup_insert_eq in H. discriminate H.
  - rewrite lookup_insert_ne in H by congruence. exact H.
Qed.

Lemma _fixupChildren_keeps (name : str) (loggerMap : list str) :
  forall (d : gmap str entry) (k : str) (lg : Logger) (p0 : handle),
    d !! k = Some (Registered lg p0) ->
    exists p, _fixupChildren name loggerMap d !! k = Some (Registered lg p).
Proof.
  unfold _fixupChildren.
  induction loggerMap as [|c l IH]; intros d k lg p0; simpl; [eauto|].
  intros H.
  destruct (d !! c) as [[lg0 q|cs0]|] eqn:Hc; eauto.
  destruct (bool_decide (take (length name) (logger_name q) = name)); eauto.
  destruct (decide (k = c)) as [->|Hne].
  - rewrite H in Hc. injection Hc as <- <-.
    apply (IH _ c lg (Named name)). apply lookup_insert_eq.
  - apply (IH _ k lg p0). rewrite lookup_insert_ne by congruence. exact H.
Qed.

(** The logger a registry holds under a name. *)
Lemma logger_at_Named (name : str) (st : logging) (lg : Logger) :
  logger_at (Named name) st = Some lg
  <-> exists p, loggerDict st !! name = Some (Registered lg p).
Proof.
  simpl. destruct (loggerDict st !! name) as [[lg0 p|cs]|]; split;
    try discriminate; try (intros [p' H]; discriminate H).
  - intros [= ->]. eauto.
  - intros [p' [= -> ->]]. reflexivity.
Qed.

(** Two registries hold the same logger under a name when they hold
    the same logger with some parent. *)
Lemma logger_in_ext (d d' : gmap str entry) (k : str) :
  (forall lg, (exists p, d !! k = Some (Registered lg p))
              <-> (exists p, d' !! k = Some (Registered lg p))) ->
  match d !! k with Some (Registered lg _) => Some lg | _ => None end
  = match d' !! k with Some (Registered lg _) => Some lg | _ => None end.
Proof.
  intros H. destruct (d !! k) as [[lg p|cs]|] eqn:Hd.
  - destruct (proj1 (H lg) (ex_intro _ p eq_refl)) as [p' ->]. reflexivity.
  - destruct (d' !! k) as [[lg p|cs']|] eqn:Hk; try reflexivity.
    destruct (proj2 (H lg) (ex_intro _ p eq_refl)) as [p' Hp']. discriminate Hp'.
  - destruct (d' !! k) as [[lg p|cs']|] eqn:Hk; try reflexivity.
    destruct (proj2 (H lg) (ex_intro _ p eq_refl)) as [p' Hp']. discriminate Hp'.
Qed.

(** [getLogger]: the handle is determined by the name, the logger is in
    the registry afterwards, and no other logger changes. *)
Lemma getLogger_spec (name : str) (st : logging) :
  fst (getLogger name st) = handle_of name /\
  logger_at (handle_of name) (snd (getLogger name st))
  = Some (default Logger_init (logger_at (handle_of name) st)) /\
  (forall h', h' <> handle_of name ->
              logger_at h' (snd (getLogger name st)) = logger_at h' st) /\
  disable (snd (getLogger name st)) = disable st.
Proof.
  unfold getLogger, handle_of.
  destruct (bool_decide (name = []) || bool_decide (name = py "root")); cbn [fst snd].
  - repeat split.
  - destruct (loggerDict st !! name) as [[lg p|cs]|] eqn:Hl; cbn [fst snd].
    + cbn [logger_at]. rewrite Hl. repeat split.
    + split; [reflexivity|]. split; [|split; [|reflexivity]].
      * cbn [logger_at loggerDict]. unfold _fixupParents.
        rewrite lookup_insert_eq, Hl. reflexivity.
      * intros h' Hne. destruct h' as [|k]; cbn [logger_at loggerDict root];
          [reflexivity|].
        unfold _fixupParents. rewrite lookup_insert_ne by congruence.
        apply logger_in_ext. intros lg. split.
        -- intros [p H]. apply _fixupParents_loop_registered in H.
           apply _fixupChildren_registered in H as (p0 & H & _). eauto.
        -- intros [p H]. destruct (_fixupChildren_keeps name cs _ _ _ _ H) as [p1 Hp1].
           exists p1. apply _fixupParents_loop_registered. exact Hp1.
    + split; [reflexivity|]. split; [|split; [|reflexivity]].
      * cbn [logger_at loggerDict]. unfold _fixupParents.
        rewrite lookup_insert_eq, Hl. reflexivity.
      * intros h' Hne. destruct h' as [|k]; cbn [logger_at loggerDict root];
          [reflexivity|].
        unfold _fixupParents. rewrite lookup_insert_ne by congruence.
        apply logger_in_ext. intros lg.
        split; intros [p H]; exists p.
        -- apply _fixupParents_loop_registered in H. exact H.
        -- apply _fixupParents_loop_registered. exact H.
Qed.

(** The factory on any state: the logger it returns, what that logger is
    afterwards, and that no other logger changes. *)
Lemma setup_logger_spec (name : str) (lvl : Z) (st : logging) :
  let old := default Logger_init (logger_at (handle_of name) st) in
  fst (setup_logger name lvl st) = handle_of name /\
  (exists lg, logger_at (handle_of name) (snd (setup_logger name lvl st)) = Some lg
              /\ level lg = lvl /\ disabled lg = disabled old
              /\ propagate lg = propagate old
              /\ (handlers old <> [] -> handlers lg = handlers old)
              /\ (handlers old = [] ->
                  exists hd, handlers lg = [hd] /\ configured hd
                             /\ _last_time hd = None /\ console hd = []
                             /\ hd = setFormatter (RichHandler_init true true true false)
                                       {| fmt := py "%(message)s";
                                          datefmt := Some (py "[%X]") |})) /\
  (forall h', h' <> handle_of name ->
              logger_at h' (snd (setup_logger name lvl st)) = logger_at h' st) /\
  disable (snd (setup_logger name lvl st)) = disable st.
Proof.
  intros old.
  destruct (getLogger_spec name st) as (Hfst & Hat & Hother & Hdis).
  unfold setup_logger, mbind, M_bind, mret, M_ret.
  destruct (getLogger name st) as [h st0]. simpl in Hfst, Hat, Hother, Hdis. subst h.
  fold old in Hat.
  unfold setLevel, get_handlers. rewrite Hat, logger_at_set_eq by eauto. cbn [handlers].
  destruct (handlers old) as [|hd0 hs] eqn:Hh.
  - unfold addHandler. rewrite logger_at_set_eq by eauto.
    cbn [fst snd level handlers disabled propagate].
    split; [reflexivity|]. split; [|split].
    + eexists. rewrite logger_at_set_eq by (rewrite logger_at_set_eq; eauto).
      split; [reflexivity|].
      cbn [level handlers disabled propagate]. repeat split; try congruence.
      intros _. eexists. split; [reflexivity|].
      split; [exact factory_handler_configured|repeat split].
    + intros h' Hne. rewrite !logger_at_set_ne by exact Hne. apply Hother, Hne.
    + rewrite !disable_set_logger. exact Hdis.
  - cbn [fst snd]. split; [reflexivity|]. split; [|split].
    + eexists. rewrite logger_at_set_eq by eauto. split; [reflexivity|].
      cbn [level handlers disabled propagate]. repeat split; try congruence.
    + intros h' Hne. rewrite logger_at_set_ne by exact Hne. apply Hother, Hne.
    + rewrite disable_set_logger. exact Hdis.
Qed.
End LoggingFacts.

(** ** Proofs: the shape of the registry *)

Section HierarchyFacts.
Import Logging LoggingSpec.

#[local] Open Scope Z_scope.

Lemma hierarchy_set_logger (h : handle) (lg : Logger) (st : logging) :
  hierarchy (loggerDict st) -> hierarchy (loggerDict (set_logger h lg st)).
Proof.
  intros [Hp Hc]. destruct h as [|name]; [split; assumption|]. simpl.
  destruct (loggerDict st !! name) as [[lg0 p|cs]|] eqn:Hl; try (split; assumption).
  simpl. split.
  - intros k lg1 p1 Hk. destruct (decide (k = name)) as [->|Hne].
    + rewrite lookup_insert_eq in Hk. injection Hk as <- <-. exact (Hp _ _ _ Hl).
    + rewrite lookup_insert_ne in Hk by congruence. exact (Hp _ _ _ Hk).
  - intros k cs c Hk. destruct (decide (k = name)) as [->|Hne].
    + rewrite lookup_insert_eq in Hk. discriminate Hk.
    + rewrite lookup_insert_ne in Hk by congruence. exact (Hc _ _ _ Hk).
Qed.

(** Registering a logger keeps the shape of the registry. *)
Lemma hierarchy_fixupParents (name : str) (alogger : Logger) (d : gmap str entry) :
  name <> [] -> hierarchy d -> hierarchy (_fixupParents name alogger d).
Proof.
  intros Hname [Hp Hc]. unfold _fixupParents. cbv zeta.
  assert (Hi : forall k, rfind (ch ".") name = Some k -> (k < length name)%nat)
    by (intros k; apply rfind_lt).
  remember (_fixupParents_loop (length name) name (rfind (ch ".") name) d)
    as found eqn:Hfound.
  split.
  - intros k lg p Hk. destruct (decide (k = name)) as [->|Hne].
    + rewrite lookup_insert_eq in Hk. injection Hk as <- <-.
      destruct (snd found) as [substr|] eqn:Hs.
      * rewrite Hfound in Hs.
        apply _fixupParents_loop_found in Hs; [simpl; lia|exact Hi].
      * simpl. destruct name; [contradiction|simpl; lia].
    + rewrite lookup_insert_ne in Hk by congruence. rewrite Hfound in Hk.
      apply _fixupParents_loop_registered in Hk. exact (Hp _ _ _ Hk).
  - intros k cs c Hk Hin. destruct (decide (k = name)) as [->|Hne].
    + rewrite lookup_insert_eq in Hk. discriminate Hk.
    + rewrite lookup_insert_ne in Hk by congruence. rewrite Hfound in Hk.
      destruct (_fixupParents_loop_placeholder _ _ _ _ _ _ _ Hi Hk Hin)
        as [(cs' & Hcs' & Hc')|[-> Hlt]]; [exact (Hc _ _ _ Hcs' Hc')|exact Hlt].
Qed.

Lemma hierarchy_fixupChildren (name : str) (loggerMap : list str) (d : gmap str entry) :
  d !! name = Some (PlaceHolder loggerMap) -> hierarchy d ->
  hierarchy (_fixupChildren name loggerMap d).
Proof.
  intros Hname [Hp Hc]. split.
  - intros k lg p Hk. apply _fixupChildren_registered in Hk as (p0 & Hk & Hcase).
    destruct Hcase as [->|[-> Hin]]; [exact (Hp _ _ _ Hk)|].
    specialize (Hc _ _ _ Hname Hin). simpl. lia.
  - intros k cs c Hk Hin. apply _fixupChildren_placeholder in Hk.
    exact (Hc _ _ _ Hk Hin).
Qed.

Lemma hierarchy_getLogger (name : str) (st : logging) :
  hierarchy (loggerDict st) -> hierarchy (loggerDict (snd (getLogger name st))).
Proof.
  intros H. unfold getLogger.
  destruct (bool_decide (name = []) || bool_decide (name = py "root")) eqn:Hroot;
    [exact H|].
  assert (Hname : name <> []).
  { intros ->. discriminate Hroot. }
  destruct (loggerDict st !! name) as [[lg p|cs]|] eqn:Hl; cbn [snd loggerDict];
    [exact H| |].
  - apply hierarchy_fixupParents; [exact Hname|].
    apply hierarchy_fixupChildren; assumption.
  - apply hierarchy_fixupParents; assumption.
Qed.

Lemma hierarchy_setup (name : str) (lvl : Z) (st : logging) :
  hierarchy (loggerDict st) ->
  hierarchy (loggerDict (snd (setup_logger name lvl st))).
Proof.
  intros H. apply (hierarchy_getLogger name) in H.
  unfold setup_logger, mbind, M_bind, mret, M_ret.
  destruct (getLogger name st) as [h st0]. cbn [snd] in H.
  unfold setLevel, get_handlers.
  destruct (logger_at h st0) as [lg|] eqn:Hat.
  - rewrite logger_at_set_eq by eauto. cbn [handlers].
    destruct (handlers lg) as [|hd hs].
    + unfold addHandler. rewrite logger_at_set_eq by eauto. cbn [snd].
      apply hierarchy_set_logger, hierarchy_set_logger, H.
    + cbn [snd]. apply hierarchy_set_logger, H.
  - rewrite Hat. unfold addHandler. rewrite Hat. exact H.
Qed.

Lemma hierarchy_fresh : hierarchy (loggerDict fresh).
Proof.
  split; intros name; intros; simpl in *; rewrite lookup_empty in *; discriminate.
Qed.

End HierarchyFacts.

(** ** Proofs: what a log call leaves as it was *)

Section OutputFacts.
Import Logging LoggingSpec.

#[local] Open Scope Z_scope.

Lemma same_settings_refl (h : RichHandler) : same_settings h h.
Proof. repeat split. Qed.

Lemma same_settings_trans (h1 h2 h3 : RichHandler) :
  same_settings h1 h2 -> same_settings h2 h3 -> same_settings h1 h3.
Proof.
  unfold same_settings. intros (?&?&?&?&?&?&?) (?&?&?&?&?&?&?).
  repeat split; congruence.
Qed.

Lemma same_settings_configured (h h' : RichHandler) :
  same_settings h h' -> configured h -> configured h'.
Proof.
  unfold same_settings, configured. intros (?&?&?&?&?&?&?) (?&?&?&?&?&?&?).
  repeat split; congruence.
Qed.

Lemma same_logger_refl (lg : Logger) : same_logger lg lg.
Proof.
  repeat split. induction (handlers lg); constructor;
    [apply same_settings_refl|assumption].
Qed.

Lemma same_logger_trans (l1 l2 l3 : Logger) :
  same_logger l1 l2 -> same_logger l2 l3 -> same_logger l1 l3.
Proof.
  intros (?&?&?&H12) (?&?&?&H23). repeat split; try congruence.
  revert H23. generalize (handlers l3).
  induction H12 as [|h1 h2 hs1 hs2 Hh _ IH]; intros hs3 H23;
    inversion H23; subst; constructor.
  - eapply same_settings_trans; eassumption.
  - apply IH. assumption.
Qed.

Lemma output_only_refl (st : logging) : output_only st st.
Proof.
  split; [reflexivity|]. split; [apply same_logger_refl|].
  intros name. destruct (loggerDict st !! name) as [[lg p|cs]|]; auto.
  split; [reflexivity|apply same_logger_refl].
Qed.

Lemma output_only_trans (s1 s2 s3 : logging) :
  output_only s1 s2 -> output_only s2 s3 -> output_only s1 s3.
Proof.
  intros (Hd12 & Hr12 & H12) (Hd23 & Hr23 & H23).
  split; [congruence|]. split; [eapply same_logger_trans; eassumption|].
  intros name. specialize (H12 name). specialize (H23 name).
  destruct (loggerDict s1 !! name) as [[lg1 p1|cs1]|],
           (loggerDict s2 !! name) as [[lg2 p2|cs2]|],
           (loggerDict s3 !! name) as [[lg3 p3|cs3]|]; try contradiction; auto.
  - destruct H12 as [-> H12], H23 as [-> H23]. split; [reflexivity|].
    eapply same_logger_trans; eassumption.
  - congruence.
Qed.

Lemma output_only_set_logger (h : handle) (lg lg' : Logger) (st : logging) :
  logger_at h st = Some lg -> same_logger lg lg' ->
  output_only st (set_logger h lg' st).
Proof.
  intros Hat Hs. destruct h as [|name].
  - injection Hat as <-. split; [reflexivity|]. split; [exact Hs|].
    intros name. simpl. destruct (loggerDict st !! name) as [[lg1 p|cs]|]; auto.
    split; [reflexivity|apply same_logger_refl].
  - apply logger_at_Named in Hat as [p Hp]. simpl. rewrite Hp.
    split; [reflexivity|]. split; [apply same_logger_refl|].
    intros k. simpl. destruct (decide (k = name)) as [->|Hne].
    + rewrite lookup_insert_eq, Hp. split; [reflexivity|exact Hs].
    + rewrite lookup_insert_ne by congruence.
      destruct (loggerDict st !! k) as [[lg1 p1|cs]|]; auto.
      split; [reflexivity|apply same_logger_refl].
Qed.

Lemma output_only_logger_at (st st' : logging) (h : handle) :
  output_only st st' ->
  match logger_at h st, logger_at h st' with
  | Some lg, Some lg' => same_logger lg lg'
  | None, None => True
  | _, _ => False
  end.
Proof.
  intros (_ & Hr & Hd). destruct h as [|name]; [exact Hr|]. simpl.
  specialize (Hd name).
  destruct (loggerDict st !! name) as [[lg p|cs]|],
           (loggerDict st' !! name) as [[lg' p'|cs']|]; try contradiction; auto.
  apply Hd.
Qed.

Lemma output_only_parent_of (st st' : logging) (h : handle) :
  output_only st st' -> parent_of h st' = parent_of h st.
Proof.
  intros (_ & _ & Hd). destruct h as [|name]; [reflexivity|]. simpl.
  specialize (Hd name).
  destruct (loggerDict st !! name) as [[lg p|cs]|],
           (loggerDict st' !! name) as [[lg' p'|cs']|]; try contradiction; auto.
  destruct Hd as [-> _]. reflexivity.
Qed.

Lemma output_only_hierarchy (st st' : logging) :
  output_only st st' -> hierarchy (loggerDict st) -> hierarchy (loggerDict st').
Proof.
  intros (_ & _ & Hd) [Hp Hc]. split.
  - intros name lg' p' Hk. specialize (Hd name). rewrite Hk in Hd.
    destruct (loggerDict st !! name) as [[lg p|cs]|] eqn:Hl; try contradiction.
    destruct Hd as [-> _]. exact (Hp _ _ _ Hl).
  - intros name cs' c Hk Hin. specialize (Hd name). rewrite Hk in Hd.
    destruct (loggerDict st !! name) as [[lg p|cs]|] eqn:Hl; try contradiction.
    subst cs'. exact (Hc _ _ _ Hl Hin).
Qed.

Lemma output_only_invariant (st st' : logging) :
  output_only st st' -> invariant st -> invariant st'.
Proof.
  intros Ho [Hdis Hinv]. split; [destruct Ho as (-> & _); exact Hdis|].
  intros h lg' Hat'. pose proof (output_only_logger_at st st' h Ho) as Hl.
  rewrite Hat' in Hl. destruct (logger_at h st) as [lg|] eqn:Hat; [|contradiction].
  destruct Hl as (Hlv & Hd & Hpr & Hh).
  destruct (Hinv _ _ Hat) as (Hd0 & Hp0 & Hh0).
  split; [congruence|]. split; [congruence|].
  destruct Hh0 as [Hnil|(hd & Hhd & Hc)].
  - left. rewrite Hnil in Hh. inversion Hh. reflexivity.
  - right. rewrite Hhd in Hh. inversion Hh as [|? hd' ? hs' Hs Hrest]; subst.
    inversion Hrest; subst. exists hd'. split; [reflexivity|].
    eapply same_settings_configured; eassumption.
Qed.

Lemma getEffectiveLevel_loop_None (n : nat) (st : logging) :
  getEffectiveLevel_loop n None st = NOTSET.
Proof. destruct n; reflexivity. Qed.

Lemma output_only_effective (st st' : logging) :
  output_only st st' ->
  forall n c, getEffectiveLevel_loop n c st' = getEffectiveLevel_loop n c st.
Proof.
  intros Ho. induction n as [|n IH]; intros c; [reflexivity|].
  destruct c as [c|]; [|reflexivity]. cbn [getEffectiveLevel_loop].
  pose proof (output_only_logger_at st st' c Ho) as Hl.
  rewrite (output_only_parent_of st st' c Ho).
  destruct (logger_at c st) as [lg|], (logger_at c st') as [lg'|];
    try contradiction; [|reflexivity].
  destruct Hl as (-> & _). rewrite IH. reflexivity.
Qed.

Lemma output_only_isEnabledFor (st st' : logging) (logger : handle) (lvl : Z) :
  output_only st st' -> isEnabledFor logger lvl st' = isEnabledFor logger lvl st.
Proof.
  intros Ho. unfold isEnabledFor, getEffectiveLevel.
  pose proof (output_only_logger_at st st' logger Ho) as Hl.
  rewrite (output_only_effective st st' Ho).
  destruct Ho as (-> & _).
  destruct (logger_at logger st) as [lg|], (logger_at logger st') as [lg'|];
    try contradiction; [|reflexivity].
  destruct Hl as (_ & -> & _). reflexivity.
Qed.

Lemma output_only_lineage (st st' : logging) :
  output_only st st' ->
  forall n c, lineage_loop n c st' = lineage_loop n c st.
Proof.
  intros Ho. induction n as [|n IH]; intros c; [reflexivity|].
  destruct c as [c|]; [|reflexivity]. cbn [lineage_loop].
  pose proof (output_only_logger_at st st' c Ho) as Hl.
  rewrite (output_only_parent_of st st' c Ho).
  destruct (logger_at c st) as [lg|], (logger_at c st') as [lg'|];
    try contradiction; [|reflexivity].
  destruct Hl as (_ & _ & -> & _). rewrite IH. reflexivity.
Qed.

(** What a log call does to a handler. *)
Lemma console_print_same_settings (h : RichHandler) (r : LogRecord) (t : Text) :
  same_settings h (console_print h r t).
Proof. repeat split. Qed.

Lemma emit_same_settings (h h' : RichHandler) (r : LogRecord) :
  emit h r = Returns h' -> same_settings h h'.
Proof.
  unfold emit. destruct (render_message h (format h r)) as [t|]; [|discriminate].
  intros [= <-]. apply console_print_same_settings.
Qed.

Lemma handlers_handle_same_settings (r : LogRecord) (hs : list RichHandler) :
  forall hs', handlers_handle hs r = Returns hs' -> Forall2 same_settings hs hs'.
Proof.
  induction hs as [|h hs IH]; intros hs'; cbn [handlers_handle].
  - intros [= <-]. constructor.
  - destruct (levelno r >=? handler_level h).
    + destruct (emit h r) as [h'|] eqn:He; [|discriminate].
      destruct (handlers_handle hs r) as [hs''|]; [|discriminate].
      intros [= <-]. constructor; [eapply emit_same_settings; eassumption|].
      apply IH. reflexivity.
    + destruct (handlers_handle hs r) as [hs''|]; [|discriminate].
      intros [= <-]. constructor; [apply same_settings_refl|]. apply IH. reflexivity.
Qed.

Lemma callHandlers_loop_output_only (r : LogRecord) (n : nat) :
  forall c found st found' st',
    callHandlers_loop n c found r st = Returns (found', st') -> output_only st st'.
Proof.
  induction n as [|n IH]; intros c found st found' st'.
  - intros [= _ <-]. apply output_only_refl.
  - destruct c as [c|]; [|intros [= _ <-]; apply output_only_refl].
    cbn [callHandlers_loop].
    destruct (logger_at c st) as [lg|] eqn:Hat;
      [|intros [= _ <-]; apply output_only_refl].
    destruct (handlers_handle (handlers lg) r) as [hs|] eqn:Hh; [|discriminate].
    intros H. apply IH in H. eapply output_only_trans; [|exact H].
    apply (output_only_set_logger c lg); [exact Hat|].
    repeat split. apply handlers_handle_same_settings in Hh. exact Hh.
Qed.

Lemma log_output_only (logger : handle) (r : LogRecord) (st st' : logging) :
  log logger r st = Returns st' -> output_only st st'.
Proof.
  unfold log, Logger_handle, callHandlers.
  destruct (isEnabledFor logger (levelno r) st);
    [|intros [= <-]; apply output_only_refl].
  destruct (logger_at logger st) as [lg|]; [|intros [= <-]; apply output_only_refl].
  destruct (disabled lg); [intros [= <-]; apply output_only_refl|].
  destruct (callHandlers_loop (height logger) (Some logger) 0 r st)
    as [[found st1]|] eqn:Hl; [|discriminate].
  apply callHandlers_loop_output_only in Hl.
  destruct (bool_decide (found = 0%nat) && (levelno r >=? WARNING));
    intros [= <-]; [|exact Hl].
  destruct Hl as (Hd & Hr & Hn). split; [exact Hd|]. split; [exact Hr|exact Hn].
Qed.

End OutputFacts.

(** ** Proofs: the states the program can bring about *)

Section ReachableFacts.
Import Logging LoggingSpec.

#[local] Open Scope Z_scope.

Lemma invariant_import : invariant (snd module_logger).
Proof.
  split; [reflexivity|]. intros h lg Hl.
  destruct (setup_logger_spec default_name default_level fresh)
    as (_ & (lg1 & Hat & _ & Hdis & Hprop & _ & Hnew) & Hother & _).
  fold module_logger in Hat, Hother.
  destruct (decide (h = handle_of default_name)) as [->|Hne].
  - rewrite Hat in Hl. injection Hl as <-. split; [exact Hdis|]. split; [exact Hprop|].
    right. destruct (Hnew eq_refl) as (hd & Hhd & Hc & _). eauto.
  - rewrite (Hother h Hne) in Hl. destruct h as [|n]; simpl in Hl.
    + injection Hl as <-. split; [reflexivity|]. split; [reflexivity|left; reflexivity].
    + rewrite lookup_empty in Hl. discriminate Hl.
Qed.

Lemma invariant_setup (st : logging) (name : str) (lvl : Z) :
  invariant st -> invariant (snd (setup_logger name lvl st)).
Proof.
  intros [Hd Hinv].
  destruct (setup_logger_spec name lvl st)
    as (_ & (lg1 & Hat & _ & Hdis & Hprop & Hold & Hnew) & Hother & Hdisable).
  split; [congruence|]. intros h lg Hl.
  destruct (decide (h = handle_of name)) as [->|Hne].
  - rewrite Hat in Hl. injection Hl as <-.
    destruct (logger_at (handle_of name) st) as [lg0|] eqn:H0; simpl in *.
    + destruct (Hinv _ _ H0) as (Hdis0 & Hprop0 & [Hnil|(hd & Hhd & Hc)]).
      * split; [congruence|]. split; [congruence|]. right.
        destruct (Hnew Hnil) as (hd & Hhd & Hc & _). eauto.
      * split; [congruence|]. split; [congruence|]. right. exists hd. split; [|exact Hc].
        rewrite Hold; [exact Hhd|]. rewrite Hhd. discriminate.
    + split; [exact Hdis|]. split; [exact Hprop|]. right.
      destruct (Hnew eq_refl) as (hd & Hhd & Hc & _). eauto.
  - rewrite (Hother h Hne) in Hl. exact (Hinv _ _ Hl).
Qed.

Lemma reach_tags_output_only (st : logging) (logger : handle) (lg : Logger)
    (hd : RichHandler) (record : LogRecord) (styled : Text) :
  logger_at logger st = Some lg -> handlers lg = [hd] ->
  output_only st
    (set_logger logger
       {| level := level lg; handlers := [console_print hd record styled];
          disabled := disabled lg; propagate := propagate lg |} st).
Proof.
  intros Hat Hh. apply (output_only_set_logger logger lg); [exact Hat|].
  repeat split. cbn [handlers]. rewrite Hh.
  constructor; [apply console_print_same_settings|constructor].
Qed.

Lemma reachable_invariant (st : logging) :
  reachable st -> invariant st /\ hierarchy (loggerDict st).
Proof.
  induction 1 as [|st name lvl _ [IH IHh]|st st' logger record _ [IH IHh] Hlog
                  |st logger lg hd record styled _ [IH IHh] Hat Hh].
  - split; [apply invariant_import|]. apply hierarchy_setup, hierarchy_fresh.
  - split; [apply invariant_setup, IH|apply hierarchy_setup, IHh].
  - apply log_output_only in Hlog.
    split; [eapply output_only_invariant|eapply output_only_hierarchy]; eassumption.
  - pose proof (reach_tags_output_only st logger lg hd record styled Hat Hh) as Ho.
    split; [eapply output_only_invariant|eapply output_only_hierarchy]; eassumption.
Qed.

(** The walk up the hierarchy goes to loggers of smaller height. *)
Lemma parent_of_height (st : logging) (c p : handle) :
  hierarchy (loggerDict st) -> parent_of c st = Some p -> (height p < height c)%nat.
Proof.
  intros [Hp _]. destruct c as [|name]; [discriminate|]. simpl.
  destruct (loggerDict st !! name) as [[lg q|cs]|] eqn:Hl; try discriminate.
  intros [= ->]. specialize (Hp _ _ _ Hl). lia.
Qed.

Lemma lineage_loop_height (st : logging) :
  hierarchy (loggerDict st) ->
  forall n c h, h ∈ lineage_loop n (Some c) st -> (height h <= height c)%nat.
Proof.
  intros Hh. induction n as [|n IH]; intros c h; [intros H; inversion H|].
  cbn [lineage_loop]. destruct (logger_at c st) as [lg|]; [|intros H; inversion H].
  intros H. apply elem_of_cons in H as [->|H]; [lia|].
  destruct (propagate lg); [|destruct n; inversion H].
  destruct (parent_of c st) as [p|] eqn:Hp; [|destruct n; inversion H].
  apply IH in H. apply (parent_of_height st c p Hh) in Hp. lia.
Qed.

(** Fuel: any bound above the height of the logger gives the same walk. *)
Lemma getEffectiveLevel_loop_fuel (st : logging) :
  hierarchy (loggerDict st) ->
  forall n m c, (height c <= n)%nat -> (height c <= m)%nat ->
    getEffectiveLevel_loop n (Some c) st = getEffectiveLevel_loop m (Some c) st.
Proof.
  intros Hh. induction n as [|n IH]; intros m c Hn Hm.
  - destruct c; simpl in Hn; lia.
  - destruct m as [|m]; [destruct c; simpl in Hm; lia|].
    cbn [getEffectiveLevel_loop]. destruct (logger_at c st) as [lg|]; [|reflexivity].
    destruct (level lg =? NOTSET); [|reflexivity].
    destruct (parent_of c st) as [p|] eqn:Hp.
    + apply (parent_of_height st c p Hh) in Hp. apply IH; lia.
    + rewrite !getEffectiveLevel_loop_None. reflexivity.
Qed.

Lemma lineage_loop_fuel (st : logging) :
  hierarchy (loggerDict st) ->
  forall n m c, (height c <= n)%nat -> (height c <= m)%nat ->
    lineage_loop n (Some c) st = lineage_loop m (Some c) st.
Proof.
  intros Hh. induction n as [|n IH]; intros m c Hn Hm.
  - destruct c; simpl in Hn; lia.
  - destruct m as [|m]; [destruct c; simpl in Hm; lia|].
    cbn [lineage_loop]. destruct (logger_at c st) as [lg|]; [|reflexivity].
    f_equal. destruct (propagate lg); [|destruct n, m; reflexivity].
    destruct (parent_of c st) as [p|] eqn:Hp.
    + apply (parent_of_height st c p Hh) in Hp. apply IH; lia.
    + destruct n, m; reflexivity.
Qed.

End ReachableFacts.

(** ** Proofs: the entries a log call prints *)

Section PrintFacts.
Import Logging LoggingSpec.

#[local] Open Scope Z_scope.

(** What the factory's handler does with a record whose message has no
    markup to parse. *)
Lemma emit_configured (hd : RichHandler) (record : LogRecord) :
  configured hd -> tag_free record = true ->
  emit hd record = Returns (console_print hd record (from_markup (message record))).
Proof.
  intros (_ & _ & _ & _ & _ & Hmarkup & Hfmt) Htag.
  unfold emit, render_message, format, Text_from_markup. rewrite Hmarkup, Hfmt.
  cbn [fmt]. change (formatMessage _ _ record) with (message record ++ []).
  rewrite app_nil_r. unfold tag_free in Htag. apply negb_true_iff in Htag.
  rewrite Htag. reflexivity.
Qed.

Lemma console_print_console (hd : RichHandler) (record : LogRecord) :
  configured hd ->
  console (console_print hd record (from_markup (message record)))
  = console hd ++ [printed_row hd record].
Proof.
  intros (Hlevel & Htime & Homit & Hlev & Hpath & Hmarkup & Hfmt).
  unfold console_print, render, printed_row, log_time_display. simpl.
  rewrite Htime, Homit, Hlev, Hpath, Hfmt. simpl.
  rewrite andb_true_r. reflexivity.
Qed.

Lemma handlers_handle_printed (record : LogRecord) (hs : list RichHandler) :
  Forall configured hs -> tag_free record = true -> 0 <= levelno record ->
  handlers_handle hs record
  = Returns (map (fun hd => console_print hd record (from_markup (message record))) hs).
Proof.
  intros Hc Htag Hpos. induction Hc as [|hd hs Hhd _ IH]; [reflexivity|].
  cbn [handlers_handle map]. rewrite IH.
  destruct Hhd as (Hlevel & Hrest). rewrite Hlevel.
  destruct (Z.geb_spec (levelno record) NOTSET) as [_|Hlt];
    [|unfold NOTSET in Hlt; lia].
  rewrite emit_configured; [reflexivity| |exact Htag].
  split; [exact Hlevel|exact Hrest].
Qed.

Lemma invariant_handlers (st : logging) (h : handle) (lg : Logger) :
  invariant st -> logger_at h st = Some lg ->
  propagate lg = true /\ Forall configured (handlers lg).
Proof.
  intros [_ Hinv] Hat. destruct (Hinv _ _ Hat) as (_ & Hp & [Hnil|(hd & Hhd & Hc)]).
  - rewrite Hnil. split; [exact Hp|constructor].
  - rewrite Hhd. split; [exact Hp|constructor; [exact Hc|constructor]].
Qed.

Lemma callHandlers_loop_None (n : nat) (found : nat) (record : LogRecord)
    (st : logging) :
  callHandlers_loop n None found record st = Returns (found, st).
Proof. destruct n; reflexivity. Qed.

Lemma lineage_loop_None (n : nat) (st : logging) : lineage_loop n None st = [].
Proof. destruct n; reflexivity. Qed.

(** The walk of [callHandlers] for a record without markup, in a state
    the program can bring about: every logger on the way has its
    handlers print the record, and no other logger changes. *)
Lemma callHandlers_loop_printed (record : LogRecord) :
  tag_free record = true -> 0 <= levelno record ->
  forall n c found st,
    invariant st -> hierarchy (loggerDict st) ->
    exists found' st',
      callHandlers_loop n (Some c) found record st = Returns (found', st')
      /\ (found <= found')%nat
      /\ (n <> 0%nat -> forall lg, logger_at c st = Some lg ->
                                   (found + length (handlers lg) <= found')%nat)
      /\ (forall h, h ∈ lineage_loop n (Some c) st ->
                    logger_at h st' = printed_on record <$> logger_at h st)
      /\ (forall h, h ∉ lineage_loop n (Some c) st -> logger_at h st' = logger_at h st).
Proof.
  intros Htag Hpos. induction n as [|n IH]; intros c found st Hinv Hh.
  - exists found, st. split; [reflexivity|]. split; [lia|]. split; [congruence|].
    split; [intros h H; inversion H|reflexivity].
  - cbn [callHandlers_loop lineage_loop].
    destruct (logger_at c st) as [lg|] eqn:Hat.
    2:{ exists found, st. split; [reflexivity|]. split; [lia|].
        split; [intros _ lg H; discriminate H|].
        split; [intros h H; inversion H|reflexivity]. }
    destruct (invariant_handlers st c lg Hinv Hat) as [Hprop Hconf].
    rewrite (handlers_handle_printed record _ Hconf Htag Hpos).
    change {| level := level lg;
              handlers := map (fun hd => console_print hd record
                                           (from_markup (message record)))
                              (handlers lg);
              disabled := disabled lg; propagate := propagate lg |}
      with (printed_on record lg).
    rewrite Hprop.
    assert (Ho : output_only st (set_logger c (printed_on record lg) st)).
    { apply (output_only_set_logger c lg); [exact Hat|]. repeat split.
      cbn [printed_on handlers]. clear. induction (handlers lg); constructor;
        [apply console_print_same_settings|assumption]. }
    destruct (parent_of c st) as [p|] eqn:Hp.
    + destruct (IH p (found + length (handlers lg))%nat
                  (set_logger c (printed_on record lg) st)
                  (output_only_invariant _ _ Ho Hinv)
                  (output_only_hierarchy _ _ Ho Hh))
        as (found' & st' & Hloop & Hle & _ & Hin & Hout).
      rewrite (output_only_lineage _ _ Ho) in Hin, Hout.
      assert (Hc : c ∉ lineage_loop n (Some p) st).
      { intros H. apply (lineage_loop_height st Hh) in H.
        apply (parent_of_height st c p Hh) in Hp. lia. }
      exists found', st'. split; [exact Hloop|]. split; [lia|].
      split; [intros _ lg' [= <-]; exact Hle|]. split.
      * intros h H. apply elem_of_cons in H as [->|H].
        -- rewrite (Hout c Hc), logger_at_set_eq by eauto. rewrite Hat. reflexivity.
        -- rewrite (Hin h H). rewrite logger_at_set_ne; [reflexivity|].
           intros ->. exact (Hc H).
      * intros h H. apply not_elem_of_cons in H as [Hne H].
        rewrite (Hout h H). apply logger_at_set_ne. exact Hne.
    + rewrite callHandlers_loop_None, lineage_loop_None.
      eexists _, _. split; [reflexivity|]. split; [lia|].
      split; [intros _ lg' [= <-]; lia|]. split.
      * intros h H. apply list_elem_of_singleton in H as ->.
        rewrite logger_at_set_eq by eauto. rewrite Hat. reflexivity.
      * intros h H. apply not_elem_of_cons in H as [Hne _].
        apply logger_at_set_ne. exact Hne.
Qed.

(** A log call with a record without markup, in a state the program can
    bring about. *)
Lemma log_printed (st : logging) (logger : handle) (record : LogRecord) :
  invariant st -> hierarchy (loggerDict st) ->
  tag_free record = true -> sinks st logger <> [] ->
  exists st',
    log logger record st = Returns st'
    /\ forall h,
         logger_at h st'
         = if accepts st logger record && bool_decide (h ∈ lineage logger st)
           then printed_on record <$> logger_at h st
           else logger_at h st.
Proof.
  intros Hinv Hh Htag Hs. unfold log, accepts.
  destruct (isEnabledFor logger (levelno record) st) eqn:Hen;
    [|exists st; split; reflexivity].
  unfold isEnabledFor in Hen. unfold Logger_handle, callHandlers.
  unfold sinks in Hs.
  destruct (logger_at logger st) as [lg|] eqn:Hat; [|discriminate Hen].
  destruct Hinv as [Hdis Hinv']. destruct (Hinv' _ _ Hat) as (Hd & _).
  rewrite Hd, Hdis in Hen. rewrite Hd.
  destruct (Z.geb_spec 0 (levelno record)) as [|Hpos]; [discriminate Hen|].
  destruct (callHandlers_loop_printed record Htag ltac:(lia) (height logger) logger 0%nat
              st (conj Hdis Hinv') Hh)
    as (found' & st' & Hloop & _ & Hfound & Hin & Hout).
  rewrite Hloop.
  assert (Hne : found' <> 0%nat).
  { specialize (Hfound ltac:(destruct logger; discriminate) lg Hat).
    destruct (handlers lg); [contradiction|]. simpl in Hfound. lia. }
  rewrite bool_decide_eq_false_2 by exact Hne. cbn [andb].
  exists st'. split; [reflexivity|]. intros h. unfold lineage.
  destruct (decide (h ∈ lineage_loop (height logger) (Some logger) st)) as [H|H].
  - rewrite bool_decide_eq_true_2 by exact H. apply Hin, H.
  - rewrite bool_decide_eq_false_2 by exact H. apply Hout, H.
Qed.

Lemma lineage_head (st : logging) (logger : handle) :
  is_Some (logger_at logger st) -> logger ∈ lineage logger st.
Proof.
  intros [lg Hat]. unfold lineage. destruct logger; simpl in *.
  - left.
  - simpl in Hat. rewrite Hat. left.
Qed.

End PrintFacts.

(** ** The logger factory: the claims *)

Section LoggingClaims.
Import Logging LoggingSpec.

#[local] Open Scope Z_scope.

(** After a call of the factory the logger it returns has exactly one
    handler, configured as the factory configures it. *)
Lemma setup_logger_one_handler (st : logging) (name : str) (lvl : Z) :
  reachable st ->
  exists lg hd,
    logger_at (handle_of name) (snd (setup_logger name lvl st)) = Some lg /\
    handlers lg = [hd] /\ configured hd.
Proof.
  intros Hreach.
  assert (Hinv : invariant (snd (setup_logger name lvl st)))
    by (apply reachable_invariant, reach_setup, Hreach).
  destruct (setup_logger_spec name lvl st)
    as (_ & (lg & Hat & _ & _ & _ & Ho & Hn) & _).
  exists lg. destruct (proj2 Hinv _ _ Hat) as (_ & _ & [Hnil|(hd & Hhd & Hc)]).
  - exfalso.
    destruct (handlers (default Logger_init (logger_at (handle_of name) st)))
      as [|h0 hs] eqn:Hh.
    + destruct (Hn eq_refl) as (hd & Hhd & _). congruence.
    + rewrite Ho in Hnil by discriminate. discriminate Hnil.
  - exists hd. split; [exact Hat|]. split; assumption.
Qed.

(** C2.  In every state the program can bring about, two calls of the
    factory with the same name, whatever the two levels, return the same
    logger, and after both that logger has exactly one handler, the
    console handler the factory attaches: the one it had after the first
    call. *)
Theorem setup_logger_idempotent (st : logging) (name : str) (l1 l2 : Z) :
  reachable st ->
  let first := setup_logger name l1 st in
  let second := setup_logger name l2 (snd first) in
  fst second = fst first /\
  exists hd, sinks (snd first) (fst first) = [hd] /\
             sinks (snd second) (fst second) = [hd] /\
             configured hd.
Proof.
  intros Hreach first second.
  destruct (setup_logger_one_handler st name l1 Hreach) as (lg1 & hd & Hat1 & Hhd & Hc).
  destruct (setup_logger_spec name l1 st) as (Hf1 & _).
  destruct (setup_logger_spec name l2 (snd first))
    as (Hf2 & (lg2 & Hat2 & _ & _ & _ & Hold & _) & _).
  fold first in Hf1, Hat1, Hold, Hat2. fold second in Hf2, Hat2.
  rewrite Hat1 in Hold. simpl in Hold.
  split; [congruence|].
  exists hd. unfold sinks. rewrite Hf1, Hf2, Hat1, Hat2.
  split; [exact Hhd|]. split; [|exact Hc].
  rewrite Hold; [exact Hhd|]. rewrite Hhd. discriminate.
Qed.

Lemma setup_logger_idempotent_witness :
  reachable (snd module_logger) /\
  fst (setup_logger default_name DEBUG
         (snd (setup_logger default_name default_level (snd module_logger))))
  = fst (setup_logger default_name default_level (snd module_logger)) /\
  length (sinks (snd (setup_logger default_name DEBUG
                        (snd (setup_logger default_name default_level
                                (snd module_logger)))))
                (Named default_name)) = 1%nat.
Proof.
  split; [exact reach_import|].
  destruct (setup_logger_idempotent (snd module_logger) default_name
              default_level DEBUG reach_import) as (Hsame & hd & _ & H2 & _).
  split; [exact Hsame|].
  change (Named default_name)
    with (fst (setup_logger default_name DEBUG
                 (snd (setup_logger default_name default_level (snd module_logger))))).
  rewrite H2. reflexivity.
Defined.




(** A message with an opening bracket: the embedding stops where rich
    parses it for tags. *)
Example tags_parsed :
  log (fst module_logger)
      {| levelno := INFO; message := py "done [/nope]"; created := created hello;
         filename := filename hello; lineno := lineno hello |}
      (snd module_logger)
  = ParsesTags.
Proof. vm_compute. reflexivity. Qed.


End LoggingClaims.

(** ** Further properties of the settings provider *)

Section SettingsCoverage.
Import Json Config ConfigSpec Coverage.

Lemma cannot_decode_iff (vars : gmap str str) (f : Field) :
  cannot_decode vars f = true <-> undecodable vars f.
Proof.
  unfold cannot_decode, undecodable.
  destruct (prepare_field_value f (vars !! field_name f)); split; congruence.
Qed.

(** A source stops at the first field, in the order it is given, whose
    text it cannot decode. *)
Lemma source_call_first (src : source) (vars : gmap str str) (fields : list Field) :
  forall data,
    match List.find (cannot_decode vars) fields with
    | Some f => source_call src vars fields data = Raise (SettingsError f src)
    | None => exists data', source_call src vars fields data = Ok data'
    end.
Proof.
  induction fields as [|f fields IH]; intros data; simpl.
  - eexists. reflexivity.
  - unfold cannot_decode at 1.
    destruct (prepare_field_value f (vars !! field_name f)) as [[j|]|];
      [apply IH|apply IH|reflexivity].
Qed.

(** X1.  The provider returns a snapshot exactly when no source holds a
    text it cannot decode and no field's selected value has the wrong
    type: it never raises on a well-formed configuration. *)
Theorem snapshot_iff_well_formed (p : process) :
  (exists s, fst (get_settings p) = Ok s) <->
  (forall src f, ~ undecodable (vars_of src p) f) /\ (forall f, ~ ill_typed p f).
Proof.
  simpl. split.
  - intros [s Hs]. apply Settings_init_Ok in Hs as [Hu Hr]. split; [exact Hu|].
    intros f Hill. apply resolve_None_iff in Hill. rewrite Hr in Hill. discriminate Hill.
  - intros [Hu Hill]. apply Settings_init_total; [exact Hu|].
    intros f. destruct (resolve p f) as [x|] eqn:Hr; [eauto|].
    apply resolve_None_iff in Hr. exfalso. exact (Hill f Hr).
Qed.

(** X2.  Which error is raised when several values are at fault: the
    environment is read first and the fields in the order of the class
    body, so the error names the first field whose environment text
    cannot be decoded; the override file is only blamed when the
    environment decodes. *)
Theorem first_error_reported (p : process) (f : Field) :
  (first_undecodable (environ p) = Some f ->
   fst (get_settings p) = Raise (SettingsError f EnvSettingsSource)) /\
  (first_undecodable (environ p) = None ->
   first_undecodable (default ∅ (dotenv_file p)) = Some f ->
   fst (get_settings p) = Raise (SettingsError f DotEnvSettingsSource)).
Proof.
  simpl. unfold Settings_init, _settings_build_values, first_undecodable. split.
  - intros Hf.
    pose proof (source_call_first EnvSettingsSource (environ p) model_fields ∅) as H.
    rewrite Hf in H. rewrite H. reflexivity.
  - intros Hn Hf.
    pose proof (source_call_first EnvSettingsSource (environ p) model_fields ∅) as H.
    rewrite Hn in H. destruct H as [env_state ->].
    pose proof (source_call_first DotEnvSettingsSource (default ∅ (dotenv_file p))
                  model_fields ∅) as H.
    rewrite Hf in H. rewrite H. reflexivity.
Qed.

(** The decoder gives an array for a text that begins with an opening
    bracket only. *)
Lemma scan_once_JArr (fuel : nat) (s : str) (items : list json) (r : str) :
  scan_once fuel s = Some (JArr items, r) -> exists s1, s = ch "[" :: s1.
Proof.
  destruct fuel as [|fuel]; [discriminate|]. destruct s as [|c s1]; [discriminate|].
  cbn [scan_once].
  destruct (c =? DQUOTE);
    [destruct (scanstring s1) as [[? ?]|]; discriminate|].
  destruct (c =? ch "{");
    [destruct (JSONObject (scan_once fuel) s1) as [[? ?]|]; discriminate|].
  destruct (N.eqb_spec c (ch "[")) as [->|_]; [eauto|].
  destruct (strip_prefix (py "null") (c :: s1)); [discriminate|].
  destruct (strip_prefix (py "true") (c :: s1)); [discriminate|].
  destruct (strip_prefix (py "false") (c :: s1)); [discriminate|].
  destruct (match_number (c :: s1)) as [[? ?]|]; [discriminate|].
  destruct (strip_prefix (py "NaN") (c :: s1)); [discriminate|].
  destruct (strip_prefix (py "Infinity") (c :: s1)); [discriminate|].
  destruct (strip_prefix (py "-Infinity") (c :: s1)); discriminate.
Qed.

Lemma loads_JArr (v : str) (items : list json) :
  loads v = Some (JArr items) -> bracketed v = true.
Proof.
  unfold loads, bracketed.
  destruct (scan_once (S (length v)) (skip_ws v)) as [[j r]|] eqn:Hs; [|discriminate].
  destruct (skip_ws r); [|discriminate]. intros [= ->].
  apply scan_once_JArr in Hs as [s1 ->]. reflexivity.
Qed.

(** X3.  A list setting is only ever taken from a JSON array.  When the
    text the environment holds for it does not begin, after blanks,
    with an opening bracket (a blank text, a bare word, a list of words
    separated by commas), the provider returns no snapshot: it raises.
    The one exception is the JSON literal [null], which counts as no
    value.  The text is never split into items. *)
Theorem unbracketed_list_value (p : process) (F : Field) (v : str) :
  field_annotation F = ListStr ->
  environ p !! field_name F = Some v ->
  bracketed v = false ->
  loads v = Some JNull \/ exists e, fst (get_settings p) = Raise e.
Proof.
  intros HF Hv Hb. simpl.
  destruct (Settings_init p) as [s|e] eqn:Hs; [|right; eauto]. left.
  apply Settings_init_Ok in Hs as [Hu Hr].
  specialize (Hu EnvSettingsSource F). specialize (Hr F).
  unfold undecodable, vars_of in Hu.
  unfold resolve, selected, found in Hr.
  unfold prepare_field_value, field_is_complex in Hu, Hr.
  rewrite Hv, HF in Hu, Hr.
  destruct (loads v) as [j|] eqn:Hl; [|contradiction].
  destruct j as [|b|n|x|items|m]; try reflexivity; exfalso;
    try (unfold validate_field in Hr; rewrite HF in Hr; discriminate Hr).
  apply loads_JArr in Hl. congruence.
Qed.

Lemma unbracketed_list_value_witness :
  bracketed (py "need a tool,pay for") = false /\
  loads (py "need a tool,pay for") <> Some JNull /\
  exists e, fst (get_settings p_bare) = Raise e.
Proof.
  assert (Hb : bracketed (py "need a tool,pay for") = false) by reflexivity.
  assert (Hn : loads (py "need a tool,pay for") <> Some JNull)
    by (vm_compute; discriminate).
  split; [exact Hb|]. split; [exact Hn|].
  destruct (unbracketed_list_value p_bare F_DEFAULT_KEYWORDS (py "need a tool,pay for")
              eq_refl) as [Hnull|He]; [vm_compute; reflexivity|exact Hb| |exact He].
  contradiction.
Defined.

(** X4.  An override file that python-dotenv reads and in which it
    finds none of the seven names gives the same outcome as no override
    file. *)
Theorem foreign_file_like_no_file (p : process) (d : gmap str str) :
  dotenv_file p = Some d ->
  (forall f, d !! field_name f = None) ->
  fst (get_settings p) = fst (get_settings (without_file p)).
Proof.
  intros Hd Hnone. simpl. apply Settings_init_ext; intros f; [reflexivity|].
  rewrite Hd. simpl. rewrite Hnone. symmetry. apply lookup_empty.
Qed.

Lemma foreign_file_like_no_file_witness :
  (forall f, default ∅ (dotenv_file p_foreign_file) !! field_name f = None) /\
  fst (get_settings p_foreign_file) = fst (get_settings (without_file p_foreign_file)).
Proof.
  assert (H : forall f, default ∅ (dotenv_file p_foreign_file) !! field_name f = None)
    by (intros f; destruct f; vm_compute; reflexivity).
  split; [exact H|].
  exact (foreign_file_like_no_file p_foreign_file _ eq_refl H).
Defined.

Lemma file_fixed_setenv (p : process) (k v : str) :
  file_fixed p ->
  dotenv_file (setenv k v p) = dotenv_file p /\ file_fixed (setenv k v p).
Proof.
  intros Hf. split; [|exact Hf].
  unfold dotenv_file. simpl. destruct (dotenv_values p) as [values|] eqn:Hd; [|reflexivity].
  simpl. f_equal. apply (Hf values Hd).
Qed.

(** X5.  Setting several distinct variables one after the other, each
    to a well-formed value, on a configuration the provider accepts and
    whose override file holds no reference (it reads the same in every
    environment), gives a snapshot in which each of those fields holds
    its new value and every other field is as before. *)
Theorem several_variables_override (updates : list (Field * str)) :
  forall (p : process) (s1 : Settings),
  NoDup (map fst updates) ->
  (forall u, u ∈ updates -> is_Some (coerce (fst u) (snd u))) ->
  file_fixed p ->
  fst (get_settings p) = Ok s1 ->
  exists s2, fst (get_settings (setenv_all updates p)) = Ok s2
    /\ (forall u, u ∈ updates -> coerce (fst u) (snd u) = Some (get_field (fst u) s2))
    /\ (forall G, G ∉ map fst updates -> get_field G s2 = get_field G s1).
Proof.
  simpl. induction updates as [|[F v] updates IH]; intros p s1 Hnd Hc Hfix H1.
  - exists s1. split; [exact H1|]. split; [|reflexivity].
    intros u Hu. apply elem_of_nil in Hu. contradiction.
  - apply NoDup_cons in Hnd as [HF Hnd]. simpl in HF.
    destruct (Hc (F, v)) as [x Hx]; [left|]. simpl in Hx.
    destruct (file_fixed_setenv p (field_name F) v Hfix) as [Hfile Hfix'].
    destruct (setenv_frame p F v x s1 Hx H1 Hfile) as (s' & Hs' & HsF & Hsother).
    destruct (IH (setenv (field_name F) v p) s' Hnd) as (s2 & Hs2 & Hin & Hout).
    + intros u Hu. apply Hc. right. exact Hu.
    + exact Hfix'.
    + exact Hs'.
    + exists s2. split; [exact Hs2|]. split.
      * intros u Hu. apply elem_of_cons in Hu as [->|Hu]; [|apply Hin, Hu].
        simpl. rewrite Hx, (Hout F HF), HsF. reflexivity.
      * intros G HG. simpl in HG. apply not_elem_of_cons in HG as [HGF HG].
        rewrite (Hout G HG). apply Hsother. exact HGF.
Qed.

Lemma first_error_reported_witness :
  first_undecodable (environ p_two_bad) = Some F_DEFAULT_SUBREDDITS /\
  fst (get_settings p_two_bad)
  = Raise (SettingsError F_DEFAULT_SUBREDDITS EnvSettingsSource).
Proof.
  assert (H : first_undecodable (environ p_two_bad) = Some F_DEFAULT_SUBREDDITS)
    by (vm_compute; reflexivity).
  split; [exact H|].
  exact (proj1 (first_error_reported p_two_bad F_DEFAULT_SUBREDDITS) H).
Defined.

Lemma several_variables_override_witness :
  NoDup (map fst test_updates) /\
  file_fixed p_two_files /\
  exists s1 s2,
    fst (get_settings p_two_files) = Ok s1 /\
    fst (get_settings (setenv_all test_updates p_two_files)) = Ok s2
    /\ (forall u, u ∈ test_updates -> coerce (fst u) (snd u) = Some (get_field (fst u) s2))
    /\ (forall G, G ∉ map fst test_updates -> get_field G s2 = get_field G s1).
Proof.
  assert (Hnd : NoDup (map fst test_updates)).
  { unfold test_updates. cbn [map fst].
    repeat (apply NoDup_cons; split;
            [rewrite ?elem_of_cons, elem_of_nil; intros H; intuition discriminate|]).
    apply NoDup_nil_2. }
  assert (Hfix : file_fixed p_two_files).
  { intros values [= <-] e e'. reflexivity. }
  split; [exact Hnd|]. split; [exact Hfix|].
  destruct (fst (get_settings p_two_files)) as [s1|e] eqn:H1;
    [|vm_compute in H1; discriminate H1].
  exists s1.
  destruct (several_variables_override test_updates p_two_files s1 Hnd) as (s2 & H2);
    [|exact Hfix|exact H1|exists s2; split; [reflexivity|exact H2]].
  intros u Hu. unfold test_updates in Hu.
  repeat (apply elem_of_cons in Hu as [->|Hu]; [eexists; reflexivity|]).
  apply elem_of_nil in Hu. contradiction.
Defined.

End SettingsCoverage.

(** ** The list encoding with escapes *)

Section DumpsRoundTrip.
Import Json Config ConfigSpec Coverage.

Lemma decode_hexchar (c : N) :
  c < 32 ->
  decode_uXXXX (ch "0") (ch "0") (hexchar (c / 16)) (hexchar (c mod 16)) = Some c
  /\ is_high_surrogate c = false.
Proof.
  intros H. assert (Hc : (N.to_nat c < 32)%nat) by lia.
  rewrite <- (N2Nat.id c). remember (N.to_nat c) as n eqn:Hn. clear Hn H.
  do 32 (destruct n as [|n]; [split; vm_compute; reflexivity|]). lia.
Qed.

Lemma scanstring_unicode_escape (c : N) (t : str) :
  c < 32 ->
  scanstring (BSLASH :: ch "u" :: ch "0" :: ch "0"
              :: hexchar (c / 16) :: hexchar (c mod 16) :: t)
  = match scanstring t with
    | Some (r, rest) => Some (c :: r, rest)
    | None => None
    end.
Proof.
  intros H. destruct (decode_hexchar c H) as [Hd Hh].
  cbn [scanstring].
  change (BSLASH =? DQUOTE) with false. change (BSLASH =? BSLASH) with true.
  change (ch "u" =? ch "u") with true. cbv iota.
  rewrite Hd. cbv zeta. rewrite Hh. reflexivity.
Qed.

Lemma scanstring_short_escape (e c : N) (t : str) :
  BACKSLASH e = Some c -> (e =? ch "u") = false ->
  scanstring (BSLASH :: e :: t)
  = match scanstring t with
    | Some (r, rest) => Some (c :: r, rest)
    | None => None
    end.
Proof.
  intros Hb Hu. cbn [scanstring].
  change (BSLASH =? DQUOTE) with false. change (BSLASH =? BSLASH) with true.
  cbv iota. rewrite Hu, Hb. reflexivity.
Qed.

Lemma scanstring_escape_char (c : N) (t : str) :
  scanstring (escape_char c ++ t)
  = match scanstring t with
    | Some (r, rest) => Some (c :: r, rest)
    | None => None
    end.
Proof.
  unfold escape_char.
  destruct (N.eqb_spec c DQUOTE) as [->|Hq];
    [apply scanstring_short_escape; reflexivity|].
  destruct (N.eqb_spec c BSLASH) as [->|Hb];
    [apply scanstring_short_escape; reflexivity|].
  destruct (N.eqb_spec c 8) as [->|H8]; [apply scanstring_short_escape; reflexivity|].
  destruct (N.eqb_spec c 12) as [->|H12]; [apply scanstring_short_escape; reflexivity|].
  destruct (N.eqb_spec c 10) as [->|H10]; [apply scanstring_short_escape; reflexivity|].
  destruct (N.eqb_spec c 13) as [->|H13]; [apply scanstring_short_escape; reflexivity|].
  destruct (N.eqb_spec c 9) as [->|H9]; [apply scanstring_short_escape; reflexivity|].
  destruct (N.ltb_spec c 32) as [Hlt|Hge].
  - apply scanstring_unicode_escape. exact Hlt.
  - cbn [app scanstring].
    destruct (N.eqb_spec c DQUOTE) as [|_]; [contradiction|].
    destruct (N.eqb_spec c BSLASH) as [|_]; [contradiction|].
    destruct (N.ltb_spec c 32) as [|_]; [lia|]. reflexivity.
Qed.

(** Every string comes back from its literal. *)
Lemma scanstring_dumps (s rest : str) :
  scanstring (flat_map escape_char s ++ DQUOTE :: rest) = Some (s, rest).
Proof.
  induction s as [|c s IH]; [reflexivity|].
  cbn [flat_map]. rewrite <- app_assoc, scanstring_escape_char, IH. reflexivity.
Qed.

Lemma scan_once_dumps_str (fuel : nat) (s rest : str) :
  scan_once (S fuel) (dumps_str s ++ rest) = Some (JStr s, rest).
Proof.
  unfold dumps_str. cbn [app scan_once]. change (DQUOTE =? DQUOTE) with true.
  cbv iota. rewrite <- app_assoc. cbn [app]. rewrite scanstring_dumps. reflexivity.
Qed.

Lemma join_dumps_head (s : str) (l : list str) (t : str) :
  exists t', join_dumps (s :: l) ++ t = dumps_str s ++ t'.
Proof.
  destruct l as [|s' l]; [exists t; reflexivity|].
  eexists. change (join_dumps (s :: s' :: l))
    with (dumps_str s ++ py ", " ++ join_dumps (s' :: l)).
  rewrite <- app_assoc. reflexivity.
Qed.

Lemma array_loop_join_dumps (fuel : nat) (l : list str) (rest : str) :
  l <> [] ->
  forall n, (length l <= n)%nat ->
  array_loop (scan_once (S fuel)) n (join_dumps l ++ ch "]" :: rest)
  = Some (map JStr l, rest).
Proof.
  intros Hne. induction l as [|s l IH]; [contradiction|].
  intros n Hn. destruct n as [|n]; [simpl in Hn; lia|].
  destruct l as [|s' l].
  - cbn [join_dumps array_loop]. rewrite scan_once_dumps_str. reflexivity.
  - change (join_dumps (s :: s' :: l))
      with (dumps_str s ++ py ", " ++ join_dumps (s' :: l)).
    cbn [array_loop]. rewrite <- !app_assoc. rewrite scan_once_dumps_str.
    change (skip_ws (py ", " ++ join_dumps (s' :: l) ++ ch "]" :: rest))
      with (ch "," :: ch " " :: join_dumps (s' :: l) ++ ch "]" :: rest).
    cbv iota beta.
    change (ch "," =? ch "]") with false. change (ch "," =? ch ",") with true.
    cbv iota.
    destruct (join_dumps_head s' l (ch "]" :: rest)) as [t Ht].
    assert (Hsk : skip_ws (ch " " :: dumps_str s' ++ t) = dumps_str s' ++ t)
      by reflexivity.
    rewrite Ht, Hsk, <- Ht.
    rewrite IH; [reflexivity|discriminate|simpl in *; lia].
Qed.

Lemma length_join_dumps (l : list str) : (length l <= length (join_dumps l) + 1)%nat.
Proof.
  induction l as [|s [|s' l] IH]; simpl in *; try lia.
  rewrite !length_app in *. simpl in *. lia.
Qed.

Lemma loads_dumps_list (l : list str) : loads (dumps_list l) = Some (JArr (map JStr l)).
Proof.
  unfold loads, dumps_list.
  change (skip_ws (ch "[" :: join_dumps l ++ [ch "]"]))
    with (ch "[" :: join_dumps l ++ [ch "]"]).
  cbn [scan_once]. change (ch "[" =? DQUOTE) with false.
  change (ch "[" =? ch "{") with false. change (ch "[" =? ch "[") with true.
  cbv iota. unfold JSONArray.
  destruct l as [|s l]; [reflexivity|].
  destruct (join_dumps_head s l [ch "]"]) as [t Ht].
  assert (Hsk : skip_ws (dumps_str s ++ t) = dumps_str s ++ t) by reflexivity.
  rewrite Ht, Hsk. unfold dumps_str at 1. cbn [app].
  change (DQUOTE =? ch "]") with false. cbv iota.
  change (DQUOTE :: (flat_map escape_char s ++ [DQUOTE]) ++ t) with (dumps_str s ++ t).
  rewrite <- Ht.
  change (length (ch "[" :: join_dumps (s :: l) ++ [ch "]"]))
    with (S (length (join_dumps (s :: l) ++ [ch "]"]))).
  rewrite array_loop_join_dumps; [reflexivity|discriminate|].
  pose proof (length_join_dumps (s :: l)). rewrite length_app. simpl in *. lia.
Qed.

(** X6.  Every list of strings, with whatever characters, written the
    way [json.dumps(l, ensure_ascii=False)] writes it and set as the
    environment value of a list setting of an accepted configuration
    whose override file reads the same after the change, comes back as
    exactly that list, the other fields unchanged. *)
Theorem escaped_list_round_trip (p : process) (F : Field) (l : list str) (s0 : Settings) :
  field_annotation F = ListStr ->
  fst (get_settings p) = Ok s0 ->
  dotenv_file (setenv (field_name F) (dumps_list l) p) = dotenv_file p ->
  exists s, fst (get_settings (setenv (field_name F) (dumps_list l) p)) = Ok s
            /\ get_field F s = VList l
            /\ forall G, G <> F -> get_field G s = get_field G s0.
Proof.
  simpl. intros HF H0 Hfile.
  assert (Hc : coerce F (dumps_list l) = Some (VList l)).
  { apply coerce_ListStr; [exact HF|]. exists (map JStr l), l.
    split; [apply loads_dumps_list|].
    split; [apply validate_items_map_JStr|reflexivity]. }
  exact (setenv_frame p F (dumps_list l) (VList l) s0 Hc H0 Hfile).
Qed.

Lemma escaped_list_round_trip_witness :
  exists s0 s,
    fst (get_settings Examples.p_both) = Ok s0 /\
    fst (get_settings (setenv (field_name F_DEFAULT_KEYWORDS)
                         (dumps_list awkward) Examples.p_both)) = Ok s
    /\ get_field F_DEFAULT_KEYWORDS s = VList awkward
    /\ forall G, G <> F_DEFAULT_KEYWORDS -> get_field G s = get_field G s0.
Proof.
  destruct (fst (get_settings Examples.p_both)) as [s0|e] eqn:H0;
    [|vm_compute in H0; discriminate H0].
  exists s0.
  destruct (escaped_list_round_trip Examples.p_both F_DEFAULT_KEYWORDS awkward s0
              eq_refl H0 eq_refl) as (s & Hs).
  exists s. split; [reflexivity|exact Hs].
Defined.

End DumpsRoundTrip.

(** ** Further properties of the logger factory *)

Section LoggingCoverage.
Import Logging LoggingSpec Coverage.

#[local] Open Scope Z_scope.


(** X8.  On every state, also one the factory did not bring about: a
    logger that has handlers keeps exactly those, and a logger without
    handlers gets the one handler the factory builds. *)
Theorem setup_logger_handlers (st : logging) (name : str) (lvl : Z) :
  sinks (snd (setup_logger name lvl st)) (fst (setup_logger name lvl st))
  = match sinks st (fst (setup_logger name lvl st)) with
    | [] => [factory_handler]
    | hs => hs
    end.
Proof.
  destruct (setup_logger_spec name lvl st)
    as (-> & (lg & Hat & _ & _ & _ & Hold & Hnew) & _).
  unfold sinks. rewrite Hat.
  destruct (logger_at (handle_of name) st) as [lg0|] eqn:Hl;
    unfold default, from_option, id in Hold, Hnew.
  - destruct (handlers lg0) as [|hd hs] eqn:Hh.
    + destruct (Hnew eq_refl) as (hd & -> & _ & _ & _ & ->). reflexivity.
    + apply Hold. discriminate.
  - destruct (Hnew eq_refl) as (hd & -> & _ & _ & _ & ->). reflexivity.
Qed.



(** X10.  After a call of the factory with level [lvl], in a state the
    program can bring about, the logger accepts a record exactly when
    the record's level is positive and reaches [lvl].  With
    [lvl = NOTSET] the effective level of the logger's parent takes the
    place of [lvl]: the first level other than [NOTSET] on the way up
    to the root.  The root logger has no parent, and at [NOTSET] it
    accepts every positive level. *)
Theorem acceptance_threshold (st : logging) (name : str) (lvl : Z)
    (record : LogRecord) :
  reachable st ->
  let logger := fst (setup_logger name lvl st) in
  let st1 := snd (setup_logger name lvl st) in
  accepts st1 logger record
  = (0 <? levelno record)
    && (levelno record >=?
          (if lvl =? NOTSET
           then match parent_of logger st1 with
                | Some parent => getEffectiveLevel parent st1
                | None => NOTSET
                end
           else lvl)).
Proof.
  intros Hreach logger st1.
  destruct (reachable_invariant st1 (reach_setup st name lvl Hreach)) as [Hinv Hh].
  destruct Hinv as [Hdis Hinv].
  destruct (setup_logger_spec name lvl st) as (Hf & (lg & Hat & Hlvl & _) & _).
  fold logger in Hf. fold st1 in Hat. rewrite <- Hf in Hat.
  destruct (Hinv _ _ Hat) as [Hd _].
  unfold accepts, isEnabledFor. rewrite Hat, Hd, Hdis.
  assert (He : getEffectiveLevel logger st1
               = if lvl =? NOTSET
                 then match parent_of logger st1 with
                      | Some parent => getEffectiveLevel parent st1
                      | None => NOTSET
                      end
                 else lvl).
  { unfold getEffectiveLevel at 1.
    assert (Hfuel : exists n, height logger = S n)
      by (destruct logger; simpl; eauto).
    destruct Hfuel as [n Hn]. rewrite Hn. cbn [getEffectiveLevel_loop].
    rewrite Hat, Hlvl. destruct (lvl =? NOTSET); [|reflexivity].
    destruct (parent_of logger st1) as [p|] eqn:Hp.
    - unfold getEffectiveLevel. apply getEffectiveLevel_loop_fuel; [exact Hh| |lia].
      apply (parent_of_height st1 logger p Hh) in Hp. lia.
    - apply getEffectiveLevel_loop_None. }
  rewrite He.
  destruct (Z.geb_spec 0 (levelno record)), (Z.ltb_spec 0 (levelno record));
    try lia; reflexivity.
Qed.

Lemma acceptance_threshold_witness :
  reachable (snd module_logger) /\
  accepts (snd (setup_logger default_name NOTSET (snd module_logger)))
          (fst (setup_logger default_name NOTSET (snd module_logger))) hello = false /\
  accepts (snd (setup_logger (py "") NOTSET (snd module_logger)))
          (fst (setup_logger (py "") NOTSET (snd module_logger))) hello = true.
Proof.
  split; [exact reach_import|]. split.
  - rewrite (acceptance_threshold (snd module_logger) default_name NOTSET hello
               reach_import).
    vm_compute. reflexivity.
  - rewrite (acceptance_threshold (snd module_logger) (py "") NOTSET hello
               reach_import).
    vm_compute. reflexivity.
Defined.

Lemma log_step (st : logging) (logger : handle) (r : LogRecord) (hd : RichHandler) :
  invariant st -> hierarchy (loggerDict st) ->
  sinks st logger = [hd] -> tag_free r = true ->
  exists st',
    log logger r st = Returns st' /\
    invariant st' /\ hierarchy (loggerDict st') /\
    (forall r', accepts st' logger r' = accepts st logger r') /\
    exists hd', sinks st' logger = [hd']
                /\ console hd' = console hd ++
                                 (if accepts st logger r then [printed_row hd r] else []).
Proof.
  intros Hinv Hh Hs Htag.
  destruct (log_printed st logger r Hinv Hh Htag) as (st' & Hlog & Hst');
    [rewrite Hs; discriminate|].
  pose proof (log_output_only _ _ _ _ Hlog) as Ho.
  exists st'. split; [exact Hlog|].
  split; [eapply output_only_invariant; eassumption|].
  split; [eapply output_only_hierarchy; eassumption|].
  split; [intros r'; apply output_only_isEnabledFor, Ho|].
  unfold sinks in Hs |- *. rewrite Hst'.
  destruct (logger_at logger st) as [lg|] eqn:Hat; [|discriminate Hs].
  destruct (accepts st logger r).
  - rewrite bool_decide_eq_true_2 by (apply lineage_head; eauto).
    cbn [andb fmap option_fmap option_map printed_on handlers]. rewrite Hs. cbn [map].
    eexists. split; [reflexivity|]. apply console_print_console.
    destruct (proj2 Hinv _ _ Hat) as (_ & _ & [Hnil|(hd1 & Hhd1 & Hc1)]); congruence.
  - cbn [andb]. exists hd. split; [exact Hs|]. rewrite app_nil_r. reflexivity.
Qed.

Lemma log_all_printed (logger : handle) (records : list LogRecord) :
  forall (st : logging) (hd : RichHandler),
  invariant st -> hierarchy (loggerDict st) -> sinks st logger = [hd] ->
  forallb tag_free records = true ->
  exists st' new,
    log_all logger records st = Returns st'
    /\ printed st' logger = printed st logger ++ new
    /\ map message_cell new
       = map (fun r => from_markup (message r))
             (List.filter (accepts st logger) records)
    /\ map level_cell new
       = map (fun r => Some (get_level_text r))
             (List.filter (accepts st logger) records).
Proof.
  induction records as [|r records IH]; intros st hd Hinv Hh Hs Htag.
  - exists st, []. rewrite app_nil_r. repeat split.
  - cbn [forallb] in Htag. apply andb_true_iff in Htag as [Hr Htag].
    destruct (log_step st logger r hd Hinv Hh Hs Hr)
      as (st1 & Hlog & Hinv1 & Hh1 & Hacc & hd' & Hs' & Hcon).
    destruct (IH st1 hd' Hinv1 Hh1 Hs' Htag) as (st' & new & Hall & Hp & Hm & Hl).
    exists st', ((if accepts st logger r then [printed_row hd r] else []) ++ new).
    cbn [log_all]. rewrite Hlog. split; [exact Hall|].
    rewrite Hp. unfold printed at 1 2. rewrite Hs', Hs. cbn [map concat].
    rewrite !app_nil_r, Hcon, <- app_assoc.
    split; [reflexivity|].
    rewrite (filter_ext _ _ Hacc) in Hm, Hl. cbn [List.filter].
    destruct (accepts st logger r); cbn [app map];
      rewrite ?Hm, ?Hl; split; reflexivity.
Qed.

(** X11.  A run of log calls on a logger the factory returned, with
    records whose messages hold no opening bracket: every call returns,
    and the logger's handler prints one entry for each accepted record
    and none for the others, in the order of the calls, each with the
    record's message and level name.  (The handlers of the loggers
    above it print the accepted records as well.) *)
Theorem log_all_one_entry_each (st : logging) (name : str) (lvl : Z)
    (records : list LogRecord) :
  reachable st ->
  let logger := fst (setup_logger name lvl st) in
  let st1 := snd (setup_logger name lvl st) in
  forallb tag_free records = true ->
  exists st2 new,
    log_all logger records st1 = Returns st2
    /\ printed st2 logger = printed st1 logger ++ new
    /\ map message_cell new
       = map (fun r => from_markup (message r))
             (List.filter (accepts st1 logger) records)
    /\ map level_cell new
       = map (fun r => Some (get_level_text r))
             (List.filter (accepts st1 logger) records).
Proof.
  intros Hreach logger st1 Htag.
  destruct (reachable_invariant st1 (reach_setup st name lvl Hreach)) as [Hinv Hh].
  destruct (setup_logger_one_handler st name lvl Hreach) as (lg & hd & Hat & Hhd & Hc).
  destruct (setup_logger_spec name lvl st) as (Hf & _).
  fold logger in Hf. fold st1 in Hat. rewrite <- Hf in Hat.
  apply (log_all_printed logger records st1 hd Hinv Hh); [|exact Htag].
  unfold sinks. rewrite Hat. exact Hhd.
Qed.

Lemma log_all_one_entry_each_witness :
  reachable (snd module_logger) /\
  exists st2 new,
    log_all (fst (setup_logger default_name INFO (snd module_logger))) records4
            (snd (setup_logger default_name INFO (snd module_logger))) = Returns st2
    /\ printed st2 (fst (setup_logger default_name INFO (snd module_logger)))
       = printed (snd (setup_logger default_name INFO (snd module_logger)))
                 (fst (setup_logger default_name INFO (snd module_logger))) ++ new
    /\ map message_cell new
       = [from_markup (py "one"); from_markup (py "two"); from_markup (py "three")].
Proof.
  split; [exact reach_import|].
  destruct (log_all_one_entry_each (snd module_logger) default_name INFO
              records4 reach_import eq_refl) as (st2 & new & Hall & Hp & Hm & _).
  exists st2, new. split; [exact Hall|]. split; [exact Hp|]. rewrite Hm.
  vm_compute. reflexivity.
Defined.

Lemma two_digits_inj (n m : N) :
  (n < 100)%N -> (m < 100)%N ->
  (48 + (n / 10) mod 10 = 48 + (m / 10) mod 10)%N ->
  (48 + n mod 10 = 48 + m mod 10)%N -> n = m.
Proof.
  intros Hn Hm H1 H2.
  assert (((n / 10) mod 10 = (m / 10) mod 10)%N) as E1 by lia.
  assert ((n mod 10 = m mod 10)%N) as E2 by lia.
  rewrite (N.mod_small (n / 10) 10) in E1 by (apply N.Div0.div_lt_upper_bound; lia).
  rewrite (N.mod_small (m / 10) 10) in E1 by (apply N.Div0.div_lt_upper_bound; lia).
  rewrite (N.div_mod n 10), (N.div_mod m 10) by lia. congruence.
Qed.

Lemma clock_text_same (t1 t2 : datetime) :
  valid_time t1 -> valid_time t2 ->
  bool_decide (clock_text t1 = clock_text t2) = same_clock t1 t2.
Proof.
  intros (Hh1 & Hm1 & Hs1) (Hh2 & Hm2 & Hs2). unfold same_clock.
  assert (Hinj : clock_text t1 = clock_text t2 ->
                 hour t1 = hour t2 /\ minute t1 = minute t2 /\ second t1 = second t2).
  { unfold clock_text, two_digits. cbn [py app map list_ascii_of_string].
    intros H. injection H as h1 h2 m1 m2 s1 s2.
    repeat split; apply two_digits_inj; (lia || assumption). }
  destruct (decide (clock_text t1 = clock_text t2)) as [E|NE].
  - rewrite bool_decide_eq_true_2 by exact E. destruct (Hinj E) as (-> & -> & ->).
    rewrite !N.eqb_refl. reflexivity.
  - rewrite bool_decide_eq_false_2 by exact NE. symmetry.
    apply not_true_iff_false. intros H.
    apply andb_true_iff in H as [H Hs]. apply andb_true_iff in H as [Hh Hm].
    apply N.eqb_eq in Hh, Hm, Hs. apply NE. unfold clock_text. rewrite Hh, Hm, Hs.
    reflexivity.
Qed.

(** X12.  For a record whose message holds no opening bracket,
    [emit] on the handler the factory configures returns and appends
    one entry.  The time column of the entry is blank exactly when the
    record shows the same hour, minute and second as the handler's
    previous entry; the handler then remembers the time of the new
    record. *)
Theorem repeated_time_blank (hd : RichHandler) (r1 r2 : LogRecord) :
  configured hd -> tag_free r2 = true ->
  valid_time (created r1) -> valid_time (created r2) ->
  _last_time hd = Some (clock_text (created r1)) ->
  exists hd' entry,
    emit hd r2 = Returns hd'
    /\ console hd' = console hd ++ [entry]
    /\ time_cell entry
       = Some (if same_clock (created r1) (created r2)
               then repeat (ch " ") 10 else clock_text (created r2))
    /\ _last_time hd' = Some (clock_text (created r2)).
Proof.
  intros Hc Htag Hv1 Hv2 Hlast.
  exists (console_print hd r2 (from_markup (message r2))), (printed_row hd r2).
  split; [apply emit_configured; assumption|].
  split; [apply console_print_console, Hc|].
  assert (Hb : bool_decide (_last_time hd = Some (clock_text (created r2)))
               = same_clock (created r1) (created r2)).
  { rewrite <- (clock_text_same _ _ Hv1 Hv2), Hlast.
    apply bool_decide_ext. split; intros H; congruence. }
  split.
  - unfold printed_row. cbn [time_cell]. rewrite Hb. reflexivity.
  - destruct Hc as (_ & Htime & Homit & _ & _ & _ & Hfmt).
    unfold console_print, render, log_time_display. cbn [_last_time snd].
    rewrite Htime, Homit, Hfmt.
    cbn [datefmt]. rewrite andb_true_r.
    change (strftime (py "[%X]") (created r2)) with (clock_text (created r2)).
    rewrite Hb. destruct (same_clock (created r1) (created r2)) eqn:E; [|reflexivity].
    rewrite Hlast. f_equal.
    rewrite <- (clock_text_same _ _ Hv1 Hv2) in E. apply bool_decide_eq_true in E. exact E.
Qed.

Lemma repeated_time_blank_witness :
  configured factory_handler /\
  valid_time (created hello) /\
  exists hd1 hd2 entry,
    emit factory_handler hello = Returns hd1
    /\ emit hd1 hello = Returns hd2
    /\ console hd2 = console hd1 ++ [entry]
    /\ time_cell entry = Some (repeat (ch " ") 10).
Proof.
  assert (Hc : configured factory_handler) by (repeat split).
  assert (Hv : valid_time (created hello)) by (repeat split).
  split; [exact Hc|]. split; [exact Hv|].
  exists (console_print factory_handler hello (from_markup (message hello))).
  destruct (repeated_time_blank
              (console_print factory_handler hello (from_markup (message hello)))
              hello hello) as (hd2 & entry & He & Hcon & Ht & _);
    [repeat split|reflexivity|exact Hv|exact Hv|reflexivity|].
  exists hd2, entry. split; [reflexivity|]. split; [exact He|].
  split; [exact Hcon|]. rewrite Ht. reflexivity.
Defined.

End LoggingCoverage.
